(** * TikZ editor: parser, drag handler and source rewriter

    A shallow embedding of [frontend/src/pages/Editor.jsx] (the component
    [TikZEditor]): the regular-expression scans of [parseTikZCode], the
    state updater of [handleNodeDrag], the text rewriting of
    [updateCodeFromNodes] and the [useState]/[useEffect] wiring between
    them.

    Strings are lists of code units ([ascii], code units 0..255); numbers
    are IEEE-754 binary64 values ([spec_float] with [prec = 53] and
    [emax = 1024]); the regular expressions are compiled from their source
    text by a model of the pattern grammar and run by a backtracking
    matcher. *)

From Stdlib Require Import String Ascii ZArith Lia Bool Arith PeanoNat List.
From Stdlib Require Import Floats.SpecFloat.
Import ListNotations.

Set Implicit Arguments.

(* ================================================================== *)
(** ** Strings *)

Module JSString.

Definition jsstr := list ascii.

(** A string literal of the source. *)
Definition js (s : string) : jsstr := list_ascii_of_string s.

Definition code (c : ascii) : nat := nat_of_ascii c.

Fixpoint eqb (a b : jsstr) : bool :=
  match a, b with
  | [], [] => true
  | x :: a', y :: b' => Ascii.eqb x y && eqb a' b'
  | _, _ => false
  end.

(** [WhiteSpace] and [LineTerminator] code units below 256: TAB, LF, VT,
    FF, CR, SP, NBSP.  [String.prototype.trim] and the class [\s] use the
    same set. *)
Definition isWhiteSpace (c : ascii) : bool :=
  let n := code c in
  ((9 <=? n) && (n <=? 13)) || (n =? 32) || (n =? 160).

Definition isDigit (c : ascii) : bool :=
  let n := code c in (48 <=? n) && (n <=? 57).

Definition digit_val (c : ascii) : nat := code c - 48.

Definition isWordChar (c : ascii) : bool :=
  let n := code c in
  ((48 <=? n) && (n <=? 57)) || ((65 <=? n) && (n <=? 90))
  || ((97 <=? n) && (n <=? 122)) || (n =? 95).

Fixpoint trimStart (s : jsstr) : jsstr :=
  match s with
  | c :: s' => if isWhiteSpace c then trimStart s' else s
  | [] => []
  end.

Definition trimEnd (s : jsstr) : jsstr := rev (trimStart (rev s)).

(** [String.prototype.trim] *)
Definition trim (s : jsstr) : jsstr := trimEnd (trimStart s).

Fixpoint startsWith (p s : jsstr) : bool :=
  match p, s with
  | [], _ => true
  | x :: p', y :: s' => Ascii.eqb x y && startsWith p' s'
  | _ :: _, [] => false
  end.

(** [String.prototype.includes]: [needle] occurs somewhere in [s]. *)
Fixpoint includes (s needle : jsstr) : bool :=
  startsWith needle s ||
  match s with
  | [] => false
  | _ :: s' => includes s' needle
  end.

(** [String.prototype.split] with a one-character separator: the pieces
    between the separators, in order; never empty. *)
Fixpoint split (sep : ascii) (s : jsstr) : list jsstr :=
  match s with
  | [] => [[]]
  | c :: s' =>
      if Ascii.eqb c sep then [] :: split sep s'
      else match split sep s' with
           | p :: ps => (c :: p) :: ps
           | [] => [[c]]
           end
  end.

End JSString.
Import JSString.

(* ================================================================== *)
(** ** Regular expressions *)

Module RegExp.

(** One member of a character class. *)
Inductive citem : Type :=
| CChar (c : ascii)
| CRange (lo hi : ascii)
| CSpace | CNotSpace
| CDigit | CNotDigit
| CWord | CNotWord.

(** The pattern, after parsing.  [RSet neg items] matches one code unit;
    literals, [.] and the class escapes are all instances of it. *)
Inductive regex : Type :=
| REmpty
| RSet (neg : bool) (items : list citem)
| RBol
| REol
| RSeq (r1 r2 : regex)
| RAlt (r1 r2 : regex)
| RStar (greedy : bool) (r : regex)
| ROpt (greedy : bool) (r : regex)
| RGroup (k : nat) (r : regex).

Definition citem_mem (c : ascii) (it : citem) : bool :=
  match it with
  | CChar c' => Ascii.eqb c c'
  | CRange lo hi => (code lo <=? code c) && (code c <=? code hi)
  | CSpace => isWhiteSpace c
  | CNotSpace => negb (isWhiteSpace c)
  | CDigit => isDigit c
  | CNotDigit => negb (isDigit c)
  | CWord => isWordChar c
  | CNotWord => negb (isWordChar c)
  end.

Definition set_mem (neg : bool) (items : list citem) (c : ascii) : bool :=
  xorb neg (existsb (citem_mem c) items).

Definition lit (c : ascii) : regex := RSet false [CChar c].

(** *** Compiling a pattern

    [new RegExp(pattern)] and regular-expression literals, without the
    [u] flag (the Annex B grammar).  The pattern is read left to right,
    one code unit at a time.  Constructs the model does not cover
    (bounded quantifiers, look-around, named groups, back-references,
    word boundaries, [\c], [\x], [\u] and octal escapes, class ranges with
    a class escape as an end point) are reported as [EUnsupported];
    [ESyntax] is the [SyntaxError] of the constructor. *)

Inductive perr : Type := ESyntax | EUnsupported.

Inductive quant : Type := QStar | QPlus | QOpt.

Definition mk_quant (q : quant) (greedy : bool) (r : regex) : regex :=
  match q with
  | QStar => RStar greedy r
  | QPlus => RSeq r (RStar greedy r)
  | QOpt => ROpt greedy r
  end.

(** What may still be done to the last term read. *)
Inductive tag : Type :=
| TAtom                         (* an atom: may take a quantifier *)
| TQuant (q : quant) (r : regex) (* a greedy quantified atom: may take [?] *)
| TDone                         (* a lazy quantified atom *)
| TAssert.                      (* [^] or [$] *)

Record frame : Type := mkFrame {
  f_group : option nat;          (* [Some k]: capturing group [k] *)
  f_alts : list regex;           (* finished alternatives, last first *)
  f_seq : list (regex * tag)     (* terms of the current one, last first *)
}.

Inductive mode : Type :=
| MNormal
| MEsc                           (* after a backslash *)
| MParen                         (* after an opening parenthesis *)
| MParenQ                        (* after "(?" *)
| MClassStart                    (* after "[" *)
| MClass (neg : bool) (items : list citem) (rangeable dash : bool)
| MClassEsc (neg : bool) (items : list citem) (rangeable dash : bool).

Record pstate : Type := mkP {
  p_stack : list frame;
  p_cur : frame;
  p_ngroups : nat;
  p_mode : mode
}.

Fixpoint mk_seq (l : list regex) : regex :=
  match l with
  | [] => REmpty
  | [r] => r
  | r :: l' => RSeq r (mk_seq l')
  end.

Fixpoint mk_alt (l : list regex) : regex :=
  match l with
  | [] => REmpty
  | [r] => r
  | r :: l' => RAlt r (mk_alt l')
  end.

Definition close_frame (f : frame) : regex :=
  let body := mk_alt (rev (mk_seq (rev (map fst (f_seq f))) :: f_alts f)) in
  match f_group f with
  | Some k => RGroup k body
  | None => body
  end.

Definition push_term (st : pstate) (r : regex) (t : tag) : pstate :=
  let f := p_cur st in
  mkP (p_stack st) (mkFrame (f_group f) (f_alts f) ((r, t) :: f_seq f))
      (p_ngroups st) MNormal.

Definition quantify (st : pstate) (q : quant) : pstate + perr :=
  let f := p_cur st in
  match f_seq f with
  | (r, TAtom) :: rest =>
      inl (mkP (p_stack st)
               (mkFrame (f_group f) (f_alts f)
                        ((mk_quant q true r, TQuant q r) :: rest))
               (p_ngroups st) MNormal)
  | _ => inr ESyntax
  end.

Definition question (st : pstate) : pstate + perr :=
  let f := p_cur st in
  match f_seq f with
  | (_, TQuant q r) :: rest =>
      inl (mkP (p_stack st)
               (mkFrame (f_group f) (f_alts f)
                        ((mk_quant q false r, TDone) :: rest))
               (p_ngroups st) MNormal)
  | _ => quantify st QOpt
  end.

Fixpoint skip_digits (s : jsstr) : jsstr :=
  match s with
  | c :: s' => if isDigit c then skip_digits s' else s
  | [] => []
  end.

(** Does the text after an opening brace make a bounded quantifier
    ([{n}], [{n,}] or [{n,m}])? *)
Definition brace_quantifier (la : jsstr) : bool :=
  match la with
  | c :: _ =>
      isDigit c &&
      match skip_digits la with
      | "}"%char :: _ => true
      | ","%char :: la' =>
          match skip_digits la' with
          | "}"%char :: _ => true
          | _ => false
          end
      | _ => false
      end
  | [] => false
  end.

Definition open_group (st : pstate) (capture : bool) : pstate :=
  let n := if capture then S (p_ngroups st) else p_ngroups st in
  mkP (p_cur st :: p_stack st)
      (mkFrame (if capture then Some n else None) [] [])
      n MNormal.

Definition step_normal (st : pstate) (c : ascii) (la : jsstr) : pstate + perr :=
  match c with
  | "\"%char => inl (mkP (p_stack st) (p_cur st) (p_ngroups st) MEsc)
  | "("%char => inl (mkP (p_stack st) (p_cur st) (p_ngroups st) MParen)
  | ")"%char =>
      match p_stack st with
      | [] => inr ESyntax
      | parent :: stack' =>
          inl (push_term (mkP stack' parent (p_ngroups st) MNormal)
                         (close_frame (p_cur st)) TAtom)
      end
  | "["%char => inl (mkP (p_stack st) (p_cur st) (p_ngroups st) MClassStart)
  | "|"%char =>
      let f := p_cur st in
      inl (mkP (p_stack st)
               (mkFrame (f_group f)
                        (mk_seq (rev (map fst (f_seq f))) :: f_alts f) [])
               (p_ngroups st) MNormal)
  | "*"%char => quantify st QStar
  | "+"%char => quantify st QPlus
  | "?"%char => question st
  | "{"%char =>
      if brace_quantifier la then inr EUnsupported
      else inl (push_term st (lit c) TAtom)
  | "."%char => inl (push_term st (RSet true [CChar "010"; CChar "013"]) TAtom)
  | "^"%char => inl (push_term st RBol TAssert)
  | "$"%char => inl (push_term st REol TAssert)
  | _ => inl (push_term st (lit c) TAtom)
  end.

(** The escapes shared by atoms and class members: [Some (inl it)] is a
    class of characters, [Some (inr c)] one character, [None] an escape
    outside the model. *)
Definition escape (in_class : bool) (c : ascii) (la : jsstr)
  : option (citem + ascii) :=
  match c with
  | "s"%char => Some (inl CSpace)
  | "S"%char => Some (inl CNotSpace)
  | "d"%char => Some (inl CDigit)
  | "D"%char => Some (inl CNotDigit)
  | "w"%char => Some (inl CWord)
  | "W"%char => Some (inl CNotWord)
  | "t"%char => Some (inr "009"%char)
  | "n"%char => Some (inr "010"%char)
  | "v"%char => Some (inr "011"%char)
  | "f"%char => Some (inr "012"%char)
  | "r"%char => Some (inr "013"%char)
  | "0"%char =>
      match la with
      | d :: _ => if isDigit d then None else Some (inr "000"%char)
      | [] => Some (inr "000"%char)
      end
  | "b"%char => if in_class then Some (inr "008"%char) else None
  | "B"%char | "c"%char | "x"%char | "u"%char | "k"%char => None
  | _ => if isDigit c then None else Some (inr c)
  end.

(** A class member [a] arrives; [dash] says that a [-] is waiting
    between the previous member and this one. *)
Definition class_add (st : pstate) (neg : bool) (items : list citem)
    (rangeable dash : bool) (a : citem) : pstate + perr :=
  let continue items' rangeable' :=
    inl (mkP (p_stack st) (p_cur st) (p_ngroups st)
             (MClass neg items' rangeable' false)) in
  if dash then
    match items, a with
    | CChar lo :: items', CChar hi =>
        if code lo <=? code hi then continue (CRange lo hi :: items') false
        else inr ESyntax
    | _, _ => inr EUnsupported
    end
  else continue (a :: items) true.

Definition step_class (st : pstate) (neg : bool) (items : list citem)
    (rangeable dash : bool) (c : ascii) : pstate + perr :=
  match c with
  | "]"%char =>
      let items' := if dash then CChar "-" :: items else items in
      inl (push_term st (RSet neg (rev items')) TAtom)
  | "\"%char =>
      inl (mkP (p_stack st) (p_cur st) (p_ngroups st)
               (MClassEsc neg items rangeable dash))
  | "-"%char =>
      if negb dash && rangeable then
        inl (mkP (p_stack st) (p_cur st) (p_ngroups st)
                 (MClass neg items rangeable true))
      else class_add st neg items rangeable dash (CChar c)
  | _ => class_add st neg items rangeable dash (CChar c)
  end.

Definition step (st : pstate) (c : ascii) (la : jsstr) : pstate + perr :=
  match p_mode st with
  | MNormal => step_normal st c la
  | MEsc =>
      match escape false c la with
      | Some (inl it) => inl (push_term st (RSet false [it]) TAtom)
      | Some (inr c') => inl (push_term st (lit c') TAtom)
      | None => inr EUnsupported
      end
  | MParen =>
      match c with
      | "?"%char => inl (mkP (p_stack st) (p_cur st) (p_ngroups st) MParenQ)
      | _ => step_normal (open_group st true) c la
      end
  | MParenQ =>
      match c with
      | ":"%char => inl (open_group st false)
      | _ => inr EUnsupported
      end
  | MClassStart =>
      match c with
      | "^"%char =>
          inl (mkP (p_stack st) (p_cur st) (p_ngroups st)
                   (MClass true [] false false))
      | _ => step_class st false [] false false c
      end
  | MClass neg items rangeable dash => step_class st neg items rangeable dash c
  | MClassEsc neg items rangeable dash =>
      match escape true c la with
      | Some (inl it) => class_add st neg items rangeable dash it
      | Some (inr c') => class_add st neg items rangeable dash (CChar c')
      | None => inr EUnsupported
      end
  end.

Fixpoint run (st : pstate) (s : jsstr) : pstate + perr :=
  match s with
  | [] => inl st
  | c :: s' =>
      match step st c s' with
      | inl st' => run st' s'
      | inr e => inr e
      end
  end.

(** A compiled pattern: its body and the number of capturing groups. *)
Record compiled : Type := mkRe { re_body : regex; re_ngroups : nat }.

Definition finish (st : pstate) : compiled + perr :=
  match p_mode st, p_stack st with
  | MNormal, [] => inl (mkRe (close_frame (p_cur st)) (p_ngroups st))
  | _, _ => inr ESyntax
  end.

Definition init : pstate := mkP [] (mkFrame None [] []) 0 MNormal.

(** [new RegExp(pattern, 'g')] *)
Definition compile (pattern : jsstr) : compiled + perr :=
  match run init pattern with
  | inl st => finish st
  | inr e => inr e
  end.

(** *** Matching

    A backtracking matcher in continuation-passing style, as the
    language definition gives it: a matcher takes the current index, the
    text from there on, the captures so far and a continuation for the
    rest of the pattern.  Alternatives are tried left to right, greedy
    repetitions longest first. *)

Definition caps := list (option jsstr).

Fixpoint set_cap (k : nat) (v : option jsstr) (c : caps) : caps :=
  match c, k with
  | [], _ => []
  | _ :: c', O => v :: c'
  | x :: c', S k' => x :: set_cap k' v c'
  end.

(** The capturing groups inside a pattern. *)
Fixpoint groups (r : regex) : list nat :=
  match r with
  | REmpty | RSet _ _ | RBol | REol => []
  | RSeq r1 r2 | RAlt r1 r2 => groups r1 ++ groups r2
  | RStar _ r1 | ROpt _ r1 => groups r1
  | RGroup k r1 => k :: groups r1
  end.

(** Group [k] is kept at position [k - 1]. *)
Definition clear (gs : list nat) (c : caps) : caps :=
  fold_left (fun c k => set_cap (k - 1) None c) gs c.

Section Matcher.

Variable R : Type.

Definition cont := nat -> jsstr -> caps -> option R.

(** The repetition of [body]: an iteration that consumes nothing is
    rejected, so at most [length s] iterations happen and [fuel] is
    [S (length s)]. *)
Fixpoint star_loop (body : nat -> jsstr -> caps -> cont -> option R)
    (greedy : bool) (fuel : nat) (i : nat) (s : jsstr) (c : caps) (k : cont)
    {struct fuel} : option R :=
  match fuel with
  | O => None
  | S fuel' =>
      if greedy then
        match body i s c
                (fun i' s' c' =>
                   if i' =? i then None
                   else star_loop body greedy fuel' i' s' c' k) with
        | Some x => Some x
        | None => k i s c
        end
      else
        match k i s c with
        | Some x => Some x
        | None =>
            body i s c
              (fun i' s' c' =>
                 if i' =? i then None
                 else star_loop body greedy fuel' i' s' c' k)
        end
  end.

Fixpoint m (r : regex) (i : nat) (s : jsstr) (c : caps) (k : cont)
    {struct r} : option R :=
  match r with
  | REmpty => k i s c
  | RSet neg items =>
      match s with
      | ch :: s' => if set_mem neg items ch then k (S i) s' c else None
      | [] => None
      end
  | RBol => if i =? 0 then k i s c else None
  | REol => match s with [] => k i s c | _ :: _ => None end
  | RSeq r1 r2 => m r1 i s c (fun i' s' c' => m r2 i' s' c' k)
  | RAlt r1 r2 =>
      match m r1 i s c k with
      | Some x => Some x
      | None => m r2 i s c k
      end
  | RStar greedy r1 =>
      star_loop (fun i s c k => m r1 i s (clear (groups r1) c) k)
                greedy (S (length s)) i s c k
  | ROpt greedy r1 =>
      if greedy then
        match m r1 i s (clear (groups r1) c)
                (fun i' s' c' => if i' =? i then None else k i' s' c') with
        | Some x => Some x
        | None => k i s c
        end
      else
        match k i s c with
        | Some x => Some x
        | None =>
            m r1 i s (clear (groups r1) c)
              (fun i' s' c' => if i' =? i then None else k i' s' c')
        end
  | RGroup n r1 =>
      m r1 i s c
        (fun i' s' c' => k i' s' (set_cap (n - 1) (Some (firstn (i' - i) s)) c'))
  end.

(** Two continuations that agree wherever a matcher started at index
    [i] on the text [s] can call them: further in the same text. *)
Definition agree (i : nat) (s : jsstr) (k1 k2 : cont) : Prop :=
  forall i' s' c',
    length s' <= length s -> i' + length s' = i + length s ->
    k1 i' s' c' = k2 i' s' c'.

End Matcher.

(** The result of a successful match: where it starts and ends in the
    whole text, and what the groups captured. *)
Record match_result : Type := mkMatch {
  m_index : nat;
  m_end : nat;
  m_caps : caps
}.

(** The first match that starts at index [i] or later; [s] is the text
    from index [i] on. *)
Fixpoint search (re : compiled) (i : nat) (s : jsstr) : option match_result :=
  match m (re_body re) i s (repeat None (re_ngroups re))
          (fun e _ c => Some (mkMatch i e c)) with
  | Some r => Some r
  | None =>
      match s with
      | [] => None
      | _ :: s' => search re (S i) s'
      end
  end.

(** [re.exec(str)] on a global pattern whose [lastIndex] is [lastIndex]:
    the match, whose [m_end] is the new [lastIndex], or [None] (and
    [lastIndex] goes back to 0). *)
Definition exec (re : compiled) (str : jsstr) (lastIndex : nat)
  : option match_result :=
  if length str <? lastIndex then None
  else search re lastIndex (skipn lastIndex str).

Definition substring (str : jsstr) (from to : nat) : jsstr :=
  firstn (to - from) (skipn from str).

Definition matched (str : jsstr) (mt : match_result) : jsstr :=
  substring str (m_index mt) (m_end mt).

(** Capture [n] of a match ([match[n]], [n >= 1]); an undefined capture
    reads as the empty string wherever the program uses one. *)
Definition capture (mt : match_result) (n : nat) : jsstr :=
  match nth_error (m_caps mt) (n - 1) with
  | Some (Some w) => w
  | _ => []
  end.

(** [while ((match = re.exec(str)) !== null) body]: the loop of
    [parseTikZCode].  A match that is empty leaves [lastIndex] where it
    is, and the loop never ends: [None]. *)
Fixpoint exec_loop {A : Type} (re : compiled) (str : jsstr)
    (body : A -> match_result -> A) (fuel : nat) (lastIndex : nat) (acc : A)
    : option A :=
  match fuel with
  | O => None
  | S fuel' =>
      match exec re str lastIndex with
      | None => Some acc
      | Some mt =>
          if m_end mt =? m_index mt then None
          else exec_loop re str body fuel' (m_end mt) (body acc mt)
      end
  end.

(** [GetSubstitution]: the replacement text for one match, from the
    replacement template.  [$$], [$&], [$`], [$'] and [$n], [$nn] for a
    group that exists are references; any other [$] stands for itself. *)
Fixpoint expand (str : jsstr) (mt : match_result) (template : jsstr) : jsstr :=
  let ncaps := length (m_caps mt) in
  let one d t' :=
    let n := digit_val d in
    if (1 <=? n) && (n <=? ncaps) then capture mt n ++ expand str mt t'
    else "$"%char :: d :: expand str mt t' in
  match template with
  | "$"%char :: c :: t' =>
      match c with
      | "$"%char => "$"%char :: expand str mt t'
      | "&"%char => matched str mt ++ expand str mt t'
      | "`"%char => firstn (m_index mt) str ++ expand str mt t'
      | "'"%char => skipn (m_end mt) str ++ expand str mt t'
      | _ =>
          if isDigit c then
            match t' with
            | d2 :: t'' =>
                if isDigit d2 then
                  let n := 10 * digit_val c + digit_val d2 in
                  if (1 <=? n) && (n <=? ncaps)
                  then capture mt n ++ expand str mt t''
                  else one c t'
                else one c t'
            | [] => one c t'
            end
          else "$"%char :: c :: expand str mt t'
      end
  | ch :: t' => ch :: expand str mt t'
  | [] => []
  end.

(** [str.replace(re, template)] for a global pattern.  [i] is the index
    reached and [s] the text from there on; after an empty match the
    search resumes one code unit further. *)
Fixpoint replace_from (re : compiled) (str template : jsstr)
    (fuel : nat) (i : nat) (s : jsstr) : jsstr :=
  match fuel with
  | O => s
  | S fuel' =>
      match search re i s with
      | None => s
      | Some mt =>
          let before := firstn (m_index mt - i) s in
          let rest := skipn (m_end mt - i) s in
          let out := before ++ expand str mt template in
          if m_end mt =? m_index mt then
            match rest with
            | [] => out
            | ch :: rest' =>
                out ++ ch :: replace_from re str template fuel' (S (m_end mt)) rest'
            end
          else out ++ replace_from re str template fuel' (m_end mt) rest
      end
  end.

Definition replace (re : compiled) (str template : jsstr) : jsstr :=
  replace_from re str template (S (length str)) 0 str.

(** The matches that [exec_loop] hands to its body, in order. *)
Fixpoint matchList (re : compiled) (str : jsstr) (fuel : nat) (lastIndex : nat)
  : option (list match_result) :=
  match fuel with
  | O => None
  | S fuel' =>
      match exec re str lastIndex with
      | None => Some []
      | Some mt =>
          if m_end mt =? m_index mt then None
          else option_map (cons mt) (matchList re str fuel' (m_end mt))
      end
  end.

(** The matches that [replace] replaces, in order
    ([String.prototype.matchAll]). *)
Fixpoint matchAll_from (re : compiled) (fuel : nat) (i : nat) (s : jsstr)
  : list match_result :=
  match fuel with
  | O => []
  | S fuel' =>
      match search re i s with
      | None => []
      | Some mt =>
          let rest := skipn (m_end mt - i) s in
          if m_end mt =? m_index mt then
            match rest with
            | [] => [mt]
            | _ :: rest' => mt :: matchAll_from re fuel' (S (m_end mt)) rest'
            end
          else mt :: matchAll_from re fuel' (m_end mt) rest
      end
  end.

Definition matchAll (re : compiled) (str : jsstr) : list match_result :=
  matchAll_from re (S (length str)) 0 str.

(** *** What a pattern matches

    [sem r i w rest c c']: at index [i], with captures [c], the pattern
    [r] can match the text [w] when [rest] follows it, and leaves the
    captures [c']. *)
Inductive sem : regex -> nat -> jsstr -> jsstr -> caps -> caps -> Prop :=
| sem_empty i rest c :
    sem REmpty i [] rest c c
| sem_set neg items ch i rest c :
    set_mem neg items ch = true ->
    sem (RSet neg items) i [ch] rest c c
| sem_bol rest c :
    sem RBol 0 [] rest c c
| sem_eol i c :
    sem REol i [] [] c c
| sem_seq r1 r2 i w1 w2 rest c c1 c2 :
    sem r1 i w1 (w2 ++ rest) c c1 ->
    sem r2 (i + length w1) w2 rest c1 c2 ->
    sem (RSeq r1 r2) i (w1 ++ w2) rest c c2
| sem_alt_l r1 r2 i w rest c c' :
    sem r1 i w rest c c' ->
    sem (RAlt r1 r2) i w rest c c'
| sem_alt_r r1 r2 i w rest c c' :
    sem r2 i w rest c c' ->
    sem (RAlt r1 r2) i w rest c c'
| sem_star_nil g r i rest c :
    sem (RStar g r) i [] rest c c
| sem_star_cons g r i w1 w2 rest c c1 c2 :
    w1 <> [] ->
    sem r i w1 (w2 ++ rest) (clear (groups r) c) c1 ->
    sem (RStar g r) (i + length w1) w2 rest c1 c2 ->
    sem (RStar g r) i (w1 ++ w2) rest c c2
| sem_opt_nil g r i rest c :
    sem (ROpt g r) i [] rest c c
| sem_opt_some g r i w rest c c' :
    w <> [] ->
    sem r i w rest (clear (groups r) c) c' ->
    sem (ROpt g r) i w rest c c'
| sem_group k r i w rest c c' :
    sem r i w rest c c' ->
    sem (RGroup k r) i w rest c (set_cap (k - 1) (Some w) c').

End RegExp.

(* ================================================================== *)
(** ** Numbers *)

Module Number.

(** A Number is a binary64 value: a [spec_float] in canonical form, which
    the operations below return. *)
Definition number := spec_float.

Definition prec : Z := 53.
Definition emax : Z := 1024.

Definition add : number -> number -> number := SFadd prec emax.
Definition sub : number -> number -> number := SFsub prec emax.
Definition mul : number -> number -> number := SFmul prec emax.
Definition div : number -> number -> number := SFdiv prec emax.
Definition neg : number -> number := SFopp.

(** An integer literal of the source. *)
Definition ofZ (z : Z) : number := binary_normalize prec emax z 0 false.

(** The binary64 value nearest to [n / d] (ties to even), with sign [s]. *)
Definition ofRatio (s : bool) (n d : positive) : number :=
  let '(q, e, l) := SFdiv_core_binary prec emax (Zpos n) 0 (Zpos d) 0 in
  binary_round_aux prec emax s q e l.

(** *** Decimal digits *)

Definition digit_char (d : Z) : ascii := ascii_of_nat (48 + Z.to_nat d).

Fixpoint digits_fuel (fuel : nat) (n : Z) (acc : jsstr) : jsstr :=
  match fuel with
  | O => acc
  | S fuel' =>
      let acc' := digit_char (n mod 10) :: acc in
      if (n <? 10)%Z then acc' else digits_fuel fuel' (n / 10) acc'
  end.

(** The decimal representation of [n >= 0], without leading zeros. *)
Definition digits (n : Z) : jsstr :=
  digits_fuel (S (Z.to_nat (Z.log2 n))) n [].

Fixpoint span_digits (s : jsstr) : jsstr * jsstr :=
  match s with
  | c :: s' =>
      if isDigit c then let '(ds, r) := span_digits s' in (c :: ds, r)
      else ([], s)
  | [] => ([], [])
  end.

Definition digits_value (ds : jsstr) : Z :=
  fold_left (fun v c => (10 * v + Z.of_nat (digit_val c))%Z) ds 0%Z.
 
Fixpoint strip_zeros (ds : jsstr) : jsstr :=
  match ds with
  | "0"%char :: ds' => strip_zeros ds'
  | _ => ds
  end.

(** The binary64 value nearest to [mant * 10^e10], where [mant] is given
    by its digits.  Beyond the range of binary64 the power of ten is not
    computed: the value is then infinite, or rounds to zero. *)
Definition ofDecimal (s : bool) (mant : jsstr) (e10 : Z) : number :=
  match digits_value mant with
  | Zpos v =>
      let magnitude := (Z.of_nat (length (strip_zeros mant)) + e10)%Z in
      if (310 <? magnitude)%Z then S754_infinity s
      else if (magnitude <? -330)%Z then S754_zero s
      else
        match e10 with
        | Zneg _ => ofRatio s v (Z.to_pos (10 ^ (- e10)))
        | _ =>
            let w := (Zpos v * 10 ^ e10)%Z in
            binary_normalize prec emax (if s then (- w)%Z else w) 0 s
        end
  | _ => S754_zero s
  end.

Definition take_sign (s : jsstr) : bool * jsstr :=
  match s with
  | "-"%char :: s' => (true, s')
  | "+"%char :: s' => (false, s')
  | _ => (false, s)
  end.

(** [parseFloat]: the longest prefix of the trimmed argument that is a
    decimal literal, or NaN when there is none. *)
Definition parseFloat (input : jsstr) : number :=
  let '(s, s1) := take_sign (trimStart input) in
  if startsWith (js "Infinity") s1 then S754_infinity s
  else
    let '(ip, s2) := span_digits s1 in
    let '(fp, s3) :=
      match s2 with
      | "."%char :: s2' => span_digits s2'
      | _ => ([], s2)
      end in
    match ip ++ fp with
    | [] => S754_nan
    | mant =>
        let ex :=
          match s3 with
          | c :: s3' =>
              if Ascii.eqb c "e" || Ascii.eqb c "E" then
                let '(es, s4) := take_sign s3' in
                let v := digits_value (fst (span_digits s4)) in
                if es then (- v)%Z else v
              else 0%Z
          | [] => 0%Z
          end in
        ofDecimal s mant (ex - Z.of_nat (length fp))
    end.

(** *** [Number.prototype.toFixed(2)] *)

(** [Number::toString] of a finite [x >= 10^21] whose exact (integer)
    value is [X]: the shortest digit string [s] of [k] digits with
    [s * 10^(n-k)] rounding to [x], in exponential notation. *)
Definition candidate (x : number) (X : Z) (nX : Z) (k : Z) : option Z :=
  let p := (10 ^ (nX - k))%Z in
  let lo := (X / p)%Z in
  let hi := (lo + 1)%Z in
  let ok v := SFeqb (ofZ (v * p)) x in
  match ok lo, ok hi with
  | true, true =>
      let dlo := (X - lo * p)%Z in
      let dhi := (hi * p - X)%Z in
      Some (if (dlo <? dhi)%Z then lo
            else if (dhi <? dlo)%Z then hi
            else if Z.even lo then lo else hi)
  | true, false => Some lo
  | false, true => Some hi
  | false, false => None
  end.

Fixpoint shortest (x : number) (X nX : Z) (fuel : nat) (k : Z) : Z * Z :=
  match fuel with
  | O => (X, nX)
  | S fuel' =>
      match candidate x X nX k with
      | Some s => (s, k)
      | None => shortest x X nX fuel' (k + 1)
      end
  end.

Definition toString_large (x : number) (X : Z) : jsstr :=
  let nX := Z.of_nat (length (digits X)) in
  let '(s, k) := shortest x X nX 17 1 in
  let '(ds, e) :=
    if (s =? 10 ^ k)%Z then (["1"%char], nX) else (digits s, (nX - 1)%Z) in
  match ds with
  | [d] => d :: js "e+" ++ digits e
  | d :: ds' => d :: "."%char :: ds' ++ js "e+" ++ digits e
  | [] => []
  end.

(** The digits of [n] hundredths, with the point before the last two. *)
Definition fixed2 (n : Z) : jsstr :=
  let ds := digits n in
  let ds := repeat "0"%char (3 - length ds) ++ ds in
  firstn (length ds - 2) ds ++ "."%char :: skipn (length ds - 2) ds.

Definition toFixed2 (x : number) : jsstr :=
  match x with
  | S754_nan => js "NaN"
  | S754_infinity s => (if s then js "-" else []) ++ js "Infinity"
  | S754_zero _ => js "0.00"
  | S754_finite s mx e =>
      let sign := if s then js "-" else [] in
      (* the hundredths nearest to |x|, the larger one on a tie *)
      let n :=
        match e with
        | Zneg pe => ((200 * Zpos mx + 2 ^ Zpos pe) / 2 ^ (Zpos pe + 1))%Z
        | _ => (100 * Zpos mx * 2 ^ e)%Z
        end in
      let large :=
        match e with
        | Zneg pe => (10 ^ 21 * 2 ^ Zpos pe <=? Zpos mx)%Z
        | _ => (10 ^ 21 <=? Zpos mx * 2 ^ e)%Z
        end in
      if large
      then sign ++ toString_large (S754_finite false mx e) (Zpos mx * 2 ^ e)
      else sign ++ fixed2 n
  end.

End Number.

(* ================================================================== *)
(** ** The component [TikZEditor] *)

Module TikZEditor.

Import RegExp Number.

(** The values of [styleType]. *)
Inductive shape : Type :=
| rectangle | ellipse | cylinder | dashed_rect | yellow_rect.

(** An element of the [nodes] state; [x] and [y] are canvas pixels. *)
Record node : Type := mkNode {
  name : jsstr;
  x : number;
  y : number;
  text : jsstr;
  styleType : shape
}.

(** An element of the [connections] state. *)
Record connection : Type := mkConnection {
  from : jsstr;
  to : jsstr;
  dashed : bool
}.

(** A regular-expression literal of the source, compiled.  The literals
    below all compile ([literals_compile]); the second branch is there
    for totality only. *)
Definition literal (pattern : string) : compiled :=
  match compile (js pattern) with
  | inl re => re
  | inr _ => mkRe REmpty 0
  end.

Definition nodeRegex : compiled :=
  Eval vm_compute in
    literal "\\node\[([^\]]*)\]\s*\(([^)]+)\)\s*at\s*\(([^)]+)\)\s*\{([^}]*)\}".

Definition arrowRegex : compiled :=
  Eval vm_compute in
    literal "\\draw\[([^\]]*)\]\s*\(([^)]+)\)\s*--\s*\(([^)]+)\)".

(** [/cm/g], [/\\textbf\{([^}]+)\}/g] and [/\\\\/g] *)
Definition cmRegex : compiled := Eval vm_compute in literal "cm".
Definition textbfRegex : compiled :=
  Eval vm_compute in literal "\\textbf\{([^}]+)\}".
Definition backslashesRegex : compiled := Eval vm_compute in literal "\\\\".

Definition newline : jsstr := ["010"%char].

(** The chain of tests on [style] that sets [styleType]. *)
Definition styleTypeOf (style : jsstr) : shape :=
  if includes style (js "cloud") || includes style (js "ellipse") then ellipse
  else if includes style (js "db") || includes style (js "cylinder") then cylinder
  else if includes style (js "k8s") then dashed_rect
  else if includes style (js "api") then yellow_rect
  else rectangle.

(** [match[3].replace(/cm/g, '').trim().split(',')] *)
Definition coordsOf (mt : match_result) : list jsstr :=
  split "," (trim (replace cmRegex (capture mt 3) [])).

(** The body of the first [while] loop of [parseTikZCode], for one match:
    [nodes.push] when the coordinates have two components. *)
Definition nodeBody (nodes : list node) (mt : match_result) : list node :=
  let style := capture mt 1 in
  let name := capture mt 2 in
  let coords := coordsOf mt in
  let text :=
    replace backslashesRegex
      (replace textbfRegex (capture mt 4) (js "$1")) newline in
  if length coords =? 2 then
    let x := add (mul (parseFloat (trim (nth 0 coords []))) (ofZ 50)) (ofZ 400) in
    let y := add (mul (neg (parseFloat (trim (nth 1 coords [])))) (ofZ 50))
                 (ofZ 300) in
    nodes ++ [mkNode name x y text (styleTypeOf style)]
  else nodes.

(** [nodes.find(n => n.name === wanted)] *)
Definition findNode (nodes : list node) (wanted : jsstr) : option node :=
  find (fun n => eqb (name n) wanted) nodes.

(** The body of the second loop: [connections.push] when both ends are
    found among the nodes. *)
Definition arrowBody (nodes : list node) (connections : list connection)
    (mt : match_result) : list connection :=
  let fromName := capture mt 2 in
  let toName := capture mt 3 in
  match findNode nodes fromName, findNode nodes toName with
  | Some _, Some _ =>
      connections ++
      [mkConnection fromName toName (includes (capture mt 1) (js "dashed"))]
  | _, _ => connections
  end.

(** [parseTikZCode]: the arguments of [setNodes] and [setConnections], or
    [None] when a loop does not end. *)
Definition parseTikZCode (code : jsstr)
  : option (list node * list connection) :=
  match exec_loop nodeRegex code nodeBody (S (length code)) 0 [] with
  | None => None
  | Some nodes =>
      match exec_loop arrowRegex code (arrowBody nodes) (S (length code)) 0 [] with
      | None => None
      | Some connections => Some (nodes, connections)
      end
  end.

(** The argument of [new RegExp] in [updateCodeFromNodes]: the template
    literal with the node's name spliced in as it is. *)
Definition clausePattern (nodeName : jsstr) : jsstr :=
  js "\(" ++ nodeName ++ js "\)\s*at\s*\([^)]+\)".

Definition tikzX (n : node) : jsstr := toFixed2 (div (sub (x n) (ofZ 400)) (ofZ 50)).
Definition tikzY (n : node) : jsstr :=
  toFixed2 (div (neg (sub (y n) (ofZ 300))) (ofZ 50)).

(** The replacement template of [updateCodeFromNodes] for one node. *)
Definition clauseTemplate (n : node) : jsstr :=
  js "(" ++ name n ++ js ") at (" ++ tikzX n ++ js "cm," ++ tikzY n ++ js "cm)".

(** One turn of the [forEach] of [updateCodeFromNodes].  [inr ESyntax] is
    the [SyntaxError] that [new RegExp] throws; [inr EUnsupported] says
    that the name makes a pattern outside the model, which then does not
    say what the program does. *)
Definition rewriteNode (updatedCode : jsstr) (n : node) : jsstr + perr :=
  match compile (clausePattern (name n)) with
  | inl regex => inl (replace regex updatedCode (clauseTemplate n))
  | inr e => inr e
  end.

(** [updateCodeFromNodes], as a function of the [tikzCode] and [nodes] it
    reads: the argument of [setTikzCode]. *)
Fixpoint updateCodeFromNodes (tikzCode : jsstr) (nodes : list node)
  : jsstr + perr :=
  match nodes with
  | [] => inl tikzCode
  | n :: nodes' =>
      match rewriteNode tikzCode n with
      | inl updatedCode => updateCodeFromNodes updatedCode nodes'
      | inr e => inr e
      end
  end.

(** The [data] of a drag event: the offset of the dragged element. *)
Record dragData : Type := mkData { data_x : number; data_y : number }.

(** The updater that [handleNodeDrag] gives to [setNodes]. *)
Definition dragNodes (nodeName : jsstr) (data : dragData)
    (prevNodes : list node) : list node :=
  map (fun n =>
         if eqb (name n) nodeName
         then mkNode (name n) (add (data_x data) (ofZ 400))
                     (add (data_y data) (ofZ 300)) (text n) (styleType n)
         else n)
      prevNodes.

(** *** State and events

    The three pieces of state the functions above read and write.  An
    event handler reads the state of the render it was created in; the
    [set...] calls take effect together afterwards, and then the effect
    on [tikzCode] runs if [tikzCode] has changed. *)
Record state : Type := mkState {
  tikzCode : jsstr;
  nodes : list node;
  connections : list connection
}.

(** [useEffect(() => { parseTikZCode(tikzCode) }, [tikzCode])] *)
Definition commit (before after : state) : option state :=
  if eqb (tikzCode before) (tikzCode after) then Some after
  else
    match parseTikZCode (tikzCode after) with
    | Some (ns, cs) => Some (mkState (tikzCode after) ns cs)
    | None => None
    end.

(** The editor's [onChange={setTikzCode}]. *)
Definition onChange (st : state) (value : jsstr) : option state :=
  commit st (mkState value (nodes st) (connections st)).

(** The state a text is first shown in. *)
Definition opened (code : jsstr) : option state :=
  onChange (mkState [] [] []) code.

(** What an event leaves: the next state, and the exception the handler
    raised, if any ([setNodes] has been called by then, so the drag is in
    the next state all the same). *)
Record outcome : Type := mkOutcome { next : state; raised : option perr }.

(** [handleNodeDrag]: [setNodes] with the updater, then
    [updateCodeFromNodes()], which reads the [nodes] and [tikzCode] of
    this render.  When [new RegExp] throws, [setTikzCode] is not reached:
    the text stays and the drag is in the next state.  [None] is for a
    name whose pattern is outside the modelled grammar ([EUnsupported]):
    there the model does not say which text the handler leaves. *)
Definition handleNodeDrag (st : state) (nodeName : jsstr) (data : dragData)
  : option outcome :=
  let nodes' := dragNodes nodeName data (nodes st) in
  match updateCodeFromNodes (tikzCode st) (nodes st) with
  | inl updatedCode =>
      match commit st (mkState updatedCode nodes' (connections st)) with
      | Some st' => Some (mkOutcome st' None)
      | None => None
      end
  | inr ESyntax =>
      Some (mkOutcome (mkState (tikzCode st) nodes' (connections st))
                      (Some ESyntax))
  | inr EUnsupported => None
  end.

(** The offset that puts a node at canvas pixel [(px, py)]: the node is
    drawn at [position = { x: node.x - 400, y: node.y - 300 }]. *)
Definition dragTo (px py : Z) : dragData :=
  mkData (sub (ofZ px) (ofZ 400)) (sub (ofZ py) (ofZ 300)).

(** *** Vocabulary of the statements below *)

(** A character that stands for itself both in a pattern and in a
    replacement template. *)
Definition plainChar (c : ascii) : bool :=
  negb (existsb (Ascii.eqb c) (js "\^$.*+?()[]{}|")).

Definition plainName (nodeName : jsstr) : bool := forallb plainChar nodeName.

(** What [clausePattern] compiles to when the name is plain: the letters
    of the name between the parentheses, then the rest of the template. *)
Definition clauseTail : list regex :=
  [ lit ")"; RStar true (RSet false [CSpace]); lit "a"; lit "t";
    RStar true (RSet false [CSpace]); lit "(";
    RSeq (RSet true [CChar ")"]) (RStar true (RSet true [CChar ")"]));
    lit ")" ].

(** The same terms as the compiler holds them: last first, each with
    its tag. *)
Definition clauseTailTerms : list (regex * tag) :=
  Eval vm_compute in
    match run (mkP [] (mkFrame None [] []) 0 MNormal)
              (js "\)\s*at\s*\([^)]+\)") with
    | inl st => f_seq (p_cur st)
    | inr _ => []
    end.

(** Reading one plain character of a pattern. *)
Definition push_lit (st : pstate) (c : ascii) : pstate :=
  push_term st (lit c) TAtom.

Definition clauseBody (nodeName : jsstr) : regex :=
  mk_seq (lit "(" :: map lit nodeName ++ clauseTail).

Definition allSpace (w : jsstr) : Prop := Forall (fun c => isWhiteSpace c = true) w.

(** The text that [clausePattern] describes when the name is plain: the
    name in parentheses, [at], and a parenthesised, non-empty text with
    no closing parenthesis in it. *)
Definition isClause (nodeName w : jsstr) : Prop :=
  exists ws1 ws2 coords,
    w = js "(" ++ nodeName ++ js ")" ++ ws1 ++ js "at" ++ ws2
        ++ js "(" ++ coords ++ js ")"
    /\ allSpace ws1 /\ allSpace ws2
    /\ coords <> [] /\ ~ In ")"%char coords.

(** [after] is [before] with some occurrences of a clause of [nodeName],
    left to right and not overlapping, each replaced by [repl]; the text
    between and around them is the same. *)
Inductive clauseRewrite (nodeName repl : jsstr) : jsstr -> jsstr -> Prop :=
| cr_done s :
    clauseRewrite nodeName repl s s
| cr_step pre w rest rest' :
    isClause nodeName w ->
    clauseRewrite nodeName repl rest rest' ->
    clauseRewrite nodeName repl (pre ++ w ++ rest) (pre ++ repl ++ rest').

(** One [clauseRewrite] per node, in the order of the list. *)
Inductive rewrites : list node -> jsstr -> jsstr -> Prop :=
| rw_nil s :
    rewrites [] s s
| rw_cons n ns s s1 s2 :
    clauseRewrite (name n) (clauseTemplate n) s s1 ->
    rewrites ns s1 s2 ->
    rewrites (n :: ns) s s2.

(** [after] is [before] with every clause of [nodeName] replaced by
    [repl]: the clauses are taken from left to right, each the first
    that starts where the one before it has ended or later; the text
    before, between and after them is the same. *)
Inductive clauseRewriteAll (nodeName repl : jsstr) : jsstr -> jsstr -> Prop :=
| cra_none s :
    (forall pre w rest, s = pre ++ w ++ rest -> ~ isClause nodeName w) ->
    clauseRewriteAll nodeName repl s s
| cra_first pre w rest rest' :
    isClause nodeName w ->
    (forall pre1 w1 rest1,
        pre ++ w ++ rest = pre1 ++ w1 ++ rest1 -> isClause nodeName w1 ->
        length pre <= length pre1) ->
    clauseRewriteAll nodeName repl rest rest' ->
    clauseRewriteAll nodeName repl (pre ++ w ++ rest) (pre ++ repl ++ rest').

(** One [clauseRewriteAll] per node, in the order of the list, each on
    the text that the one before it has left. *)
Inductive rewritesAll : list node -> jsstr -> jsstr -> Prop :=
| rwa_nil s :
    rewritesAll [] s s
| rwa_cons n ns s s1 s2 :
    clauseRewriteAll (name n) (clauseTemplate n) s s1 ->
    rewritesAll ns s1 s2 ->
    rewritesAll (n :: ns) s s2.

(** Every clause that [updateCodeFromNodes] would replace for [n] in
    [code] already reads as its replacement. *)
Definition canonicalAt (code : jsstr) (n : node) : bool :=
  match compile (clausePattern (name n)) with
  | inl regex =>
      forallb (fun mt => eqb (matched code mt) (expand code mt (clauseTemplate n)))
              (matchAll regex code)
  | inr _ => false
  end.

(** The matches of the first loop of [parseTikZCode]. *)
Definition nodeMatches (code : jsstr) : option (list match_result) :=
  matchList nodeRegex code (S (length code)) 0.

(** The matches of the second loop. *)
Definition arrowMatches (code : jsstr) : option (list match_result) :=
  matchList arrowRegex code (S (length code)) 0.

(** A match of [nodeRegex] that gives a node. *)
Definition twoCoords (mt : match_result) : bool := length (coordsOf mt) =? 2.

(** A node declaration with an explicit position, as [nodeRegex] reads
    it. *)
Definition nodeDeclaration (style nodeName coords label ws1 ws2 ws3 ws4 : jsstr)
  : jsstr :=
  js "\node[" ++ style ++ js "]" ++ ws1 ++ js "(" ++ nodeName ++ js ")" ++ ws2
  ++ js "at" ++ ws3 ++ js "(" ++ coords ++ js ")" ++ ws4
  ++ js "{" ++ label ++ js "}".

Definition noDollar (s : jsstr) : Prop := Forall (fun c => c <> "$"%char) s.

(** [n.name === nodeName] *)
Definition named (nodeName : jsstr) (n : node) : bool := eqb (name n) nodeName.

(** The unit coordinates that [updateCodeFromNodes] computes for a node,
    before [toFixed]. *)
Definition unitX (n : node) : number := div (sub (x n) (ofZ 400)) (ofZ 50).
Definition unitY (n : node) : number := div (neg (sub (y n) (ofZ 300))) (ofZ 50).

(** *** Texts used as examples *)

(** Two nodes and a connection between them. *)
Definition scenarioText : jsstr :=
  js "\node[cloud] (a) at (-6,3) {AWS};" ++ newline
  ++ js "\node[cloud] (b) at (-1.3,3) {GCP};" ++ newline
  ++ js "\draw[arrow] (a) -- (b);".

(** The same, as [updateCodeFromNodes] writes it from the nodes parsed
    from it. *)
Definition scenarioRewritten : jsstr :=
  js "\node[cloud] (a) at (-6.00cm,3.00cm) {AWS};" ++ newline
  ++ js "\node[cloud] (b) at (-1.30cm,3.00cm) {GCP};" ++ newline
  ++ js "\draw[arrow] (a) -- (b);".

Definition awsText : jsstr := js "\node[cloud] (a) at (-6,3) {AWS};".
Definition awsCanonical : jsstr := js "\node[cloud] (a) at (-6.00cm,3.00cm) {AWS};".
Definition awsDragged : jsstr := js "\node[cloud] (a) at (-5.00cm,3.00cm) {AWS};".

(** The name "n" declared twice. *)
Definition duplicateText : jsstr :=
  js "\node[s] (n) at (0,0) {first};" ++ newline
  ++ js "\node[s] (n) at (5,5) {second};".

(** A connection to a name that no node declares. *)
Definition danglingText : jsstr :=
  js "\node[s] (x) at (0,0) {X};" ++ newline ++ js "\draw[arrow] (x) -- (y);".

(** A name with an opening parenthesis in it. *)
Definition parenText : jsstr := js "\node[s] (a(b) at (1,2) {t};".

(** Two spaces on each side of [at]. *)
Definition spacedText : jsstr := js "\node[s] (a)  at  (1,2) {t};".
Definition spacedRewritten : jsstr := js "\node[s] (a) at (1.00cm,2.00cm) {t};".

(** Both a "cloud" and an "api" marker in the style. *)
Definition cloudApiText : jsstr := js "\node[cloud, api] (g) at (0,0) {G};".

(** One coordinate too many, then a well-formed declaration. *)
Definition threeCoordsText : jsstr :=
  js "\node[s] (p) at (1,2,3) {P};" ++ newline ++ js "\node[s] (q) at (1,2) {Q};".

(** A declaration placed relative to another node, then one with a
    position. *)
Definition relativeText : jsstr :=
  js "\node[cloud, above=of gcp, yshift=0.5cm] (openai) {OpenAI};" ++ newline
  ++ js "\node[cloud] (gcp) at (-1.3,3) {GCP};".

(** The nodes parsed from [scenarioText]. *)
Definition scenarioNodes : list node :=
  Eval vm_compute in
    match parseTikZCode scenarioText with
    | Some (ns, _) => ns
    | None => []
    end.

(** A connection declaration, as [arrowRegex] reads it. *)
Definition arrowDeclaration (style fromName toName ws1 ws2 ws3 : jsstr) : jsstr :=
  js "\draw[" ++ style ++ js "]" ++ ws1 ++ js "(" ++ fromName ++ js ")" ++ ws2
  ++ js "--" ++ ws3 ++ js "(" ++ toName ++ js ")".

(** [w] is a node declaration as [nodeRegex] reads it, with these four
    parts: no closing bracket in the style, a non-empty name and a
    non-empty coordinate text without closing parenthesis, no closing
    brace in the label, and nothing but white space between the parts. *)
Definition isNodeDeclaration (w style nodeName coords label : jsstr) : Prop :=
  exists ws1 ws2 ws3 ws4,
    w = nodeDeclaration style nodeName coords label ws1 ws2 ws3 ws4
    /\ ~ In "]"%char style
    /\ nodeName <> [] /\ ~ In ")"%char nodeName
    /\ coords <> [] /\ ~ In ")"%char coords
    /\ ~ In "}"%char label
    /\ allSpace ws1 /\ allSpace ws2 /\ allSpace ws3 /\ allSpace ws4.

(** [w] is a connection declaration as [arrowRegex] reads it. *)
Definition isArrowDeclaration (w style fromName toName : jsstr) : Prop :=
  exists ws1 ws2 ws3,
    w = arrowDeclaration style fromName toName ws1 ws2 ws3
    /\ ~ In "]"%char style
    /\ fromName <> [] /\ ~ In ")"%char fromName
    /\ toName <> [] /\ ~ In ")"%char toName
    /\ allSpace ws1 /\ allSpace ws2 /\ allSpace ws3.

(** The number of commas in a text. *)
Definition commas (s : jsstr) : nat := count_occ ascii_dec s ","%char.

(** *** Texts made of declarations

    The parts of a node declaration, and of a connection declaration. *)
Record declaration : Type := mkDecl {
  d_style : jsstr; d_name : jsstr; d_coords : jsstr; d_label : jsstr;
  d_ws1 : jsstr; d_ws2 : jsstr; d_ws3 : jsstr; d_ws4 : jsstr
}.

Record arrow : Type := mkArrow {
  a_style : jsstr; a_from : jsstr; a_to : jsstr;
  a_ws1 : jsstr; a_ws2 : jsstr; a_ws3 : jsstr
}.

Definition declText (d : declaration) : jsstr :=
  nodeDeclaration (d_style d) (d_name d) (d_coords d) (d_label d)
                  (d_ws1 d) (d_ws2 d) (d_ws3 d) (d_ws4 d).

Definition arrowText (a : arrow) : jsstr :=
  arrowDeclaration (a_style a) (a_from a) (a_to a) (a_ws1 a) (a_ws2 a) (a_ws3 a).

Definition lacks (c : ascii) (s : jsstr) : bool := negb (existsb (Ascii.eqb c) s).
Definition spaces (s : jsstr) : bool := forallb isWhiteSpace s.
Definition nonempty (s : jsstr) : bool :=
  match s with [] => false | _ :: _ => true end.

(** The parts can be told apart again: no closing bracket in the style,
    a non-empty name and coordinate text without closing parenthesis, no
    closing brace in the label, white space between the parts. *)
Definition wellFormed (d : declaration) : bool :=
  lacks "]" (d_style d)
  && nonempty (d_name d) && lacks ")" (d_name d)
  && nonempty (d_coords d) && lacks ")" (d_coords d)
  && lacks "}" (d_label d)
  && spaces (d_ws1 d) && spaces (d_ws2 d) && spaces (d_ws3 d) && spaces (d_ws4 d).

Definition wellFormedArrow (a : arrow) : bool :=
  lacks "]" (a_style a)
  && nonempty (a_from a) && lacks ")" (a_from a)
  && nonempty (a_to a) && lacks ")" (a_to a)
  && spaces (a_ws1 a) && spaces (a_ws2 a) && spaces (a_ws3 a).

(** A text: declarations, each after some other text, and a last piece of
    other text. *)
Fixpoint document {D : Type} (render : D -> jsstr)
    (items : list (jsstr * D)) (tail : jsstr) : jsstr :=
  match items with
  | [] => tail
  | (before, d) :: items' => before ++ render d ++ document render items' tail
  end.

(** The captures of a match of a declaration. *)
Definition declCaps (d : declaration) : caps :=
  [Some (d_style d); Some (d_name d); Some (d_coords d); Some (d_label d)].

Definition arrowCaps (a : arrow) : caps :=
  [Some (a_style a); Some (a_from a); Some (a_to a)].

(** What the two loop bodies make of a declaration. *)
Definition nodeOfDeclaration (d : declaration) : list node :=
  nodeBody [] (mkMatch 0 0 (declCaps d)).

Definition connectionOfArrow (nodes : list node) (a : arrow) : list connection :=
  arrowBody nodes [] (mkMatch 0 0 (arrowCaps a)).

(** The first character of the text after a repetition of a class is
    outside the class. *)
Definition stopsAt (neg : bool) (items : list citem) (rest : jsstr) : bool :=
  match rest with
  | [] => true
  | ch :: _ => negb (set_mem neg items ch)
  end.

(** [s] and [p] agree as far as both go: a text that starts with [s]
    may start with [p]. *)
Fixpoint compatible (p s : jsstr) : bool :=
  match p, s with
  | [], _ => true
  | _ :: _, [] => true
  | x :: p', y :: s' => Ascii.eqb x y && compatible p' s'
  end.

(** No match can begin in [s], whatever follows [s]; [begins s'] says
    that a text that starts with [s'] may start with a match. *)
Fixpoint avoids (begins : jsstr -> bool) (s : jsstr) : bool :=
  match s with
  | [] => true
  | _ :: s' => negb (begins s) && avoids begins s'
  end.

Definition nodeMarker : jsstr := js "\node[".
Definition arrowMarker : jsstr := js "\draw[".

(** The declarations of a text can be told apart from what is between
    them. *)
Definition placed {D : Type} (begins : jsstr -> bool) (ok : D -> bool)
    (items : list (jsstr * D)) (tail : jsstr) : bool :=
  forallb (fun it => avoids begins (fst it) && ok (snd it)) items
  && avoids begins tail.

(** The clause that [updateCodeFromNodes] looks for, by its parts. *)
Record clause : Type := mkClause {
  c_ws1 : jsstr; c_ws2 : jsstr; c_coords : jsstr
}.

Definition clauseText (nodeName : jsstr) (cl : clause) : jsstr :=
  js "(" ++ nodeName ++ js ")" ++ c_ws1 cl ++ js "at" ++ c_ws2 cl
  ++ js "(" ++ c_coords cl ++ js ")".

Definition wellFormedClause (cl : clause) : bool :=
  spaces (c_ws1 cl) && spaces (c_ws2 cl)
  && nonempty (c_coords cl) && lacks ")" (c_coords cl).

(** [s] against the beginning [p]: they differ, [s] ends first, or [s]
    is [p] and then [rest]. *)
Inductive prefixed : Type :=
| Clash
| Short
| After (rest : jsstr).

Fixpoint strip (p s : jsstr) : prefixed :=
  match p, s with
  | [], _ => After s
  | _ :: _, [] => Short
  | x :: p', y :: s' => if Ascii.eqb x y then strip p' s' else Clash
  end.

(** A text that starts with [s] may start with a clause of [nodeName]:
    [s] goes along with the name in parentheses, [at], an opening
    parenthesis and one character that is no closing parenthesis, as far
    as it goes. *)
Definition mayBegin (nodeName s : jsstr) : bool :=
  match strip (js "(" ++ nodeName ++ js ")") s with
  | Clash => false
  | Short => true
  | After s1 =>
      match strip (js "at") (trimStart s1) with
      | Clash => false
      | Short => true
      | After s2 =>
          match trimStart s2 with
          | [] => true
          | c0 :: s3 =>
              Ascii.eqb c0 "("
              && match s3 with
                 | [] => true
                 | c1 :: _ => negb (Ascii.eqb c1 ")")
                 end
          end
      end
  end.

(** The matches of the declarations of a text that starts at index [i]. *)
Fixpoint documentMatches {D : Type} (render : D -> jsstr) (capsOf : D -> caps)
    (i : nat) (items : list (jsstr * D)) : list match_result :=
  match items with
  | [] => []
  | (before, d) :: items' =>
      let start := i + length before in
      let stop := start + length (render d) in
      mkMatch start stop (capsOf d) :: documentMatches render capsOf stop items'
  end.

(** [scenarioText] by its node declarations, and by its connection. *)
Definition scenarioItems : list (jsstr * declaration) :=
  [ ([], mkDecl (js "cloud") (js "a") (js "-6,3") (js "AWS")
                (js " ") (js " ") (js " ") (js " "));
    (js ";" ++ newline,
     mkDecl (js "cloud") (js "b") (js "-1.3,3") (js "GCP")
            (js " ") (js " ") (js " ") (js " ")) ].

Definition scenarioTail : jsstr := js ";" ++ newline ++ js "\draw[arrow] (a) -- (b);".

Definition scenarioArrows : list (jsstr * arrow) :=
  [ (js "\node[cloud] (a) at (-6,3) {AWS};" ++ newline
     ++ js "\node[cloud] (b) at (-1.3,3) {GCP};" ++ newline,
     mkArrow (js "arrow") (js "a") (js "b") (js " ") (js " ") (js " ")) ].

(** [scenarioText] by the one clause of the name "a". *)
Definition scenarioClauses : list (jsstr * clause) :=
  [ (js "\node[cloud] ", mkClause (js " ") (js " ") (js "-6,3")) ].

Definition scenarioAfterClause : jsstr :=
  js " {AWS};" ++ newline
  ++ js "\node[cloud] (b) at (-1.3,3) {GCP};" ++ newline
  ++ js "\draw[arrow] (a) -- (b);".

(** *** Positions at whole pixels

    The text of a number as [toFixed] writes it in the range of the
    canvas: digits, a sign, a point. *)
Definition numericChar (c : ascii) : bool :=
  isDigit c || Ascii.eqb c "-" || Ascii.eqb c ".".

Definition numeric (s : jsstr) : bool := nonempty s && forallb numericChar s.

(** The position that the first loop of [parseTikZCode] computes from
    the two coordinate texts. *)
Definition readX (t : jsstr) : number :=
  add (mul (parseFloat (trim t)) (ofZ 50)) (ofZ 400).
Definition readY (t : jsstr) : number :=
  add (mul (neg (parseFloat (trim t))) (ofZ 50)) (ofZ 300).

Definition nodeAt (px py : number) : node := mkNode [] px py [] rectangle.

(** What is written for the pixel [p] is read back as a position for
    which the same is written. *)
Definition stableX (p : Z) : bool :=
  let t := tikzX (nodeAt (ofZ p) (ofZ 0)) in
  numeric t && eqb (tikzX (nodeAt (readX t) (ofZ 0))) t.

Definition stableY (p : Z) : bool :=
  let t := tikzY (nodeAt (ofZ 0) (ofZ p)) in
  numeric t && eqb (tikzY (nodeAt (ofZ 0) (readY t))) t.

(** The [n] integers from [lo] on. *)
Fixpoint upto (n : nat) (lo : Z) : list Z :=
  match n with
  | O => []
  | S n' => lo :: upto n' (lo + 1)
  end.

(** The clause as [updateCodeFromNodes] writes it for a node. *)
Definition canonicalClause (n : node) : clause :=
  mkClause (js " ") (js " ") (tikzX n ++ js "cm," ++ tikzY n ++ js "cm").

(** The characters that [toFixed] writes. *)
Definition numberAlphabet : jsstr := js "0123456789-.e+NaInfity".

(** [duplicateText] by its two clauses of the name "n". *)
Definition duplicateClauses : list (jsstr * clause) :=
  [ (js "\node[s] ", mkClause (js " ") (js " ") (js "0,0"));
    (js " {first};" ++ newline ++ js "\node[s] ",
     mkClause (js " ") (js " ") (js "5,5")) ].

Definition duplicateNodes : list node :=
  [ mkNode (js "n") (ofZ 400) (ofZ 300) (js "first") rectangle;
    mkNode (js "n") (ofZ 650) (ofZ 50) (js "second") rectangle ].

(** *** Labels

    The marker of a line break in a label. *)
Definition breakMarker : jsstr := js "\\".

(** The declaration of the first node of [loadExample]. *)
Definition awsLine : jsstr :=
  js "\node[cloud] (aws) at (-6,3) {\textbf{AWS}\\small EC2 GPU};".

(** The [position] that the component gives to the [Draggable] of a
    node. *)
Definition position (n : node) : dragData :=
  mkData (sub (x n) (ofZ 400)) (sub (y n) (ofZ 300)).

(** The same number, bit for bit. *)
Definition identical (a b : number) : bool :=
  match a, b with
  | S754_zero s, S754_zero s' => Bool.eqb s s'
  | S754_infinity s, S754_infinity s' => Bool.eqb s s'
  | S754_nan, S754_nan => true
  | S754_finite s m e, S754_finite s' m' e' =>
      Bool.eqb s s' && Pos.eqb m m' && Z.eqb e e'
  | _, _ => false
  end.

(** The offsets of [position] and of [handleNodeDrag] undo each other at
    the pixel [p]. *)
Definition offsetsUndo (p : Z) : bool :=
  identical (add (sub (ofZ p) (ofZ 400)) (ofZ 400)) (ofZ p)
  && identical (add (sub (ofZ p) (ofZ 300)) (ofZ 300)) (ofZ p).

(** *** The canvas

    What the component draws from [nodes] and [connections]. *)

(** A [<line>] of the connections layer. *)
Record line : Type := mkLine {
  x1 : number; y1 : number; x2 : number; y2 : number;
  stroke : jsstr;
  strokeDasharray : jsstr
}.

(** The body of [connections.map]: [None] is the [null] returned when an
    end is not found. *)
Definition connectionLine (nodes : list node) (conn : connection) : option line :=
  match findNode nodes (from conn), findNode nodes (to conn) with
  | Some fromNode, Some toNode =>
      Some (mkLine (x fromNode) (y fromNode) (x toNode) (y toNode)
                   (if dashed conn then js "#999" else js "#666")
                   (if dashed conn then js "5,5" else js "0"))
  | _, _ => None
  end.

(** [node.text.split('\n')]: the lines of a node's label. *)
Definition labelLines (n : node) : list jsstr := split "010" (text n).

(** [Array.prototype.join] with a one-character separator. *)
Fixpoint join (sep : ascii) (pieces : list jsstr) : jsstr :=
  match pieces with
  | [] => []
  | [p] => p
  | p :: pieces' => p ++ sep :: join sep pieces'
  end.

(** The states the component goes through: it starts with an empty text
    and no nodes; the text is set (by loading or typing) and nodes are
    dragged.  Where a name makes a pattern outside the modelled grammar,
    the text that the rewriter leaves is not known: the drag may then
    leave any text (the text itself, when [new RegExp] throws). *)
Inductive reachable : state -> Prop :=
| reach_init :
    reachable (mkState [] [] [])
| reach_change st value st' :
    reachable st -> onChange st value = Some st' -> reachable st'
| reach_drag st nodeName data o :
    reachable st -> handleNodeDrag st nodeName data = Some o ->
    reachable (next o)
| reach_outside st nodeName data updatedCode st' :
    reachable st ->
    updateCodeFromNodes (tikzCode st) (nodes st) = inr EUnsupported ->
    commit st (mkState updatedCode (dragNodes nodeName data (nodes st))
                       (connections st)) = Some st' ->
    reachable st'.

(** Two nodes that differ in position at most. *)
Definition sameButPosition (n n' : node) : Prop :=
  name n = name n' /\ text n = text n' /\ styleType n = styleType n'.

(** The state after [scenarioText] is shown and "a" is dragged to pixel
    (150,150). *)
Definition scenarioDraggedState : state :=
  Eval vm_compute in
    match opened scenarioText with
    | Some st =>
        match handleNodeDrag st (js "a") (dragTo 150 150) with
        | Some o => next o
        | None => st
        end
    | None => mkState [] [] []
    end.

End TikZEditor.

(* ================================================================== *)
(** * Properties *)

Import RegExp Number TikZEditor.

(** ** The library functions on known values *)

Example compile_unterminated_group :
  compile (js "\(a(b\)") = inr ESyntax.
Proof. reflexivity. Qed.

Example compile_nothing_to_repeat :
  compile (js "a**") = inr ESyntax /\ compile (js "*a") = inr ESyntax.
Proof. split; reflexivity. Qed.

Example compile_class_swallows_template :
  compile (clausePattern (js "a[b"))
  = inl (mkRe (mk_seq [lit "("; lit "a";
                       mk_quant QPlus true
                         (RSet false [CChar "b"; CChar ")"; CSpace; CChar "*";
                                      CChar "a"; CChar "t"; CSpace; CChar "*";
                                      CChar "("; CChar "["; CChar "^"; CChar ")"]);
                       lit ")"]) 0).
Proof. reflexivity. Qed.

Example literals_compile :
  compile (js "\\node\[([^\]]*)\]\s*\(([^)]+)\)\s*at\s*\(([^)]+)\)\s*\{([^}]*)\}")
  = inl nodeRegex
  /\ compile (js "\\draw\[([^\]]*)\]\s*\(([^)]+)\)\s*--\s*\(([^)]+)\)")
     = inl arrowRegex
  /\ compile (js "cm") = inl cmRegex
  /\ compile (js "\\textbf\{([^}]+)\}") = inl textbfRegex
  /\ compile (js "\\\\") = inl backslashesRegex.
Proof. repeat split; reflexivity. Qed.

Example replace_empty_matches :
  replace (literal "a*") (js "baac") (js "-") = js "-b--c-".
Proof. reflexivity. Qed.

Example replace_references :
  replace (literal "(a)|b") (js "abc") (js "[$1$2$01$&$$$x]")
  = js "[a$2aa$$x][$2b$$x]c".
Proof. reflexivity. Qed.

Example replace_resets_captures :
  replace (literal "(?:(a)|b)+") (js "xabx") (js "<$1>") = js "x<>x".
Proof. reflexivity. Qed.

Example replace_textbf :
  replace textbfRegex (js "\textbf{AWS}\\small EC2") (js "$1")
  = js "AWS\\small EC2".
Proof. reflexivity. Qed.

Example split_trim :
  split "," (trim (js "  -1.3 , 3 ")) = [js "-1.3 "; js " 3"]
  /\ split "," [] = [[]].
Proof. split; reflexivity. Qed.

Example parseFloat_values :
  parseFloat (js "0.1") = S754_finite false 7205759403792794 (-56)
  /\ parseFloat (js "-1.3") = S754_finite true 5854679515581645 (-52)
  /\ parseFloat (js " 1e3x") = ofZ 1000
  /\ parseFloat (js "5.") = ofZ 5
  /\ parseFloat (js "9007199254740993") = ofZ 9007199254740992
  /\ parseFloat (js "x") = S754_nan
  /\ parseFloat (js "-0") = S754_zero true
  /\ parseFloat (js "1e400") = S754_infinity false
  /\ parseFloat (js "-Infinity") = S754_infinity true.
Proof. repeat split; vm_compute; reflexivity. Qed.

Example toFixed2_values :
  toFixed2 (parseFloat (js "1.005")) = js "1.00"
  /\ toFixed2 (parseFloat (js "0.005")) = js "0.01"
  /\ toFixed2 (parseFloat (js "-1.3")) = js "-1.30"
  /\ toFixed2 (parseFloat (js "-0.001")) = js "-0.00"
  /\ toFixed2 (parseFloat (js "-0")) = js "0.00"
  /\ toFixed2 (parseFloat (js "123456789.125")) = js "123456789.13"
  /\ toFixed2 (parseFloat (js "999999999999999900000"))
     = js "999999999999999868928.00"
  /\ toFixed2 (parseFloat (js "1e21")) = js "1e+21"
  /\ toFixed2 (parseFloat (js "1e23")) = js "1e+23"
  /\ toFixed2 (parseFloat (js "-1180591620717411303424"))
     = js "-1.1805916207174113e+21"
  /\ toFixed2 (parseFloat (js "x")) = js "NaN".
Proof. repeat split; vm_compute; reflexivity. Qed.

Example arithmetic_of_the_scenario :
  add (mul (parseFloat (js "-1.3")) (ofZ 50)) (ofZ 400) = ofZ 335
  /\ add (mul (neg (parseFloat (js "3"))) (ofZ 50)) (ofZ 300) = ofZ 150
  /\ div (sub (ofZ 335) (ofZ 400)) (ofZ 50) = parseFloat (js "-1.3").
Proof. repeat split; vm_compute; reflexivity. Qed.

(** ** Strings *)

Lemma eqb_eq (a b : jsstr) : eqb a b = true <-> a = b.
Proof.
  revert b; induction a as [|x a IH]; intros [|y b]; simpl; split;
    try congruence; try reflexivity.
  - intros H; apply andb_true_iff in H as [Hx Hab].
    apply Ascii.eqb_eq in Hx; apply IH in Hab; congruence.
  - intros H; injection H as -> ->.
    apply andb_true_iff; split; [apply Ascii.eqb_refl | now apply IH].
Qed.

Lemma eqb_refl (a : jsstr) : eqb a a = true.
Proof. now apply eqb_eq. Qed.

Lemma eqb_neq (a b : jsstr) : eqb a b = false <-> a <> b.
Proof.
  split.
  - intros H E; apply eqb_eq in E; congruence.
  - intros H; destruct (eqb a b) eqn:E; [apply eqb_eq in E; contradiction | reflexivity].
Qed.

(** ** The matcher finds only what the pattern describes *)

Section MatcherSound.

Variable R : Type.

Lemma star_loop_sound (g : bool) (r : regex)
    (IH : forall i s c (k : cont R) res,
        m r i s c k = Some res ->
        exists w rest c', s = w ++ rest /\ sem r i w rest c c'
                          /\ k (i + length w) rest c' = Some res) :
  forall fuel i s c (k : cont R) res,
    star_loop (fun i s c k => m r i s (clear (groups r) c) k) g fuel i s c k
      = Some res ->
    exists w rest c', s = w ++ rest /\ sem (RStar g r) i w rest c c'
                      /\ k (i + length w) rest c' = Some res.
Proof.
  induction fuel as [|fuel IHf]; intros i s c k res H; simpl in H; [discriminate|].
  assert (Hnil : k i s c = Some res ->
                 exists w rest c', s = w ++ rest /\ sem (RStar g r) i w rest c c'
                                   /\ k (i + length w) rest c' = Some res).
  { intros Hk. exists [], s, c. simpl. rewrite Nat.add_0_r.
    repeat split; [constructor | assumption]. }
  assert (Hiter :
    m r i s (clear (groups r) c)
      (fun i' s' c' =>
         if i' =? i then None
         else star_loop (fun i s c k => m r i s (clear (groups r) c) k)
                        g fuel i' s' c' k) = Some res ->
    exists w rest c', s = w ++ rest /\ sem (RStar g r) i w rest c c'
                      /\ k (i + length w) rest c' = Some res).
  { intros Hm. apply IH in Hm as (w1 & rest1 & c1 & -> & Hsem & Hk).
    destruct (i + length w1 =? i) eqn:E; [discriminate|].
    apply Nat.eqb_neq in E.
    apply IHf in Hk as (w2 & rest & c2 & -> & Hstar & Hk).
    exists (w1 ++ w2), rest, c2. rewrite <- app_assoc, length_app, Nat.add_assoc.
    repeat split; [|assumption].
    econstructor; eauto. intros ->; simpl in E; lia. }
  destruct g.
  - destruct (m r i s (clear (groups r) c) _) eqn:E.
    + injection H as <-. now apply Hiter.
    + now apply Hnil.
  - destruct (k i s c) eqn:E.
    + injection H as <-. now apply Hnil.
    + now apply Hiter.
Qed.

Lemma m_sound (r : regex) :
  forall i s c (k : cont R) res,
    m r i s c k = Some res ->
    exists w rest c', s = w ++ rest /\ sem r i w rest c c'
                      /\ k (i + length w) rest c' = Some res.
Proof.
  induction r as [| neg items | | | r1 IH1 r2 IH2 | r1 IH1 r2 IH2
                  | g r IH | g r IH | n r IH];
    intros i s c k res H; cbn [m] in H.
  - exists [], s, c; simpl; rewrite Nat.add_0_r.
    repeat split; [constructor | assumption].
  - destruct s as [|ch s']; [discriminate|].
    destruct (set_mem neg items ch) eqn:E; [|discriminate].
    exists [ch], s', c; simpl; rewrite Nat.add_1_r.
    repeat split; [now constructor | assumption].
  - destruct (i =? 0) eqn:E; [|discriminate].
    apply Nat.eqb_eq in E; subst i.
    exists [], s, c; simpl. repeat split; [constructor | assumption].
  - destruct s; [|discriminate].
    exists [], [], c; simpl; rewrite Nat.add_0_r.
    repeat split; [constructor | assumption].
  - apply IH1 in H as (w1 & rest1 & c1 & -> & H1 & H).
    apply IH2 in H as (w2 & rest & c2 & -> & H2 & H).
    exists (w1 ++ w2), rest, c2.
    rewrite <- app_assoc, length_app, Nat.add_assoc.
    repeat split; [|assumption]. econstructor; eauto.
  - destruct (m r1 i s c k) eqn:E.
    + injection H as <-. apply IH1 in E as (w & rest & c' & -> & H1 & H).
      exists w, rest, c'. repeat split; [now apply sem_alt_l | assumption].
    + apply IH2 in H as (w & rest & c' & -> & H2 & H).
      exists w, rest, c'. repeat split; [now apply sem_alt_r | assumption].
  - eapply star_loop_sound; eauto.
  - assert (Hnil : k i s c = Some res ->
                   exists w rest c', s = w ++ rest /\ sem (ROpt g r) i w rest c c'
                                     /\ k (i + length w) rest c' = Some res).
    { intros Hk. exists [], s, c. simpl. rewrite Nat.add_0_r.
      repeat split; [constructor | assumption]. }
    assert (Hiter :
      m r i s (clear (groups r) c)
        (fun i' s' c' => if i' =? i then None else k i' s' c') = Some res ->
      exists w rest c', s = w ++ rest /\ sem (ROpt g r) i w rest c c'
                        /\ k (i + length w) rest c' = Some res).
    { intros Hm. apply IH in Hm as (w & rest & c' & -> & Hsem & Hk).
      destruct (i + length w =? i) eqn:E; [discriminate|].
      apply Nat.eqb_neq in E.
      exists w, rest, c'. repeat split; [|assumption].
      apply sem_opt_some; [|assumption]. intros ->; simpl in E; lia. }
    destruct g.
    + destruct (m r i s (clear (groups r) c) _) eqn:E.
      * injection H as <-. now apply Hiter.
      * now apply Hnil.
    + destruct (k i s c) eqn:E.
      * injection H as <-. now apply Hnil.
      * now apply Hiter.
  - apply IH in H as (w & rest & c' & -> & Hsem & H).
    exists w, rest, (set_cap (n - 1) (Some w) c').
    repeat split; [now constructor|].
    replace (i + length w - i) with (length w) in H by lia.
    now rewrite firstn_app, firstn_all, Nat.sub_diag, firstn_0, app_nil_r in H.
Qed.

End MatcherSound.

(** A match found by [search] starts at or after the index given, lies
    within the text, and is described by the pattern. *)
Lemma search_sound (re : compiled) :
  forall s i mt,
    search re i s = Some mt ->
    exists pre w rest,
      s = pre ++ w ++ rest
      /\ m_index mt = i + length pre
      /\ m_end mt = m_index mt + length w
      /\ sem (re_body re) (m_index mt) w rest
             (repeat None (re_ngroups re)) (m_caps mt).
Proof.
  induction s as [|ch s IH]; intros i mt H; simpl in H.
  - destruct (m _ _ _ _ _) eqn:E; [|discriminate].
    injection H as ->.
    apply m_sound in E as (w & rest & c' & Hs & Hsem & Hk).
    injection Hk as <-. exists [], w, rest; simpl.
    rewrite Nat.add_0_r. auto.
  - destruct (m _ _ _ _ _) eqn:E.
    + injection H as ->.
      apply m_sound in E as (w & rest & c' & Hs & Hsem & Hk).
      injection Hk as <-. exists [], w, rest; simpl.
      rewrite Nat.add_0_r. auto.
    + apply IH in H as (pre & w & rest & -> & Hi & He & Hsem).
      exists (ch :: pre), w, rest; simpl.
      repeat split; auto; lia.
Qed.

(** ** The fuel of the loops is never the limit *)

Section MatcherFuel.

Variable R : Type.

Lemma agree_further i s i' s' (k1 k2 : cont R) :
  agree i s k1 k2 ->
  length s' <= length s -> i' + length s' = i + length s ->
  agree i' s' k1 k2.
Proof. intros H Hle Hsum i'' s'' c'' Hle' Hsum'. apply H; lia. Qed.

Lemma star_loop_ext (g : bool) (body : nat -> jsstr -> caps -> cont R -> option R)
    (Hbody : forall i s c k1 k2, agree i s k1 k2 -> body i s c k1 = body i s c k2) :
  forall fuel i s c k1 k2,
    agree i s k1 k2 ->
    star_loop body g fuel i s c k1 = star_loop body g fuel i s c k2.
Proof.
  induction fuel as [|fuel IH]; intros i s c k1 k2 Hk; [reflexivity|].
  cbn [star_loop].
  rewrite (Hk i s c) by lia.
  rewrite (Hbody i s c _
             (fun i' s' c' =>
                if i' =? i then None else star_loop body g fuel i' s' c' k2)).
  - reflexivity.
  - intros i' s' c' Hle Hsum. destruct (i' =? i); [reflexivity|].
    apply IH. eapply agree_further; eauto.
Qed.

(** A matcher looks at its continuation only further in the text. *)
Lemma m_ext (r : regex) :
  forall i s c (k1 k2 : cont R),
    agree i s k1 k2 -> m r i s c k1 = m r i s c k2.
Proof.
  induction r as [| neg items | | | r1 IH1 r2 IH2 | r1 IH1 r2 IH2
                  | g r IH | g r IH | n r IH];
    intros i s c k1 k2 Hk; cbn [m].
  - apply Hk; lia.
  - destruct s as [|ch s']; [reflexivity|].
    destruct (set_mem neg items ch); [|reflexivity].
    apply Hk; simpl; lia.
  - destruct (i =? 0); [apply Hk; lia | reflexivity].
  - destruct s; [apply Hk; lia | reflexivity].
  - apply IH1. intros i' s' c' Hle Hsum. apply IH2.
    eapply agree_further; eauto.
  - now rewrite (IH1 i s c k1 k2), (IH2 i s c k1 k2).
  - apply star_loop_ext; [|assumption].
    intros i0 s0 c0 k1' k2' H. now apply IH.
  - rewrite (Hk i s c) by lia.
    rewrite (IH i s (clear (groups r) c) _
               (fun i' s' c' => if i' =? i then None else k2 i' s' c')).
    + reflexivity.
    + intros i' s' c' Hle Hsum. destruct (i' =? i); [reflexivity|].
      now apply Hk.
  - apply IH. intros i' s' c' Hle Hsum. now rewrite (Hk i' s') by assumption.
Qed.

(** A repetition gives the same result with any fuel above the length of
    the text left: the fuel [S (length s)] that [m] gives it is never
    used up. *)
Lemma star_loop_fuel (g : bool) (r : regex) :
  forall fuel1 fuel2 i s c (k : cont R),
    length s < fuel1 -> length s < fuel2 ->
    star_loop (fun i s c k => m r i s (clear (groups r) c) k) g fuel1 i s c k
    = star_loop (fun i s c k => m r i s (clear (groups r) c) k) g fuel2 i s c k.
Proof.
  induction fuel1 as [|fuel1 IH]; intros fuel2 i s c k H1 H2; [lia|].
  destruct fuel2 as [|fuel2]; [lia|]. cbn [star_loop].
  rewrite (m_ext r (i := i) (s := s) (clear (groups r) c)
             (k1 := fun i' s' c' =>
                if i' =? i then None
                else star_loop (fun i s c k => m r i s (clear (groups r) c) k)
                               g fuel1 i' s' c' k)
             (k2 := fun i' s' c' =>
                if i' =? i then None
                else star_loop (fun i s c k => m r i s (clear (groups r) c) k)
                               g fuel2 i' s' c' k)).
  - reflexivity.
  - intros i' s' c' Hle Hsum. destruct (i' =? i) eqn:E; [reflexivity|].
    apply Nat.eqb_neq in E. apply IH; lia.
Qed.

End MatcherFuel.

(** [replace] gives the same result with any fuel above the length of
    the text left. *)
Lemma replace_from_fuel re str template :
  forall fuel1 fuel2 i s,
    length s < fuel1 -> length s < fuel2 ->
    replace_from re str template fuel1 i s
    = replace_from re str template fuel2 i s.
Proof.
  induction fuel1 as [|fuel1 IH]; intros fuel2 i s H1 H2; [lia|].
  destruct fuel2 as [|fuel2]; [lia|]. cbn [replace_from].
  destruct (search re i s) as [mt|] eqn:E; [|reflexivity].
  apply search_sound in E as (pre & w & rest & Hs & Hi & He & _).
  assert (Hrest : skipn (m_end mt - i) s = rest).
  { rewrite Hs, app_assoc.
    rewrite skipn_app, skipn_all2 by (rewrite length_app; lia).
    replace (m_end mt - i - length (pre ++ w)) with 0
      by (rewrite length_app; lia).
    reflexivity. }
  assert (Hlen : length s = length pre + (length w + length rest))
    by (rewrite Hs, !length_app; reflexivity).
  rewrite Hrest.
  destruct (m_end mt =? m_index mt) eqn:Eq.
  - destruct rest as [|ch rest']; [reflexivity|].
    simpl in Hlen. do 2 f_equal. apply IH; lia.
  - apply Nat.eqb_neq in Eq. f_equal. apply IH; lia.
Qed.

(** ** Reading [sem] backwards *)

Lemma sem_seq_inv r1 r2 i w rest c c' :
  sem (RSeq r1 r2) i w rest c c' ->
  exists w1 w2 c1,
    w = w1 ++ w2 /\ sem r1 i w1 (w2 ++ rest) c c1
    /\ sem r2 (i + length w1) w2 rest c1 c'.
Proof. inversion 1; subst; eauto 7. Qed.

Lemma sem_set_inv neg items i w rest c c' :
  sem (RSet neg items) i w rest c c' ->
  exists ch, w = [ch] /\ set_mem neg items ch = true /\ c' = c.
Proof. inversion 1; subst; eauto. Qed.

Lemma sem_lit_inv ch i w rest c c' :
  sem (lit ch) i w rest c c' -> w = [ch] /\ c' = c.
Proof.
  intros H; apply sem_set_inv in H as (x & -> & Hm & ->).
  unfold set_mem in Hm; simpl in Hm.
  rewrite orb_false_r in Hm. apply Ascii.eqb_eq in Hm. now subst.
Qed.

Lemma sem_group_inv k r i w rest c c' :
  sem (RGroup k r) i w rest c c' ->
  exists c1, sem r i w rest c c1 /\ c' = set_cap (k - 1) (Some w) c1.
Proof. inversion 1; subst; eauto. Qed.

Lemma sem_star_set_inv g neg items i w rest c c' :
  sem (RStar g (RSet neg items)) i w rest c c' ->
  Forall (fun ch => set_mem neg items ch = true) w /\ c' = c.
Proof.
  remember (RStar g (RSet neg items)) as r eqn:Er.
  induction 1; try discriminate.
  - auto.
  - injection Er as -> ->.
    match goal with
    | H : sem (RSet _ _) _ _ _ _ _ |- _ =>
        apply sem_set_inv in H as (ch & -> & Hm & ->)
    end.
    destruct IHsem2 as [Hall ->]; [reflexivity|].
    split; [now constructor | reflexivity].
Qed.

Lemma not_in_of_negated (x : ascii) (w : jsstr) :
  Forall (fun ch => set_mem true [CChar x] ch = true) w -> ~ In x w.
Proof.
  induction 1 as [|ch w Hm _ IH]; simpl; [tauto|].
  intros [->|Hin]; [|tauto].
  unfold set_mem in Hm; simpl in Hm. now rewrite Ascii.eqb_refl in Hm.
Qed.

Lemma neq_of_negated (x ch : ascii) :
  set_mem true [CChar x] ch = true -> x <> ch.
Proof.
  unfold set_mem; simpl; intros Hm ->. now rewrite Ascii.eqb_refl in Hm.
Qed.

Lemma allSpace_of_class (w : jsstr) :
  Forall (fun ch => set_mem false [CSpace] ch = true) w -> allSpace w.
Proof.
  unfold allSpace; apply Forall_impl; intros ch Hm.
  unfold set_mem in Hm; simpl in Hm. now rewrite orb_false_r in Hm.
Qed.

(** Peels a [sem] hypothesis on a concrete pattern down to its letters,
    classes and repetitions of classes. *)
Ltac sem_peel :=
  repeat match goal with
    | H : sem (RSeq _ _) _ _ _ _ _ |- _ =>
        apply sem_seq_inv in H as (? & ? & ? & ? & ? & H); subst
    | H : sem (RGroup _ _) _ _ _ _ _ |- _ =>
        apply sem_group_inv in H as (? & H & ?); subst
    | H : sem (RSet false [CChar _]) _ _ _ _ _ |- _ =>
        apply sem_lit_inv in H as (? & ?); subst
    | H : sem (lit _) _ _ _ _ _ |- _ =>
        apply sem_lit_inv in H as (? & ?); subst
    | H : sem (RStar _ (RSet _ _)) _ _ _ _ _ |- _ =>
        apply sem_star_set_inv in H as (H & ?); subst
    | H : sem (RSet _ _) _ _ _ _ _ |- _ =>
        apply sem_set_inv in H as (? & ? & H & ?); subst
    end.

(** What [nodeRegex] matches, and what its four groups capture. *)
Lemma nodeRegex_sem i w rest c c' :
  sem (re_body nodeRegex) i w rest c c' ->
  exists style nodeName coords label ws1 ws2 ws3 ws4,
    w = nodeDeclaration style nodeName coords label ws1 ws2 ws3 ws4
    /\ ~ In "]"%char style
    /\ nodeName <> [] /\ ~ In ")"%char nodeName
    /\ coords <> [] /\ ~ In ")"%char coords
    /\ ~ In "}"%char label
    /\ allSpace ws1 /\ allSpace ws2 /\ allSpace ws3 /\ allSpace ws4
    /\ c' = set_cap 3 (Some label)
              (set_cap 2 (Some coords)
                 (set_cap 1 (Some nodeName) (set_cap 0 (Some style) c))).
Proof.
  unfold nodeRegex; cbn [re_body]; intros H.
  sem_peel.
  repeat match goal with
    | H : Forall (fun ch => set_mem true [CChar _] ch = true) _ |- _ =>
        apply not_in_of_negated in H
    | H : Forall (fun ch => set_mem false [CSpace] ch = true) _ |- _ =>
        apply allSpace_of_class in H
    | H : set_mem true [CChar _] _ = true |- _ =>
        apply neq_of_negated in H
    end.
  match goal with
  | |- exists _ _ _ _ _ _ _ _,
        (_ ++ _ ++ _ ++ _ ++ _ ++ _ ++ ?st ++ _ ++ ?w1 ++ _ ++ (?a ++ ?n) ++ _
         ++ ?w2 ++ _ ++ _ ++ ?w3 ++ _ ++ (?b ++ ?co) ++ _ ++ ?w4 ++ _ ++ ?la ++ _)
        = _ /\ _ =>
      exists st, (a ++ n), (b ++ co), la, w1, w2, w3, w4
  end.
  repeat match goal with |- _ /\ _ => split end;
    try assumption; try reflexivity; try discriminate;
    (intros [Hin|Hin]; [congruence | tauto]).
Qed.

Lemma nodeRegex_nonempty i w rest c c' :
  sem (re_body nodeRegex) i w rest c c' -> w <> [].
Proof.
  intros H; apply nodeRegex_sem in H as (? & ? & ? & ? & ? & ? & ? & ? & -> & _).
  discriminate.
Qed.

Lemma arrowRegex_nonempty i w rest c c' :
  sem (re_body arrowRegex) i w rest c c' -> w <> [].
Proof.
  unfold arrowRegex; cbn [re_body]; intros H.
  apply sem_seq_inv in H as (w1 & w2 & c1 & -> & H & _).
  apply sem_lit_inv in H as (-> & _). discriminate.
Qed.

(** ** The loops over the matches *)

Lemma exec_sound re str lastIndex mt :
  exec re str lastIndex = Some mt ->
  exists pre w rest,
    str = pre ++ w ++ rest
    /\ m_index mt = length pre
    /\ lastIndex <= m_index mt
    /\ m_end mt = m_index mt + length w
    /\ sem (re_body re) (m_index mt) w rest
           (repeat None (re_ngroups re)) (m_caps mt).
Proof.
  unfold exec; intros H.
  destruct (length str <? lastIndex) eqn:E; [discriminate|].
  apply Nat.ltb_ge in E.
  apply search_sound in H as (pre & w & rest & Hs & Hi & He & Hsem).
  exists (firstn lastIndex str ++ pre), w, rest.
  rewrite <- app_assoc, <- Hs, firstn_skipn, length_app, length_firstn.
  rewrite Nat.min_l by assumption.
  repeat split; auto; lia.
Qed.

Lemma exec_loop_matchList {A : Type} re str (body : A -> match_result -> A) :
  forall fuel lastIndex acc,
    exec_loop re str body fuel lastIndex acc
    = option_map (fun l => fold_left body l acc) (matchList re str fuel lastIndex).
Proof.
  induction fuel as [|fuel IH]; intros lastIndex acc; simpl; [reflexivity|].
  destruct (exec re str lastIndex) as [mt|]; [|reflexivity].
  destruct (m_end mt =? m_index mt); [reflexivity|].
  rewrite IH. now destruct (matchList re str fuel (m_end mt)).
Qed.

(** When the pattern matches no empty text the loop ends, within the
    fuel [S (length str)]. *)
Lemma matchList_total re str
    (Hne : forall i w rest c c', sem (re_body re) i w rest c c' -> w <> []) :
  forall fuel lastIndex,
    lastIndex <= length str -> length str < fuel + lastIndex ->
    exists l, matchList re str fuel lastIndex = Some l.
Proof.
  induction fuel as [|fuel IH]; intros lastIndex Hle Hlt; [simpl in Hlt; lia|].
  simpl. destruct (exec re str lastIndex) as [mt|] eqn:E; [|eauto].
  apply exec_sound in E as (pre & w & rest & Hs & Hi & Hli & He & Hsem).
  apply Hne in Hsem.
  assert (length w <> 0) by (destruct w; simpl; congruence).
  assert (Hlen : length str = length pre + (length w + length rest))
    by (rewrite Hs, !length_app; reflexivity).
  destruct (m_end mt =? m_index mt) eqn:E; [apply Nat.eqb_eq in E; lia|].
  destruct (IH (m_end mt)) as [l ->]; [lia | lia |]. simpl; eauto.
Qed.

(** Every match of the list lies in the text and is described by the
    pattern. *)
Lemma matchList_sound re str :
  forall fuel lastIndex l,
    matchList re str fuel lastIndex = Some l ->
    forall mt, In mt l ->
      exists pre w rest,
        str = pre ++ w ++ rest
        /\ m_index mt = length pre
        /\ m_end mt = m_index mt + length w
        /\ sem (re_body re) (m_index mt) w rest
               (repeat None (re_ngroups re)) (m_caps mt).
Proof.
  induction fuel as [|fuel IH]; intros lastIndex l H mt Hin; simpl in H;
    [discriminate|].
  destruct (exec re str lastIndex) as [mt0|] eqn:E.
  - destruct (m_end mt0 =? m_index mt0); [discriminate|].
    destruct (matchList re str fuel (m_end mt0)) as [l'|] eqn:El; [|discriminate].
    injection H as <-. destruct Hin as [<-|Hin].
    + apply exec_sound in E as (pre & w & rest & ? & ? & ? & ? & ?).
      exists pre, w, rest; auto.
    + eapply IH; eauto.
  - injection H as <-. destruct Hin.
Qed.

(** [parseTikZCode] returns, for every text: its two loops end, and its
    result is what the loop bodies make of the matches, in order. *)
Lemma parseTikZCode_total (code : jsstr) :
  exists ml al,
    nodeMatches code = Some ml
    /\ arrowMatches code = Some al
    /\ parseTikZCode code
       = Some (fold_left nodeBody ml [],
               fold_left (arrowBody (fold_left nodeBody ml [])) al []).
Proof.
  destruct (@matchList_total nodeRegex code nodeRegex_nonempty (S (length code)) 0)
    as [ml Hml]; [lia | lia |].
  destruct (@matchList_total arrowRegex code arrowRegex_nonempty (S (length code)) 0)
    as [al Hal]; [lia | lia |].
  exists ml, al. unfold nodeMatches, arrowMatches, parseTikZCode.
  rewrite !exec_loop_matchList, Hml; cbn [option_map].
  rewrite exec_loop_matchList, Hal. auto.
Qed.

(** ** The node loop *)

Lemma nodeBody_app nodes mt : nodeBody nodes mt = nodes ++ nodeBody [] mt.
Proof.
  unfold nodeBody. destruct (length (coordsOf mt) =? 2); cbn [app];
    [reflexivity | now rewrite app_nil_r].
Qed.

Lemma fold_nodeBody ml : forall acc,
  fold_left nodeBody ml acc = acc ++ flat_map (nodeBody []) ml.
Proof.
  induction ml as [|mt ml IH]; intros acc; simpl; [now rewrite app_nil_r|].
  now rewrite IH, nodeBody_app, <- app_assoc.
Qed.

(** A match gives no node, or one node that carries its second capture as
    name. *)
Lemma nodeBody_one mt :
  (twoCoords mt = false /\ nodeBody [] mt = [])
  \/ (twoCoords mt = true
      /\ exists n, nodeBody [] mt = [n] /\ name n = capture mt 2
                   /\ styleType n = styleTypeOf (capture mt 1)).
Proof.
  unfold nodeBody, twoCoords. destruct (length (coordsOf mt) =? 2); cbn [app].
  - right; split; [reflexivity|]. eexists; split; [reflexivity|].
    split; reflexivity.
  - left; auto.
Qed.

Lemma parseTikZCode_nodes (code : jsstr) :
  exists ml cs,
    nodeMatches code = Some ml
    /\ parseTikZCode code = Some (flat_map (nodeBody []) ml, cs).
Proof.
  destruct (parseTikZCode_total code) as (ml & al & Hml & _ & Hp).
  rewrite fold_nodeBody in Hp; simpl in Hp. eauto.
Qed.

(** The captures of a match of [nodeRegex] in [code]. *)
Lemma nodeMatches_declaration code ml mt :
  nodeMatches code = Some ml -> In mt ml ->
  exists pre post style coords label ws1 ws2 ws3 ws4,
    code = pre ++ nodeDeclaration style (capture mt 2) coords label
                    ws1 ws2 ws3 ws4 ++ post
    /\ capture mt 1 = style /\ capture mt 3 = coords /\ capture mt 4 = label
    /\ capture mt 2 <> [] /\ ~ In ")"%char (capture mt 2)
    /\ coords <> [] /\ ~ In ")"%char coords.
Proof.
  intros Hml Hin.
  destruct (matchList_sound _ _ _ _ Hml mt Hin)
    as (pre & w & post & Hcode & _ & _ & Hsem).
  apply nodeRegex_sem in Hsem
    as (style & nm & coords & label & ws1 & ws2 & ws3 & ws4 & -> & _ & Hnm
        & Hnm' & Hco & Hco' & _ & _ & _ & _ & _ & Hc).
  unfold capture; rewrite Hc; simpl.
  exists pre, post, style, coords, label, ws1, ws2, ws3, ws4. auto 10.
Qed.

(** Every match of [nodeRegex] in [code] is a declaration standing in
    [code], and its captures are the four parts. *)
Lemma nodeMatches_strict code ml mt :
  nodeMatches code = Some ml -> In mt ml ->
  exists pre w post,
    code = pre ++ w ++ post
    /\ isNodeDeclaration w (capture mt 1) (capture mt 2) (capture mt 3)
                          (capture mt 4).
Proof.
  intros Hml Hin.
  destruct (matchList_sound _ _ _ _ Hml mt Hin)
    as (pre & w & post & Hcode & _ & _ & Hsem).
  apply nodeRegex_sem in Hsem
    as (style & nm & coords & label & ws1 & ws2 & ws3 & ws4 & Hw & H1 & H2
        & H3 & H4 & H5 & H6 & H7 & H8 & H9 & H10 & Hc).
  exists pre, w, post. split; [assumption|].
  unfold capture; rewrite Hc; cbn [nth_error set_cap Nat.sub re_ngroups
                                     nodeRegex repeat].
  exists ws1, ws2, ws3, ws4. auto 12.
Qed.

Lemma find_hd_filter {A : Type} (p : A -> bool) (l : list A) :
  find p l = hd_error (filter p l).
Proof.
  induction l as [|a l IH]; simpl; [reflexivity|]. now destruct (p a).
Qed.

Lemma findNode_some nodes wanted n :
  findNode nodes wanted = Some n -> In n nodes /\ name n = wanted.
Proof.
  unfold findNode; intros H; apply find_some in H as [Hin He].
  apply eqb_eq in He; auto.
Qed.

Lemma findNode_none nodes wanted :
  (forall n, In n nodes -> name n <> wanted) -> findNode nodes wanted = None.
Proof.
  intros H. destruct (findNode nodes wanted) as [n|] eqn:E; [|reflexivity].
  apply findNode_some in E as [Hin He]. now apply H in Hin.
Qed.

(** ** The connection loop *)

Lemma fold_arrowBody_ends nodes al : forall acc,
  (forall c, In c acc ->
     (exists n, In n nodes /\ name n = from c)
     /\ (exists n, In n nodes /\ name n = to c)) ->
  forall c, In c (fold_left (arrowBody nodes) al acc) ->
    (exists n, In n nodes /\ name n = from c)
    /\ (exists n, In n nodes /\ name n = to c).
Proof.
  induction al as [|mt al IH]; intros acc Hacc; simpl; [assumption|].
  apply IH. unfold arrowBody.
  destruct (findNode nodes (capture mt 2)) as [n1|] eqn:E1; [|assumption].
  destruct (findNode nodes (capture mt 3)) as [n2|] eqn:E2; [|assumption].
  intros c Hin. apply in_app_or in Hin as [Hin|[<-|[]]]; [now apply Hacc|].
  apply findNode_some in E1, E2. simpl. split; eauto.
Qed.

(** ** The pattern of [updateCodeFromNodes] for a plain name *)

Lemma step_normal_plain (c : ascii) :
  plainChar c = true ->
  forall st la, step_normal st c la = inl (push_term st (lit c) TAtom).
Proof.
  destruct c as [[] [] [] [] [] [] [] []]; intros H st la;
    try discriminate H; reflexivity.
Qed.

Lemma run_plain (nodeName : jsstr) : forall st rest,
  p_mode st = MNormal -> plainName nodeName = true ->
  run st (nodeName ++ rest) = run (fold_left push_lit nodeName st) rest.
Proof.
  induction nodeName as [|c nm IH]; intros st rest Hmode Hplain; [reflexivity|].
  simpl in Hplain; apply andb_true_iff in Hplain as [Hc Hnm].
  simpl. unfold step; rewrite Hmode, (step_normal_plain _ Hc).
  now apply IH.
Qed.

Lemma fold_push_lit (nodeName : jsstr) : forall stack g alts seq n,
  fold_left push_lit nodeName (mkP stack (mkFrame g alts seq) n MNormal)
  = mkP stack
        (mkFrame g alts (rev (map (fun c => (lit c, TAtom)) nodeName) ++ seq))
        n MNormal.
Proof.
  induction nodeName as [|c nm IH]; intros stack g alts seq n; [reflexivity|].
  simpl. unfold push_lit at 2, push_term; simpl. rewrite IH.
  now rewrite <- app_assoc.
Qed.

Lemma run_clause_head (rest : jsstr) :
  run init (js "\(" ++ rest)
  = run (mkP [] (mkFrame None [] [(lit "(", TAtom)]) 0 MNormal) rest.
Proof. reflexivity. Qed.

Lemma run_clause_tail (seq : list (regex * tag)) :
  run (mkP [] (mkFrame None [] seq) 0 MNormal) (js "\)\s*at\s*\([^)]+\)")
  = inl (mkP [] (mkFrame None [] (clauseTailTerms ++ seq)) 0 MNormal).
Proof. reflexivity. Qed.

Lemma compile_clause (nodeName : jsstr) :
  plainName nodeName = true ->
  compile (clausePattern nodeName) = inl (mkRe (clauseBody nodeName) 0).
Proof.
  intros Hplain. unfold compile, clausePattern.
  rewrite run_clause_head, run_plain by (reflexivity || assumption).
  rewrite fold_push_lit, run_clause_tail.
  unfold finish, close_frame, clauseBody; cbn [p_mode p_stack p_cur f_group f_alts f_seq p_ngroups].
  rewrite !map_app, map_rev, map_map; cbn [fst].
  rewrite !rev_app_distr, rev_involutive.
  change (fun x0 : ascii => lit x0) with lit.
  reflexivity.
Qed.

Lemma mk_seq_cons (r : regex) (l : list regex) :
  l <> [] -> mk_seq (r :: l) = RSeq r (mk_seq l).
Proof. destruct l; [congruence | reflexivity]. Qed.

Lemma sem_lits (nodeName : jsstr) : forall i w rest c c',
  sem (mk_seq (map lit nodeName ++ clauseTail)) i w rest c c' ->
  exists w2, w = nodeName ++ w2
             /\ sem (mk_seq clauseTail) (i + length nodeName) w2 rest c c'.
Proof.
  induction nodeName as [|ch nm IH]; intros i w rest c c' H;
    cbn [map app length] in *.
  - exists w. now rewrite Nat.add_0_r.
  - rewrite mk_seq_cons in H
      by (intros E; apply app_eq_nil in E as [_ E]; discriminate).
    apply sem_seq_inv in H as (w1 & w2 & c1 & -> & H1 & H2).
    apply sem_lit_inv in H1 as (-> & ->).
    apply IH in H2 as (w3 & -> & H3).
    exists w3; split; [reflexivity|].
    now replace (i + S (length nm)) with (i + length [ch] + length nm)
      by (simpl; lia).
Qed.

(** With a plain name the pattern describes the clauses of that name, and
    captures nothing. *)
Lemma clauseBody_sem (nodeName : jsstr) i w rest c c' :
  sem (clauseBody nodeName) i w rest c c' ->
  isClause nodeName w /\ c' = c.
Proof.
  unfold clauseBody; intros H.
  rewrite mk_seq_cons in H
    by (intros E; apply app_eq_nil in E as [_ E]; discriminate).
  apply sem_seq_inv in H as (w1 & w2 & c1 & -> & H1 & H2).
  apply sem_lit_inv in H1 as (-> & ->).
  apply sem_lits in H2 as (w3 & -> & H3).
  unfold clauseTail in H3; cbn [mk_seq] in H3.
  sem_peel.
  repeat match goal with
    | H : Forall (fun ch => set_mem true [CChar _] ch = true) _ |- _ =>
        apply not_in_of_negated in H
    | H : Forall (fun ch => set_mem false [CSpace] ch = true) _ |- _ =>
        apply allSpace_of_class in H
    | H : set_mem true [CChar _] _ = true |- _ =>
        apply neq_of_negated in H
    end.
  split; [|reflexivity].
  match goal with
  | |- isClause _ (_ ++ _ ++ _ ++ ?w1 ++ _ ++ _ ++ ?w2 ++ _ ++ (?a ++ ?co) ++ _) =>
      exists w1, w2, (a ++ co)
  end.
  repeat match goal with |- _ /\ _ => split end;
    try assumption; try reflexivity; try discriminate.
  intros [Hin|Hin]; [congruence | tauto].
Qed.

Lemma isClause_nonempty nodeName w : isClause nodeName w -> w <> [].
Proof. intros (? & ? & ? & -> & _). discriminate. Qed.

(** ** The replacement template *)

(** A template without [$] is its own expansion. *)
Lemma expand_plain str mt (t : jsstr) :
  ~ In "$"%char t -> expand str mt t = t.
Proof.
  induction t as [|ch t IH]; intros Hn; [reflexivity|].
  assert (Ht : expand str mt t = t) by (apply IH; intros Hin; apply Hn; now right).
  assert (Hch : ch <> "$"%char) by (intros ->; apply Hn; now left).
  destruct ch as [[] [] [] [] [] [] [] []]; try congruence;
    cbn [expand]; now rewrite Ht.
Qed.

Lemma noDollar_not_in s : noDollar s -> ~ In "$"%char s.
Proof.
  unfold noDollar; rewrite Forall_forall; intros H Hin. now apply H in Hin.
Qed.

Lemma noDollar_app a b : noDollar a -> noDollar b -> noDollar (a ++ b).
Proof. unfold noDollar; intros; apply Forall_app; auto. Qed.

Lemma noDollar_firstn n s : noDollar s -> noDollar (firstn n s).
Proof.
  unfold noDollar; intros H. rewrite <- (firstn_skipn n s) in H.
  now apply Forall_app in H.
Qed.

Lemma noDollar_skipn n s : noDollar s -> noDollar (skipn n s).
Proof.
  unfold noDollar; intros H. rewrite <- (firstn_skipn n s) in H.
  now apply Forall_app in H.
Qed.

Lemma noDollar_plain nodeName : plainName nodeName = true -> noDollar nodeName.
Proof.
  unfold plainName, noDollar; rewrite forallb_forall, Forall_forall.
  intros H c Hin ->. apply H in Hin. discriminate.
Qed.

Lemma digit_char_noDollar (n : Z) : digit_char (n mod 10) <> "$"%char.
Proof.
  unfold digit_char.
  assert (H : (0 <= n mod 10 < 10)%Z) by (apply Z.mod_pos_bound; lia).
  assert (Hk : Z.to_nat (n mod 10) < 10) by lia.
  revert Hk; generalize (Z.to_nat (n mod 10)) as k; intros k Hk.
  do 10 (destruct k as [|k]; [discriminate|]). lia.
Qed.

Lemma digits_fuel_noDollar fuel : forall n acc,
  noDollar acc -> noDollar (digits_fuel fuel n acc).
Proof.
  induction fuel as [|fuel IH]; intros n acc Hacc; simpl; [assumption|].
  assert (noDollar (digit_char (n mod 10) :: acc))
    by (constructor; [apply digit_char_noDollar | assumption]).
  destruct (n <? 10)%Z; [assumption | now apply IH].
Qed.

Lemma digits_noDollar n : noDollar (digits n).
Proof. apply digits_fuel_noDollar; constructor. Qed.

Lemma js_noDollar (s : string) :
  forallb (fun c => negb (Ascii.eqb c "$")) (js s) = true -> noDollar (js s).
Proof.
  unfold noDollar; rewrite forallb_forall, Forall_forall.
  intros H c Hin ->. apply H in Hin. discriminate.
Qed.

Lemma toString_large_noDollar x X : noDollar (toString_large x X).
Proof.
  unfold toString_large.
  destruct (shortest _ _ _ _ _) as [s k].
  assert (He : forall e, noDollar (js "e+" ++ digits e))
    by (intros e; apply noDollar_app; [now apply js_noDollar | apply digits_noDollar]).
  assert (Hds : forall ds e, noDollar ds ->
            noDollar match ds with
                     | [] => []
                     | [d] => d :: js "e+" ++ digits e
                     | d :: (_ :: _) as ds' =>
                         d :: "."%char :: ds' ++ js "e+" ++ digits e
                     end).
  { intros ds e H. destruct ds as [|d [|d' ds']]; [constructor | |].
    - inversion H; subst. constructor; [assumption | apply He].
    - inversion H; subst. constructor; [assumption|].
      constructor; [discriminate|]. apply noDollar_app; [assumption | apply He]. }
  destruct (s =? 10 ^ k)%Z.
  - apply (Hds ["1"%char]). constructor; [discriminate | constructor].
  - apply Hds, digits_noDollar.
Qed.

Lemma fixed2_noDollar n : noDollar (fixed2 n).
Proof.
  unfold fixed2.
  assert (H : noDollar (repeat "0"%char (3 - length (digits n)) ++ digits n)).
  { apply noDollar_app; [|apply digits_noDollar].
    apply Forall_forall; intros c Hin. apply repeat_spec in Hin. now subst. }
  apply noDollar_app; [now apply noDollar_firstn|].
  constructor; [discriminate | now apply noDollar_skipn].
Qed.

Lemma toFixed2_noDollar x : noDollar (toFixed2 x).
Proof.
  assert (Hsign : forall s : bool, noDollar (if s then js "-" else []))
    by (intros []; [now apply js_noDollar | constructor]).
  destruct x as [s|s| |s mx e]; unfold toFixed2.
  - now apply js_noDollar.
  - apply noDollar_app; [apply Hsign | now apply js_noDollar].
  - now apply js_noDollar.
  - match goal with |- noDollar (if ?b then _ else _) => destruct b end;
      (apply noDollar_app; [apply Hsign|]);
      [apply toString_large_noDollar | apply fixed2_noDollar].
Qed.

Lemma clauseTemplate_plain n :
  plainName (name n) = true -> ~ In "$"%char (clauseTemplate n).
Proof.
  intros Hplain; apply noDollar_not_in. unfold clauseTemplate, tikzX, tikzY.
  repeat apply noDollar_app;
    try apply toFixed2_noDollar; try (now apply noDollar_plain);
    now apply js_noDollar.
Qed.

(** ** [replace] with the pattern of a plain name *)

Lemma firstn_length_app {A : Type} (a b : list A) n :
  n = length a -> firstn n (a ++ b) = a.
Proof.
  intros ->. now rewrite firstn_app, firstn_all, Nat.sub_diag, firstn_0, app_nil_r.
Qed.

Lemma skipn_length_app {A : Type} (a b : list A) n :
  n = length a -> skipn n (a ++ b) = b.
Proof.
  intros ->. now rewrite skipn_app, skipn_all, Nat.sub_diag.
Qed.

Lemma replace_from_clause nodeName str template :
  ~ In "$"%char template ->
  forall fuel i s,
    clauseRewrite nodeName template s
      (replace_from (mkRe (clauseBody nodeName) 0) str template fuel i s).
Proof.
  intros Ht. induction fuel as [|fuel IH]; intros i s; simpl; [constructor|].
  destruct (search _ i s) as [mt|] eqn:E; [|constructor].
  apply search_sound in E as (pre & w & rest & -> & Hi & He & Hsem).
  cbn [re_body] in Hsem. apply clauseBody_sem in Hsem as [Hcl _].
  pose proof (isClause_nonempty Hcl) as Hne.
  assert (length w <> 0) by (destruct w; simpl; congruence).
  destruct (m_end mt =? m_index mt) eqn:E; [apply Nat.eqb_eq in E; lia|].
  rewrite expand_plain by assumption.
  assert (Hrest : skipn (m_end mt - i) (pre ++ w ++ rest) = rest).
  { rewrite app_assoc. apply skipn_length_app. rewrite length_app; lia. }
  assert (Hpre : firstn (m_index mt - i) (pre ++ w ++ rest) = pre)
    by (apply firstn_length_app; lia).
  rewrite Hrest, Hpre, <- app_assoc. now constructor.
Qed.

Lemma rewriteNode_plain code n :
  plainName (name n) = true ->
  exists out, rewriteNode code n = inl out
              /\ clauseRewrite (name n) (clauseTemplate n) code out.
Proof.
  intros Hplain. unfold rewriteNode. rewrite compile_clause by assumption.
  eexists; split; [reflexivity|].
  apply replace_from_clause. now apply clauseTemplate_plain.
Qed.

Lemma updateCodeFromNodes_plain ns : forall code,
  forallb (fun n => plainName (name n)) ns = true ->
  exists out, updateCodeFromNodes code ns = inl out /\ rewrites ns code out.
Proof.
  induction ns as [|n ns IH]; intros code Hplain; simpl.
  - exists code; split; [reflexivity | constructor].
  - simpl in Hplain; apply andb_true_iff in Hplain as [Hn Hns].
    destruct (rewriteNode_plain code n Hn) as (out1 & -> & H1).
    destruct (IH out1 Hns) as (out & -> & H2).
    exists out; split; [reflexivity | econstructor; eauto].
Qed.

(** A text in which no clause of the name occurs is left as it is. *)
Lemma clauseRewrite_absent nodeName repl s s' :
  clauseRewrite nodeName repl s s' ->
  (forall pre w rest, s = pre ++ w ++ rest -> ~ isClause nodeName w) ->
  s' = s.
Proof.
  intros H Habs. destruct H as [s|pre w rest rest' Hcl _]; [reflexivity|].
  exfalso. eapply Habs; eauto.
Qed.

(** ** [replace] when every match already reads as its replacement *)

Lemma replace_from_fixed re str template :
  forall fuel i s,
    s = skipn i str ->
    forallb (fun mt => eqb (matched str mt) (expand str mt template))
            (matchAll_from re fuel i s) = true ->
    replace_from re str template fuel i s = s.
Proof.
  induction fuel as [|fuel IH]; intros i s Hs Hall; simpl in *; [reflexivity|].
  destruct (search re i s) as [mt|] eqn:E; [|reflexivity].
  apply search_sound in E as (pre & w & rest & Hsplit & Hi & He & _).
  assert (Hskip : forall k, skipn (k + i) str = skipn k s)
    by (intros k; now rewrite <- skipn_skipn, <- Hs).
  assert (Hm : matched str mt = w).
  { unfold matched, substring.
    replace (m_index mt) with (length pre + i) at 2 by lia.
    rewrite Hskip, Hsplit, skipn_length_app by reflexivity.
    apply firstn_length_app; lia. }
  assert (Hrest : skipn (m_end mt - i) s = rest).
  { rewrite Hsplit, app_assoc. apply skipn_length_app.
    rewrite length_app; lia. }
  assert (Hpre : firstn (m_index mt - i) s = pre).
  { rewrite Hsplit. apply firstn_length_app; lia. }
  rewrite Hrest, Hpre in *.
  destruct (m_end mt =? m_index mt) eqn:Eq.
  - apply Nat.eqb_eq in Eq.
    assert (Hw : w = []) by (destruct w; [reflexivity | simpl in He; lia]).
    rewrite Hw in *; clear Hw; simpl in Hsplit.
    destruct rest as [|ch rest'].
    + simpl in Hall. rewrite andb_true_r in Hall. apply eqb_eq in Hall.
      rewrite <- Hall, Hm, Hsplit. reflexivity.
    + simpl in Hall. apply andb_true_iff in Hall as [H1 H2].
      apply eqb_eq in H1. rewrite <- H1, Hm.
      rewrite IH; [now rewrite Hsplit, app_nil_r | | assumption].
      replace (S (m_end mt)) with (S (length pre) + i) by lia.
      rewrite Hskip, Hsplit.
      change (pre ++ ch :: rest') with (pre ++ [ch] ++ rest').
      rewrite app_assoc. symmetry; apply skipn_length_app.
      rewrite length_app; simpl; lia.
  - simpl in Hall. apply andb_true_iff in Hall as [H1 H2].
    apply eqb_eq in H1. rewrite <- H1, Hm.
    rewrite IH; [now rewrite Hsplit, <- app_assoc | | assumption].
    replace (m_end mt) with (length (pre ++ w) + i) by (rewrite length_app; lia).
    rewrite Hskip, Hsplit, app_assoc. now rewrite skipn_length_app.
Qed.

Lemma rewriteNode_canonical code n :
  canonicalAt code n = true -> rewriteNode code n = inl code.
Proof.
  unfold canonicalAt, rewriteNode.
  destruct (compile (clausePattern (name n))) as [regex|]; [|discriminate].
  intros H. f_equal. now apply replace_from_fixed.
Qed.

Lemma updateCodeFromNodes_canonical code ns :
  forallb (canonicalAt code) ns = true -> updateCodeFromNodes code ns = inl code.
Proof.
  induction ns as [|n ns IH]; simpl; [reflexivity|].
  intros H; apply andb_true_iff in H as [Hn Hns].
  rewrite rewriteNode_canonical by assumption. now apply IH.
Qed.

(* ================================================================== *)
(** * The claims *)

(** ** C2: two declarations of one name *)

(** C2, as stated, fails: parsing [duplicateText] gives two nodes named
    "n", not one. *)
Lemma C2_duplicate_counterexample :
  exists ns cs,
    parseTikZCode duplicateText = Some (ns, cs)
    /\ length (filter (named (js "n")) ns) = 2.
Proof. do 2 eexists. split; vm_compute; reflexivity. Qed.

Lemma filter_named_flat_map nodeName ml :
  length (filter (named nodeName) (flat_map (nodeBody []) ml))
  = length (filter (fun mt => eqb (capture mt 2) nodeName && twoCoords mt) ml).
Proof.
  induction ml as [|mt ml IH]; [reflexivity|].
  cbn [flat_map filter]. rewrite filter_app, length_app, IH.
  destruct (nodeBody_one mt) as [[-> ->]|(-> & n & -> & Hn & _)].
  - now rewrite andb_false_r.
  - cbn [filter]. unfold named at 1. rewrite Hn, andb_true_r.
    now destruct (eqb (capture mt 2) nodeName).
Qed.

(** C2, amended: parsing keeps one node for every declaration that is
    matched with two coordinates, in the order of the text, so a name
    declared twice gives two nodes of that name; a look-up by name
    ([nodes.find]) returns the first of them.  For [duplicateText]: two
    nodes named "n", the first at pixel (400,300), which is unit (0,0),
    the second at pixel (650,50), which is unit (5,5), and the look-up of
    "n" gives the first. *)
Theorem C2_duplicates_kept_first_found :
  (forall code, exists ml ns cs,
      nodeMatches code = Some ml
      /\ parseTikZCode code = Some (ns, cs)
      /\ (forall nodeName,
            length (filter (named nodeName) ns)
            = length (filter (fun mt => eqb (capture mt 2) nodeName && twoCoords mt)
                             ml))
      /\ (forall nodeName,
            findNode ns nodeName = hd_error (filter (named nodeName) ns)))
  /\ (exists n1 n2,
        parseTikZCode duplicateText = Some ([n1; n2], [])
        /\ name n1 = js "n" /\ x n1 = ofZ 400 /\ y n1 = ofZ 300
        /\ name n2 = js "n" /\ x n2 = ofZ 650 /\ y n2 = ofZ 50
        /\ findNode [n1; n2] (js "n") = Some n1).
Proof.
  split.
  - intros code. destruct (parseTikZCode_nodes code) as (ml & cs & Hml & Hp).
    exists ml, (flat_map (nodeBody []) ml), cs.
    repeat split; try assumption.
    + intros nodeName; apply filter_named_flat_map.
    + intros nodeName; apply find_hd_filter.
  - do 2 eexists. split; [vm_compute; reflexivity|].
    repeat split; vm_compute; reflexivity.
Qed.

(** ** C3: the scenario with nodes "a" and "b" *)

(** C3, as stated, fails: in the state that shows [scenarioText], the
    drag of "a" to pixel (150,150) leaves a text that no longer contains
    the declaration of "b" as it was written: its coordinates now read
    [(-1.30cm,3.00cm)]. *)
Lemma C3_scenario_counterexample :
  exists st o,
    opened scenarioText = Some st
    /\ handleNodeDrag st (js "a") (dragTo 150 150) = Some o
    /\ raised o = None
    /\ includes scenarioText (js "\node[cloud] (b) at (-1.3,3) {GCP};") = true
    /\ includes (tikzCode (next o)) (js "\node[cloud] (b) at (-1.3,3) {GCP};")
       = false.
Proof.
  do 2 eexists. split; [vm_compute; reflexivity|].
  split; [vm_compute; reflexivity|]. split; [reflexivity|].
  split; vm_compute; reflexivity.
Qed.

(** C3, amended: the state that shows [scenarioText] has exactly the
    nodes "a" at pixel (100,150) and "b" at pixel (335,150) and one
    connection from "a" to "b", as parsed; the drag update of "a" to
    pixel (150,150) leaves "b" as it is and puts "a" at unit (-5,3); the
    handler rewrites the text from the nodes it sees, and writes every
    node's coordinates with two decimals and [cm]: the text it leaves is
    [scenarioRewritten], where "b" reads [(-1.30cm,3.00cm)], "a" reads
    [(-6.00cm,3.00cm)], and the rest of both declarations and the
    connection line are as they were; the text has changed, so it is
    parsed again, into the same two nodes and one connection. *)
Theorem C3_scenario :
  exists st a b c a' o,
    parseTikZCode scenarioText = Some ([a; b], [c])
    /\ opened scenarioText = Some st
    /\ (nodes st = [a; b] /\ connections st = [c])
    /\ (name a = js "a" /\ text a = js "AWS" /\ x a = ofZ 100 /\ y a = ofZ 150)
    /\ (name b = js "b" /\ text b = js "GCP" /\ x b = ofZ 335 /\ y b = ofZ 150)
    /\ (from c = js "a" /\ to c = js "b")
    /\ dragNodes (js "a") (dragTo 150 150) [a; b] = [a'; b]
    /\ (x a' = ofZ 150 /\ y a' = ofZ 150 /\ unitX a' = ofZ (-5) /\ unitY a' = ofZ 3)
    /\ handleNodeDrag st (js "a") (dragTo 150 150) = Some o
    /\ raised o = None
    /\ tikzCode (next o) = scenarioRewritten
    /\ (nodes (next o) = [a; b] /\ connections (next o) = [c]).
Proof.
  do 6 eexists.
  repeat (split;
          [repeat match goal with |- _ /\ _ => split end;
           vm_compute; reflexivity|]).
  split; vm_compute; reflexivity.
Qed.

(** ** C4: the rewriter on an arbitrary name *)

(** C4 (what the code does at the failing input): [parenText] is parsed
    into a node named "a(b"; rewriting the text against this node raises
    the [SyntaxError] of [new RegExp], and so does the drag handler. *)
Theorem C4_rewriter_throws :
  exists n st o,
    parseTikZCode parenText = Some ([n], [])
    /\ name n = js "a(b"
    /\ updateCodeFromNodes parenText [n] = inr ESyntax
    /\ opened parenText = Some st
    /\ handleNodeDrag st (js "a(b") (dragTo 150 150) = Some o
    /\ raised o = Some ESyntax.
Proof.
  do 3 eexists. split; [vm_compute; reflexivity|].
  repeat split; vm_compute; reflexivity.
Qed.

(** ** C5: connections to undeclared names *)

(** C5: every text is parsed without error; both ends of every connection
    kept are names of parsed nodes, so a name that no node carries is the
    end of no connection; and for [danglingText], where "x" is declared
    and "y" is not, the connection from "x" to "y" is dropped. *)
Theorem C5_dangling_connections_dropped :
  (forall code, exists ns cs,
      parseTikZCode code = Some (ns, cs)
      /\ (forall c, In c cs ->
            (exists n, In n ns /\ name n = from c)
            /\ (exists n, In n ns /\ name n = to c))
      /\ (forall nodeName,
            (forall n, In n ns -> name n <> nodeName) ->
            forall c, In c cs -> from c <> nodeName /\ to c <> nodeName))
  /\ (exists nx,
        parseTikZCode danglingText = Some ([nx], []) /\ name nx = js "x").
Proof.
  split.
  - intros code. destruct (parseTikZCode_total code) as (ml & al & _ & _ & Hp).
    do 2 eexists; split; [exact Hp|].
    assert (Hends : forall c,
      In c (fold_left (arrowBody (fold_left nodeBody ml [])) al []) ->
      (exists n, In n (fold_left nodeBody ml []) /\ name n = from c)
      /\ (exists n, In n (fold_left nodeBody ml []) /\ name n = to c)).
    { apply fold_arrowBody_ends. intros c []. }
    split; [exact Hends|].
    intros nodeName Hno c Hin.
    destruct (Hends c Hin) as [(n1 & Hin1 & H1) (n2 & Hin2 & H2)].
    split; intros E; [apply (Hno n1 Hin1) | apply (Hno n2 Hin2)]; congruence.
  - eexists. split; vm_compute; reflexivity.
Qed.

(** ** C6: the shape class *)

(** C6: the shape class is decided by the first test that succeeds, in
    the order ellipse, cylinder, dashed rectangle, highlighted rectangle,
    plain rectangle; every node that is parsed carries the class of its
    style; a style with both a "cloud" and an "api" marker gives the
    ellipse, as for the node of [cloudApiText]. *)
Theorem C6_shape_priority :
  (forall style,
      (includes style (js "cloud") = true \/ includes style (js "ellipse") = true ->
       styleTypeOf style = ellipse)
      /\ (includes style (js "cloud") = false ->
          includes style (js "ellipse") = false ->
          (includes style (js "db") = true \/ includes style (js "cylinder") = true ->
           styleTypeOf style = cylinder)
          /\ (includes style (js "db") = false ->
              includes style (js "cylinder") = false ->
              (includes style (js "k8s") = true -> styleTypeOf style = dashed_rect)
              /\ (includes style (js "k8s") = false ->
                  (includes style (js "api") = true ->
                   styleTypeOf style = yellow_rect)
                  /\ (includes style (js "api") = false ->
                      styleTypeOf style = rectangle)))))
  /\ (forall style,
        includes style (js "cloud") = true -> includes style (js "api") = true ->
        styleTypeOf style = ellipse)
  /\ (forall nodes mt,
        twoCoords mt = true ->
        exists n, nodeBody nodes mt = nodes ++ [n]
                  /\ styleType n = styleTypeOf (capture mt 1))
  /\ (exists n,
        parseTikZCode cloudApiText = Some ([n], [])
        /\ includes (js "cloud, api") (js "cloud") = true
        /\ includes (js "cloud, api") (js "api") = true
        /\ styleType n = ellipse).
Proof.
  split; [|split; [|split]].
  - intros style; unfold styleTypeOf. split.
    + intros [-> | ->]; [reflexivity | now rewrite orb_true_r].
    + intros -> ->; cbn [orb]. split.
      * intros [-> | ->]; [reflexivity | now rewrite orb_true_r].
      * intros -> ->; cbn [orb]. split; [now intros ->|].
        intros ->. split; now intros ->.
  - intros style Hc _. unfold styleTypeOf. now rewrite Hc.
  - intros nodes mt H. rewrite nodeBody_app.
    destruct (nodeBody_one mt) as [[E _]|(_ & n & -> & _ & Hs)]; [congruence|].
    eauto.
  - eexists. split; [vm_compute; reflexivity|].
    repeat split; vm_compute; reflexivity.
Qed.

(** ** C7: what follows a drag *)

(** C7, as stated, fails: in the state that shows [scenarioText], the
    drag of "a" to pixel (150,150) changes the text, the parser runs on
    the changed text, and the nodes afterwards are the parsed ones, not
    the dragged ones. *)
Lemma C7_drag_counterexample :
  exists st o,
    opened scenarioText = Some st
    /\ handleNodeDrag st (js "a") (dragTo 150 150) = Some o
    /\ raised o = None
    /\ parseTikZCode (tikzCode (next o))
       = Some (nodes (next o), connections (next o))
    /\ nodes (next o) <> dragNodes (js "a") (dragTo 150 150) (nodes st).
Proof.
  do 2 eexists. split; [vm_compute; reflexivity|].
  split; [vm_compute; reflexivity|]. split; [reflexivity|].
  split; [vm_compute; reflexivity|]. vm_compute; discriminate.
Qed.

(** C7, amended: the handler applies the drag to the node list and runs
    the rewriter on the text, with the nodes it sees.  When the rewriter
    returns a text, that text is the text of the next state; when it
    differs from the text before, the parser has run on it and the nodes
    and connections of the next state are the ones it returned; only
    when the rewriting leaves the text as it is are the nodes the
    dragged ones.  When [new RegExp] throws, the text and the connections
    stay and the nodes are the dragged ones.  (For a name outside the
    modelled grammar the model has no next state.) *)
Theorem C7_drag_then_effect (st : state) (nodeName : jsstr) (data : dragData) :
  match updateCodeFromNodes (tikzCode st) (nodes st) with
  | inl updatedCode =>
      exists o,
        handleNodeDrag st nodeName data = Some o
        /\ raised o = None
        /\ tikzCode (next o) = updatedCode
        /\ (updatedCode <> tikzCode st ->
            parseTikZCode updatedCode
            = Some (nodes (next o), connections (next o)))
        /\ (updatedCode = tikzCode st ->
            nodes (next o) = dragNodes nodeName data (nodes st)
            /\ connections (next o) = connections st)
  | inr ESyntax =>
      handleNodeDrag st nodeName data
      = Some (mkOutcome
                (mkState (tikzCode st) (dragNodes nodeName data (nodes st))
                         (connections st))
                (Some ESyntax))
  | inr EUnsupported => handleNodeDrag st nodeName data = None
  end.
Proof.
  unfold handleNodeDrag.
  destruct (updateCodeFromNodes (tikzCode st) (nodes st)) as [updatedCode|[|]];
    [|reflexivity | reflexivity].
  unfold commit; cbn [tikzCode].
  destruct (eqb (tikzCode st) updatedCode) eqn:E.
  - apply eqb_eq in E.
    eexists; split; [reflexivity|]. cbn [next raised tikzCode nodes connections].
    split; [reflexivity|]. split; [reflexivity|].
    split; [|intros _; split; reflexivity].
    intros Hne; exfalso; apply Hne; exact (eq_sym E).
  - apply eqb_neq in E.
    destruct (parseTikZCode_total updatedCode) as (ml & al & _ & _ & Hp).
    rewrite Hp.
    eexists; split; [reflexivity|]. cbn [next raised tikzCode nodes connections].
    split; [reflexivity|]. split; [reflexivity|].
    split; [intros _; reflexivity|].
    intros Heq; exfalso; apply E; exact (eq_sym Heq).
Qed.

(** ** C8: what the rewriter leaves alone *)

(** C8, as stated, fails: in [spacedText] the two spaces on each side of
    [at] lie outside the coordinates [(1,2)], and the rewritten text has
    one space there. *)
Lemma C8_frame_counterexample :
  exists ns cs out,
    parseTikZCode spacedText = Some (ns, cs)
    /\ updateCodeFromNodes spacedText ns = inl out
    /\ out = spacedRewritten
    /\ startsWith (js "\node[s] (a)  at  (") spacedText = true
    /\ startsWith (js "\node[s] (a)  at  (") out = false.
Proof.
  do 3 eexists. split; [vm_compute; reflexivity|].
  split; [vm_compute; reflexivity|]. repeat split; vm_compute; reflexivity.
Qed.

Lemma rewrites_absent ns : forall s s',
  rewrites ns s s' ->
  (forall n, In n ns ->
     forall pre w rest, s = pre ++ w ++ rest -> ~ isClause (name n) w) ->
  s' = s.
Proof.
  induction ns as [|n ns IH]; intros s s' H Habs; inversion H; subst;
    [reflexivity|].
  match goal with
  | H1 : clauseRewrite _ _ s ?s1 |- _ =>
      apply clauseRewrite_absent in H1; [subst s1 | apply Habs; now left]
  end.
  apply IH; [assumption|]. intros n' Hin. apply Habs. now right.
Qed.

(** C8, amended: for nodes whose names are plain (no character with a
    meaning in a pattern or a replacement), the rewriter returns a text,
    obtained node by node by replacing occurrences of the whole clause
    [(name)], [at], [(coordinates)], spaces included and wherever it
    stands in the text, by [(name) at (X.XXcm,Y.YYcm)]; everything before,
    between and after the replaced clauses is kept; and when no clause of
    any of the names occurs in the text, the text is returned as it is. *)
Theorem C8_rewrite_frame (text : jsstr) (ns : list node)
    (Hplain : forallb (fun n => plainName (name n)) ns = true) :
  exists out,
    updateCodeFromNodes text ns = inl out
    /\ rewrites ns text out
    /\ ((forall n, In n ns ->
           forall pre w rest, text = pre ++ w ++ rest -> ~ isClause (name n) w) ->
        out = text).
Proof.
  destruct (updateCodeFromNodes_plain ns text Hplain) as (out & Hout & Hrw).
  exists out. repeat split; [assumption | assumption |].
  now apply rewrites_absent.
Qed.

Lemma C8_rewrite_frame_witness :
  forallb (fun n => plainName (name n)) scenarioNodes = true
  /\ exists out,
       updateCodeFromNodes scenarioText scenarioNodes = inl out
       /\ rewrites scenarioNodes scenarioText out
       /\ ((forall n, In n scenarioNodes ->
              forall pre w rest,
                scenarioText = pre ++ w ++ rest -> ~ isClause (name n) w) ->
           out = scenarioText).
Proof.
  split; [reflexivity|].
  apply (C8_rewrite_frame scenarioText scenarioNodes). reflexivity.
Defined.

(** ** C9: two drags of one node *)

(** The text that a drag leaves is the rewriting against the nodes of the
    state before it, whatever the drag. *)
Lemma handleNodeDrag_text st nodeName data o :
  handleNodeDrag st nodeName data = Some o ->
  raised o = None ->
  updateCodeFromNodes (tikzCode st) (nodes st) = inl (tikzCode (next o)).
Proof.
  unfold handleNodeDrag.
  destruct (updateCodeFromNodes (tikzCode st) (nodes st)) as [updatedCode|[|]];
    [| intros H; injection H as <-; discriminate | discriminate].
  unfold commit; cbn [tikzCode].
  destruct (eqb (tikzCode st) updatedCode).
  - intros H; injection H as <-. reflexivity.
  - destruct (parseTikZCode_total updatedCode) as (ml & al & _ & _ & ->).
    intros H; injection H as <-. reflexivity.
Qed.

(** At the level of the updater given to [setNodes], the last drag wins. *)
Lemma dragNodes_last_wins nodeName d1 d2 ns :
  dragNodes nodeName d2 (dragNodes nodeName d1 ns) = dragNodes nodeName d2 ns.
Proof.
  unfold dragNodes. rewrite map_map. apply map_ext; intros n.
  destruct (eqb (name n) nodeName) eqn:E; cbn [name]; now rewrite E.
Qed.

(** C9 (what the code does at the failing input): in the state that shows
    [awsCanonical], "a" is dragged to pixel (150,150) and then to pixel
    (200,100).  The second handler rewrites the text from the nodes it
    sees, which carry the first drag only; the text changes, is parsed
    again, and "a" ends at pixel (150,150) with the text [awsDragged],
    that is unit (-5,3).  A single drag to pixel (200,100) from the same
    state leaves "a" at pixel (200,100). *)
Theorem C9_second_drag_lost :
  exists st0 o1 o2 o a2 a,
    opened awsCanonical = Some st0
    /\ handleNodeDrag st0 (js "a") (dragTo 150 150) = Some o1
    /\ handleNodeDrag (next o1) (js "a") (dragTo 200 100) = Some o2
    /\ handleNodeDrag st0 (js "a") (dragTo 200 100) = Some o
    /\ (raised o1 = None /\ raised o2 = None /\ raised o = None)
    /\ (nodes (next o2) = [a2] /\ x a2 = ofZ 150 /\ y a2 = ofZ 150
        /\ tikzCode (next o2) = awsDragged)
    /\ (nodes (next o) = [a] /\ x a = ofZ 200 /\ y a = ofZ 100
        /\ tikzCode (next o) = awsCanonical).
Proof.
  do 6 eexists. split; [vm_compute; reflexivity|].
  split; [vm_compute; reflexivity|]. split; [vm_compute; reflexivity|].
  split; [vm_compute; reflexivity|].
  repeat split; vm_compute; reflexivity.
Qed.

(** ** C10: declarations that give no node *)

(** C10: a match whose coordinates do not split into two components adds
    nothing, and the nodes returned are those of all the matches, in
    order, so the scan goes on after such a match; every node returned
    comes from a declaration that stands in the text with the node's
    name, nothing but white space between the name and [at] and between
    [at] and the parenthesised coordinate text, and coordinates that
    split into two components, so a declaration without an explicit
    [at (...)] gives no node.  [threeCoordsText] gives the node "q"
    only, [relativeText] the node "gcp" only. *)
Theorem C10_unplaced_or_malformed_omitted :
  (forall nodes mt, length (coordsOf mt) <> 2 -> nodeBody nodes mt = nodes)
  /\ (forall code, exists ml cs,
        nodeMatches code = Some ml
        /\ parseTikZCode code = Some (flat_map (nodeBody []) ml, cs)
        /\ (forall n, In n (flat_map (nodeBody []) ml) ->
              exists pre w post style coords label,
                code = pre ++ w ++ post
                /\ isNodeDeclaration w style (name n) coords label
                /\ length (split "," (trim (replace cmRegex coords []))) = 2))
  /\ (exists q, parseTikZCode threeCoordsText = Some ([q], [])
                /\ name q = js "q")
  /\ (exists g, parseTikZCode relativeText = Some ([g], [])
                /\ name g = js "gcp").
Proof.
  split; [|split; [|split]].
  - intros nodes mt H. unfold nodeBody.
    apply Nat.eqb_neq in H. now rewrite H.
  - intros code. destruct (parseTikZCode_nodes code) as (ml & cs & Hml & Hp).
    exists ml, cs. repeat split; try assumption.
    intros n Hin. apply in_flat_map in Hin as (mt & Hmt & Hn).
    destruct (nodeBody_one mt) as [[_ E]|(Htwo & n' & E & Hname & _)];
      rewrite E in Hn; [destruct Hn | destruct Hn as [<-|[]]].
    destruct (@nodeMatches_strict code ml mt Hml Hmt)
      as (pre & w & post & Hcode & Hdecl).
    exists pre, w, post, (capture mt 1), (capture mt 3), (capture mt 4).
    rewrite Hname. split; [assumption|]. split; [assumption|].
    unfold twoCoords, coordsOf in Htwo.
    now apply Nat.eqb_eq in Htwo.
  - eexists. split; vm_compute; reflexivity.
  - eexists. split; vm_compute; reflexivity.
Qed.

(* ================================================================== *)
(** * Further properties of the component *)

(** ** The drag updater *)

(** X1: the drag updater keeps the number, order, names, labels and shape
    classes of the nodes; it moves every node of the given name to the
    position of the drag and leaves every other node as it is. *)
Theorem dragNodes_frame (nodeName : jsstr) (data : dragData) (ns : list node) :
  length (dragNodes nodeName data ns) = length ns
  /\ Forall2 sameButPosition ns (dragNodes nodeName data ns)
  /\ Forall2 (fun n n' =>
               if eqb (name n) nodeName
               then x n' = add (data_x data) (ofZ 400)
                    /\ y n' = add (data_y data) (ofZ 300)
               else n' = n)
            ns (dragNodes nodeName data ns).
Proof.
  unfold dragNodes. split; [apply length_map|].
  split; (induction ns as [|n ns IH]; simpl; constructor; [|exact IH]).
  - destruct (eqb (name n) nodeName); repeat split.
  - destruct (eqb (name n) nodeName); [split|]; reflexivity.
Qed.

(** X2: a drag of a name that no node carries changes nothing. *)
Theorem dragNodes_absent (nodeName : jsstr) (data : dragData) (ns : list node)
    (Habsent : findNode ns nodeName = None) :
  dragNodes nodeName data ns = ns.
Proof.
  unfold dragNodes, findNode in *.
  induction ns as [|n ns IH]; simpl in *; [reflexivity|].
  destruct (eqb (name n) nodeName); [discriminate|].
  now rewrite IH.
Qed.

Lemma dragNodes_absent_witness :
  findNode scenarioNodes (js "zz") = None
  /\ dragNodes (js "zz") (dragTo 150 150) scenarioNodes = scenarioNodes.
Proof.
  split; [reflexivity|].
  apply (dragNodes_absent (js "zz") (dragTo 150 150) scenarioNodes).
  reflexivity.
Defined.

(** X3: drags of two different names can be applied in either order. *)
Theorem dragNodes_commute (name1 name2 : jsstr) (d1 d2 : dragData)
    (ns : list node) (Hdiff : name1 <> name2) :
  dragNodes name1 d1 (dragNodes name2 d2 ns)
  = dragNodes name2 d2 (dragNodes name1 d1 ns).
Proof.
  unfold dragNodes. rewrite !map_map. apply map_ext; intros n.
  destruct (eqb (name n) name2) eqn:E2; destruct (eqb (name n) name1) eqn:E1;
    cbn [name]; rewrite ?E1, ?E2; try reflexivity.
  apply eqb_eq in E1, E2. congruence.
Qed.

Lemma dragNodes_commute_witness :
  js "a" <> js "b"
  /\ dragNodes (js "a") (dragTo 150 150)
       (dragNodes (js "b") (dragTo 200 100) scenarioNodes)
     = dragNodes (js "b") (dragTo 200 100)
         (dragNodes (js "a") (dragTo 150 150) scenarioNodes).
Proof.
  assert (H : js "a" <> js "b") by discriminate.
  split; [exact H|].
  exact (dragNodes_commute (dragTo 150 150) (dragTo 200 100) scenarioNodes H).
Defined.

(** ** Where connections come from *)

(** What [arrowRegex] matches, and what its three groups capture. *)
Lemma arrowRegex_sem i w rest c c' :
  sem (re_body arrowRegex) i w rest c c' ->
  exists style fromName toName ws1 ws2 ws3,
    w = arrowDeclaration style fromName toName ws1 ws2 ws3
    /\ ~ In "]"%char style
    /\ fromName <> [] /\ ~ In ")"%char fromName
    /\ toName <> [] /\ ~ In ")"%char toName
    /\ allSpace ws1 /\ allSpace ws2 /\ allSpace ws3
    /\ c' = set_cap 2 (Some toName)
              (set_cap 1 (Some fromName) (set_cap 0 (Some style) c)).
Proof.
  unfold arrowRegex; cbn [re_body]; intros H.
  sem_peel.
  repeat match goal with
    | H : Forall (fun ch => set_mem true [CChar _] ch = true) _ |- _ =>
        apply not_in_of_negated in H
    | H : Forall (fun ch => set_mem false [CSpace] ch = true) _ |- _ =>
        apply allSpace_of_class in H
    | H : set_mem true [CChar _] _ = true |- _ =>
        apply neq_of_negated in H
    end.
  match goal with
  | |- exists _ _ _ _ _ _,
        (_ ++ _ ++ _ ++ _ ++ _ ++ _ ++ ?st ++ _ ++ ?w1 ++ _ ++ (?a ++ ?f) ++ _
         ++ ?w2 ++ _ ++ _ ++ ?w3 ++ _ ++ (?b ++ ?t) ++ _)
        = _ /\ _ =>
      exists st, (a ++ f), (b ++ t), w1, w2, w3
  end.
  repeat match goal with |- _ /\ _ => split end;
    try assumption; try reflexivity; try discriminate;
    (intros [Hin|Hin]; [congruence | tauto]).
Qed.

Lemma fold_arrowBody_origin nodes al : forall acc c,
  In c (fold_left (arrowBody nodes) al acc) ->
  In c acc
  \/ exists mt, In mt al
                /\ c = mkConnection (capture mt 2) (capture mt 3)
                                    (includes (capture mt 1) (js "dashed")).
Proof.
  induction al as [|mt al IH]; intros acc c Hin; simpl in Hin; [now left|].
  apply IH in Hin as [Hin|(mt' & Hmt' & Hc)]; [|right; exists mt'; simpl; auto].
  unfold arrowBody in Hin.
  destruct (findNode nodes (capture mt 2)); [|now left].
  destruct (findNode nodes (capture mt 3)); [|now left].
  apply in_app_or in Hin as [Hin|[<-|[]]]; [now left|].
  right; exists mt; simpl; auto.
Qed.

(** X4: every connection that parsing returns comes from a declaration
    [\draw[style] (from) -- (to)] that stands in the text: an option list
    without closing bracket, the two names between parentheses as they
    are written (non-empty, without closing parenthesis), a double
    hyphen between them, and nothing but white space between the parts;
    and the connection is dashed exactly when that option list contains
    "dashed". *)
Theorem connections_come_from_draw (code : jsstr) :
  exists ns cs,
    parseTikZCode code = Some (ns, cs)
    /\ forall c, In c cs ->
         exists pre w post style,
           code = pre ++ w ++ post
           /\ isArrowDeclaration w style (from c) (to c)
           /\ dashed c = includes style (js "dashed").
Proof.
  destruct (parseTikZCode_total code) as (ml & al & _ & Hal & Hp).
  do 2 eexists; split; [exact Hp|].
  intros c Hin. apply fold_arrowBody_origin in Hin as [[]|(mt & Hmt & ->)].
  destruct (matchList_sound _ _ _ _ Hal mt Hmt)
    as (pre & w & post & Hcode & _ & _ & Hsem).
  apply arrowRegex_sem in Hsem
    as (style & f & t & ws1 & ws2 & ws3 & Hw & H1 & H2 & H3 & H4 & H5
        & H6 & H7 & H8 & Hc).
  exists pre, w, post, style. split; [assumption|].
  unfold capture; rewrite Hc; cbn. split; [|reflexivity].
  exists ws1, ws2, ws3. auto 10.
Qed.

(** ** Splitting at a separator *)

Lemma split_cons (sep c : ascii) (s : jsstr) :
  exists p ps, split sep s = p :: ps.
Proof.
  destruct s as [|c' s]; simpl; [eauto|].
  destruct (Ascii.eqb c' sep); [eauto|].
  destruct (split sep s); eauto.
Qed.

Lemma split_length (sep : ascii) (s : jsstr) :
  length (split sep s) = S (count_occ ascii_dec s sep).
Proof.
  induction s as [|c s IH]; [reflexivity|]. simpl.
  destruct (Ascii.eqb c sep) eqn:E.
  - apply Ascii.eqb_eq in E; subst c.
    destruct (ascii_dec sep sep); [|congruence]. simpl. now rewrite IH.
  - apply Ascii.eqb_neq in E.
    destruct (ascii_dec c sep); [congruence|].
    destruct (split sep s) as [|p ps]; [discriminate IH | exact IH].
Qed.

Lemma join_split (sep : ascii) (s : jsstr) : join sep (split sep s) = s.
Proof.
  induction s as [|c s IH]; [reflexivity|]. simpl.
  destruct (Ascii.eqb c sep) eqn:E.
  - apply Ascii.eqb_eq in E; subst c.
    destruct (split_cons sep sep s) as (p & ps & Hs).
    rewrite Hs in *.
    change (join sep ([] :: p :: ps)) with ([] ++ sep :: join sep (p :: ps)).
    now rewrite IH.
  - destruct (split sep s) as [|p [|p' ps]]; simpl in *; congruence.
Qed.

Lemma split_pieces (sep : ascii) (s : jsstr) :
  Forall (fun p => ~ In sep p) (split sep s).
Proof.
  induction s as [|c s IH]; simpl; [repeat constructor; auto|].
  destruct (Ascii.eqb c sep) eqn:E; [constructor; auto|].
  apply Ascii.eqb_neq in E.
  destruct (split sep s) as [|p ps]; [repeat constructor; simpl; intuition|].
  inversion IH; subst. constructor; [|assumption].
  simpl; intuition.
Qed.

(** X5: a match of the node pattern gives a node exactly when its
    coordinate text, with every "cm" removed and trimmed, contains one
    comma; with none (a polar or named coordinate) or with two or more
    it gives nothing. *)
Theorem node_needs_one_comma (nodes : list node) (mt : match_result) :
  (commas (trim (replace cmRegex (capture mt 3) [])) = 1 ->
   exists n, nodeBody nodes mt = nodes ++ [n])
  /\ (commas (trim (replace cmRegex (capture mt 3) [])) <> 1 ->
      nodeBody nodes mt = nodes).
Proof.
  unfold nodeBody, coordsOf, commas. rewrite split_length.
  split; intros H.
  - rewrite H. cbn [Nat.eqb]. eauto.
  - destruct (S _ =? 2) eqn:E; [|reflexivity].
    apply Nat.eqb_eq in E. lia.
Qed.

(** X6: the lines drawn for a label, put together again with line breaks,
    are the label; no line contains a line break; and there is one more
    line than there are line breaks in the label. *)
Theorem labelLines_round_trip (n : node) :
  join "010" (labelLines n) = text n
  /\ Forall (fun l => ~ In "010"%char l) (labelLines n)
  /\ length (labelLines n) = S (count_occ ascii_dec (text n) "010"%char).
Proof.
  unfold labelLines. split; [apply join_split|].
  split; [apply split_pieces | apply split_length].
Qed.

(** ** The states of the component *)

Lemma sameButPosition_drag nodeName data ns ms :
  Forall2 sameButPosition ns ms ->
  Forall2 sameButPosition ns (dragNodes nodeName data ms).
Proof.
  induction 1 as [|n m ns ms Hnm _ IH]; simpl; constructor; [|exact IH].
  destruct (eqb (name m) nodeName); [|exact Hnm].
  destruct Hnm as (? & ? & ?). repeat split; assumption.
Qed.

Lemma sameButPosition_refl ns : Forall2 sameButPosition ns ns.
Proof. induction ns; constructor; [repeat split | assumption]. Qed.

(** In every state the nodes are those parsed from the text shown, moved
    perhaps, and the connections are those parsed from it. *)
Lemma commit_parsed st ns updatedCode nodeName data st' :
  parseTikZCode (tikzCode st) = Some (ns, connections st) ->
  Forall2 sameButPosition ns (nodes st) ->
  commit st (mkState updatedCode (dragNodes nodeName data (nodes st))
                     (connections st)) = Some st' ->
  exists ns',
    parseTikZCode (tikzCode st') = Some (ns', connections st')
    /\ Forall2 sameButPosition ns' (nodes st').
Proof.
  intros Hp Hs Hc. unfold commit in Hc; cbn in Hc.
  destruct (eqb (tikzCode st) updatedCode) eqn:E.
  - injection Hc as <-. apply eqb_eq in E; subst updatedCode.
    exists ns; split; [exact Hp|]. now apply sameButPosition_drag.
  - destruct (parseTikZCode updatedCode) as [[ns' cs']|] eqn:Ep;
      [|discriminate].
    injection Hc as <-. exists ns'; split; [exact Ep|].
    apply sameButPosition_refl.
Qed.

Lemma reachable_parsed st :
  reachable st ->
  exists ns,
    parseTikZCode (tikzCode st) = Some (ns, connections st)
    /\ Forall2 sameButPosition ns (nodes st).
Proof.
  induction 1 as [|st value st' _ IH Hc|st nodeName data o _ IH Hd
                  |st nodeName data updatedCode st' _ IH _ Hc].
  - exists []. split; [vm_compute; reflexivity | constructor].
  - destruct IH as (ns & Hp & Hs). unfold onChange, commit in Hc; cbn in Hc.
    destruct (eqb (tikzCode st) value) eqn:E.
    + injection Hc as <-. apply eqb_eq in E; subst value. exists ns; auto.
    + destruct (parseTikZCode value) as [[ns' cs']|] eqn:Ep; [|discriminate].
      injection Hc as <-. exists ns'; split; [exact Ep|].
      apply sameButPosition_refl.
  - destruct IH as (ns & Hp & Hs). unfold handleNodeDrag in Hd.
    destruct (updateCodeFromNodes (tikzCode st) (nodes st))
      as [updatedCode|[|]]; [| |discriminate].
    + destruct (commit st _) as [st'|] eqn:Hc; [|discriminate].
      injection Hd as <-. cbn [next].
      eapply commit_parsed; eassumption.
    + injection Hd as <-. exists ns; split; [exact Hp|].
      now apply sameButPosition_drag.
  - destruct IH as (ns & Hp & Hs). eapply commit_parsed; eassumption.
Qed.

Lemma scenarioDraggedState_reachable : reachable scenarioDraggedState.
Proof.
  assert (H : exists st o,
             opened scenarioText = Some st
             /\ handleNodeDrag st (js "a") (dragTo 150 150) = Some o
             /\ next o = scenarioDraggedState).
  { do 2 eexists. split; [vm_compute; reflexivity|].
    split; vm_compute; reflexivity. }
  destruct H as (st & o & H1 & H2 & <-).
  eapply reach_drag; [|exact H2].
  eapply reach_change; [apply reach_init | exact H1].
Qed.

Lemma parsed_names code ns cs :
  parseTikZCode code = Some (ns, cs) ->
  forall n, In n ns -> name n <> [] /\ ~ In ")"%char (name n).
Proof.
  intros Hp n Hin.
  destruct (parseTikZCode_nodes code) as (ml & cs' & Hml & Hp').
  rewrite Hp in Hp'; injection Hp' as -> _.
  apply in_flat_map in Hin as (mt & Hmt & Hn).
  destruct (nodeBody_one mt) as [[_ E]|(_ & n' & E & Hname & _)];
    rewrite E in Hn; [destruct Hn | destruct Hn as [<-|[]]].
  destruct (@nodeMatches_declaration code ml mt Hml Hmt)
    as (_ & _ & _ & _ & _ & _ & _ & _ & _ & _ & _ & _ & _ & H1 & H2 & _).
  rewrite Hname. auto.
Qed.

Lemma Forall2_In_r {A B : Type} (P : A -> B -> Prop) l l' :
  Forall2 P l l' -> forall b, In b l' -> exists a, In a l /\ P a b.
Proof.
  induction 1 as [|a b l l' Hab _ IH]; intros b' [].
  - subst. exists a; simpl; auto.
  - destruct (IH b' H) as (a' & Ha' & HP). exists a'; simpl; auto.
Qed.

Lemma Forall2_In_l {A B : Type} (P : A -> B -> Prop) l l' :
  Forall2 P l l' -> forall a, In a l -> exists b, In b l' /\ P a b.
Proof.
  induction 1 as [|a b l l' Hab _ IH]; intros a' [].
  - subst. exists b; simpl; auto.
  - destruct (IH a' H) as (b' & Hb' & HP). exists b'; simpl; auto.
Qed.

(** X7: in every state the component reaches (by setting the text and by
    dragging), the nodes are, one for one and in order, the nodes parsed
    from the text that is shown, with the same names, labels and shape
    classes (a drag changes positions only); the connections are exactly
    those parsed from that text; and every name is non-empty and has no
    closing parenthesis in it. *)
Theorem state_follows_text (st : state) (Hreach : reachable st) :
  exists ns,
    parseTikZCode (tikzCode st) = Some (ns, connections st)
    /\ map name (nodes st) = map name ns
    /\ map text (nodes st) = map text ns
    /\ map styleType (nodes st) = map styleType ns
    /\ forall n, In n (nodes st) -> name n <> [] /\ ~ In ")"%char (name n).
Proof.
  destruct (reachable_parsed Hreach) as (ns & Hp & Hs).
  exists ns. split; [exact Hp|].
  assert (Hmaps : map name (nodes st) = map name ns
                  /\ map text (nodes st) = map text ns
                  /\ map styleType (nodes st) = map styleType ns).
  { clear Hp. induction Hs as [|n m ns ms (H1 & H2 & H3) _ (I1 & I2 & I3)];
      [auto|]. simpl. rewrite I1, I2, I3, H1, H2, H3. auto. }
  destruct Hmaps as (H1 & H2 & H3). repeat split; try assumption.
  - destruct (Forall2_In_r Hs n H) as (n0 & Hin & Hn & _).
    rewrite <- Hn. now apply (parsed_names _ Hp n0).
  - destruct (Forall2_In_r Hs n H) as (n0 & Hin & Hn & _).
    rewrite <- Hn. now apply (parsed_names _ Hp n0).
Qed.

Lemma state_follows_text_witness :
  exists ns,
    parseTikZCode (tikzCode scenarioDraggedState)
    = Some (ns, connections scenarioDraggedState)
    /\ map name (nodes scenarioDraggedState) = map name ns
    /\ map text (nodes scenarioDraggedState) = map text ns
    /\ map styleType (nodes scenarioDraggedState) = map styleType ns
    /\ forall n, In n (nodes scenarioDraggedState) ->
                 name n <> [] /\ ~ In ")"%char (name n).
Proof.
  exact (state_follows_text scenarioDraggedState_reachable).
Defined.

Lemma findNode_exists nodes n :
  In n nodes -> exists n', findNode nodes (name n) = Some n'.
Proof.
  intros Hin. destruct (findNode nodes (name n)) as [n'|] eqn:E; [eauto|].
  unfold findNode in E. apply (find_none _ _ E) in Hin.
  now rewrite eqb_refl in Hin.
Qed.

(** X8: in every state the component reaches, every connection is drawn:
    both its ends are found among the nodes, and its line runs between
    the current positions of the first node of each name, dashed lines
    in grey "#999" with dashes "5,5", the others in "#666". *)
Theorem every_connection_is_drawn (st : state) (Hreach : reachable st) :
  forall c, In c (connections st) ->
    exists fromNode toNode,
      findNode (nodes st) (from c) = Some fromNode
      /\ findNode (nodes st) (to c) = Some toNode
      /\ connectionLine (nodes st) c
         = Some (mkLine (x fromNode) (y fromNode) (x toNode) (y toNode)
                        (if dashed c then js "#999" else js "#666")
                        (if dashed c then js "5,5" else js "0")).
Proof.
  intros c Hin.
  destruct (reachable_parsed Hreach) as (ns & Hp & Hs).
  destruct (parseTikZCode_total (tikzCode st)) as (ml & al & _ & _ & Hp').
  rewrite Hp in Hp'. injection Hp' as Hns Hcs.
  rewrite Hcs in Hin.
  assert (Hnil : forall c0 : connection, In c0 [] ->
            (exists n, In n (fold_left nodeBody ml []) /\ name n = from c0)
            /\ (exists n, In n (fold_left nodeBody ml []) /\ name n = to c0))
    by (intros ? []).
  destruct (@fold_arrowBody_ends (fold_left nodeBody ml []) al [] Hnil c Hin)
    as [(n1 & Hin1 & H1) (n2 & Hin2 & H2)].
  rewrite <- Hns in Hin1, Hin2.
  destruct (Forall2_In_l Hs n1 Hin1) as (m1 & Hm1 & E1 & _).
  destruct (Forall2_In_l Hs n2 Hin2) as (m2 & Hm2 & E2 & _).
  destruct (findNode_exists _ _ Hm1) as (f & Hf).
  destruct (findNode_exists _ _ Hm2) as (t & Ht).
  rewrite <- E1, H1 in Hf. rewrite <- E2, H2 in Ht.
  exists f, t. unfold connectionLine. rewrite Hf, Ht. auto.
Qed.

Lemma every_connection_is_drawn_witness :
  length (connections scenarioDraggedState) = 1
  /\ Forall (fun c => exists l, connectionLine (nodes scenarioDraggedState) c = Some l)
            (connections scenarioDraggedState).
Proof.
  split; [reflexivity|]. apply Forall_forall; intros c Hin.
  destruct (every_connection_is_drawn scenarioDraggedState_reachable c Hin)
    as (f & t & _ & _ & Hl).
  eauto.
Defined.

(** ** Names with an opening parenthesis *)

Lemma step_paren_plain (c : ascii) :
  plainChar c = true ->
  forall st la,
    p_mode st = MParen ->
    step st c la = inl (push_term (open_group st true) (lit c) TAtom).
Proof.
  destruct c as [[] [] [] [] [] [] [] []]; intros H st la Hmode;
    try discriminate H; unfold step; rewrite Hmode; reflexivity.
Qed.

Lemma run_clause_tail_any stack g alts seq n :
  run (mkP stack (mkFrame g alts seq) n MNormal) (js "\)\s*at\s*\([^)]+\)")
  = inl (mkP stack (mkFrame g alts (clauseTailTerms ++ seq)) n MNormal).
Proof. reflexivity. Qed.

(** After an opening parenthesis, plain characters and the rest of the
    template leave the group open. *)
Lemma run_open_group (p2 : jsstr) stack frame n :
  plainName p2 = true ->
  exists st,
    run (mkP stack frame n MParen) (p2 ++ js "\)\s*at\s*\([^)]+\)") = inl st
    /\ p_stack st <> [].
Proof.
  intros Hplain. destruct p2 as [|c p2].
  - destruct frame as [g alts seq].
    eexists; split; [vm_compute; reflexivity | discriminate].
  - simpl in Hplain; apply andb_true_iff in Hplain as [Hc Hp2].
    cbn [app run]. rewrite (step_paren_plain _ Hc) by reflexivity.
    rewrite run_plain by (reflexivity || assumption).
    unfold open_group, push_term; cbn [p_cur p_stack p_ngroups f_group f_alts f_seq].
    rewrite fold_push_lit, run_clause_tail_any.
    eexists; split; [reflexivity | discriminate].
Qed.

Lemma step_open_parenthesis stack frame n la :
  step (mkP stack frame n MNormal) "("%char la = inl (mkP stack frame n MParen).
Proof. reflexivity. Qed.

Lemma compile_open_parenthesis (p1 p2 : jsstr) :
  plainName p1 = true -> plainName p2 = true ->
  compile (clausePattern (p1 ++ "("%char :: p2)) = inr ESyntax.
Proof.
  intros H1 H2. unfold compile, clausePattern.
  rewrite run_clause_head, <- app_assoc, run_plain by (reflexivity || assumption).
  rewrite fold_push_lit.
  change (("("%char :: p2) ++ js "\)\s*at\s*\([^)]+\)")
    with ("("%char :: (p2 ++ js "\)\s*at\s*\([^)]+\)")).
  cbn [run]. rewrite step_open_parenthesis.
  destruct (run_open_group p2 [] (mkFrame None []
              (rev (map (fun c => (lit c, TAtom)) p1) ++ [(lit "(", TAtom)])) 0 H2)
    as (st & Hrun & Hstack).
  rewrite Hrun. unfold finish.
  destruct (p_mode st); destruct (p_stack st); congruence.
Qed.

(** X9: a node whose name has an opening parenthesis among otherwise plain
    characters makes [new RegExp] throw: rewriting any text against a
    list that holds such a node (after nodes with plain names) returns
    nothing, and a drag in a state with such nodes raises the error,
    keeps the text, and still moves the node. *)
Theorem open_parenthesis_in_name_throws (p1 p2 : jsstr) (n : node)
    (ns1 ns2 : list node)
    (H1 : plainName p1 = true) (H2 : plainName p2 = true)
    (Hname : name n = p1 ++ "("%char :: p2)
    (Hbefore : forallb (fun n => plainName (name n)) ns1 = true) :
  (forall code, updateCodeFromNodes code (ns1 ++ n :: ns2) = inr ESyntax)
  /\ (forall st nodeName data,
        nodes st = ns1 ++ n :: ns2 ->
        handleNodeDrag st nodeName data
        = Some (mkOutcome
                  (mkState (tikzCode st) (dragNodes nodeName data (nodes st))
                           (connections st))
                  (Some ESyntax))).
Proof.
  assert (Hthrow : forall code,
            updateCodeFromNodes code (ns1 ++ n :: ns2) = inr ESyntax).
  { induction ns1 as [|n1 ns1 IH]; intros code.
    - cbn [app updateCodeFromNodes]. unfold rewriteNode.
      now rewrite Hname, compile_open_parenthesis.
    - simpl in Hbefore; apply andb_true_iff in Hbefore as [Hn1 Hb].
      cbn [app updateCodeFromNodes].
      destruct (rewriteNode_plain code n1 Hn1) as (out & -> & _).
      now apply IH. }
  split; [exact Hthrow|].
  intros st nodeName data Hnodes. unfold handleNodeDrag.
  now rewrite Hnodes, Hthrow.
Qed.

Lemma open_parenthesis_in_name_throws_witness :
  updateCodeFromNodes parenText [mkNode (js "a(b") (ofZ 0) (ofZ 0) [] rectangle]
  = inr ESyntax.
Proof.
  apply (open_parenthesis_in_name_throws (js "a") (js "b")
           (mkNode (js "a(b") (ofZ 0) (ofZ 0) [] rectangle) [] []);
    reflexivity.
Defined.

(** ** The matcher finds what is there *)

Section MatcherComplete.

Variable R : Type.

Lemma m_seq_lit ch r2 i s c (k : cont R) :
  m (RSeq (RSet false [CChar ch]) r2) i (ch :: s) c k = m r2 (S i) s c k.
Proof. cbn [m]. unfold set_mem; simpl. now rewrite Ascii.eqb_refl. Qed.

Lemma m_lit_here ch i s c (k : cont R) :
  m (RSet false [CChar ch]) i (ch :: s) c k = k (S i) s c.
Proof. cbn [m]. unfold set_mem; simpl. now rewrite Ascii.eqb_refl. Qed.

(** A greedy repetition of a class takes the longest run, when the rest
    of the pattern then succeeds. *)
Lemma star_class_longest neg items rest (k : cont R) x :
  stopsAt neg items rest = true ->
  forall w fuel i c,
    Forall (fun ch => set_mem neg items ch = true) w ->
    length w < fuel ->
    k (i + length w) rest c = Some x ->
    star_loop (fun i s c k => m (RSet neg items) i s (clear (groups (RSet neg items)) c) k)
              true fuel i (w ++ rest) c k = Some x.
Proof.
  intros Hstop. induction w as [|ch w IH]; intros fuel i c Hw Hfuel Hk;
    (destruct fuel as [|fuel]; [simpl in Hfuel; lia|]); cbn [star_loop app].
  - cbn [m groups clear fold_left]. rewrite Nat.add_0_r in Hk.
    destruct rest as [|ch rest]; [exact Hk|].
    simpl in Hstop. apply negb_true_iff in Hstop. now rewrite Hstop.
  - inversion Hw as [|? ? Hch Hw']; subst.
    cbn [m groups clear fold_left]. rewrite Hch.
    replace (S i =? i) with false by (symmetry; apply Nat.eqb_neq; lia).
    rewrite IH; [reflexivity | assumption | simpl in Hfuel; lia |].
    now replace (S i + length w) with (i + length (ch :: w)) by (simpl; lia).
Qed.

Lemma m_star_class neg items w rest i c (k : cont R) x :
  Forall (fun ch => set_mem neg items ch = true) w ->
  stopsAt neg items rest = true ->
  k (i + length w) rest c = Some x ->
  m (RStar true (RSet neg items)) i (w ++ rest) c k = Some x.
Proof.
  intros Hw Hstop Hk. cbn [m].
  apply star_class_longest; auto. rewrite length_app; lia.
Qed.

Lemma m_seq_star neg items r2 w rest i c (k : cont R) x :
  Forall (fun ch => set_mem neg items ch = true) w ->
  stopsAt neg items rest = true ->
  m r2 (i + length w) rest c k = Some x ->
  m (RSeq (RStar true (RSet neg items)) r2) i (w ++ rest) c k = Some x.
Proof.
  intros Hw Hstop Hk.
  change (m (RStar true (RSet neg items)) i (w ++ rest) c
            (fun i' s' c' => m r2 i' s' c' k) = Some x).
  now apply m_star_class.
Qed.

Lemma m_group_star n neg items w rest i c (k : cont R) x :
  Forall (fun ch => set_mem neg items ch = true) w ->
  stopsAt neg items rest = true ->
  k (i + length w) rest (set_cap (n - 1) (Some w) c) = Some x ->
  m (RGroup n (RStar true (RSet neg items))) i (w ++ rest) c k = Some x.
Proof.
  intros Hw Hstop Hk.
  change (m (RStar true (RSet neg items)) i (w ++ rest) c
            (fun i' s' c' =>
               k i' s' (set_cap (n - 1) (Some (firstn (i' - i) (w ++ rest))) c'))
          = Some x).
  apply m_star_class; auto.
  replace (i + length w - i) with (length w) by lia.
  now rewrite firstn_length_app.
Qed.

Lemma m_group_plus n neg items w rest i c (k : cont R) x :
  w <> [] ->
  Forall (fun ch => set_mem neg items ch = true) w ->
  stopsAt neg items rest = true ->
  k (i + length w) rest (set_cap (n - 1) (Some w) c) = Some x ->
  m (RGroup n (RSeq (RSet neg items) (RStar true (RSet neg items))))
    i (w ++ rest) c k = Some x.
Proof.
  intros Hne Hw Hstop Hk. destruct w as [|ch w]; [congruence|].
  inversion Hw as [|? ? Hch Hw']; subst.
  cbn [m app]. rewrite Hch.
  change (m (RStar true (RSet neg items)) (S i) (w ++ rest) c
            (fun i' s' c' =>
               k i' s' (set_cap (n - 1)
                                (Some (firstn (i' - i) (ch :: w ++ rest))) c'))
          = Some x).
  apply m_star_class; auto.
  replace (S i + length w - i) with (length (ch :: w)) by (cbn [length]; lia).
  rewrite (firstn_length_app (ch :: w) rest) by reflexivity.
  now replace (S i + length w) with (i + length (ch :: w)) by (cbn [length]; lia).
Qed.

Lemma m_seq_group_star n neg items r2 w rest i c (k : cont R) x :
  Forall (fun ch => set_mem neg items ch = true) w ->
  stopsAt neg items rest = true ->
  m r2 (i + length w) rest (set_cap (n - 1) (Some w) c) k = Some x ->
  m (RSeq (RGroup n (RStar true (RSet neg items))) r2) i (w ++ rest) c k = Some x.
Proof.
  intros Hw Hstop Hk.
  change (m (RGroup n (RStar true (RSet neg items))) i (w ++ rest) c
            (fun i' s' c' => m r2 i' s' c' k) = Some x).
  now apply m_group_star.
Qed.

Lemma m_seq_group_plus n neg items r2 w rest i c (k : cont R) x :
  w <> [] ->
  Forall (fun ch => set_mem neg items ch = true) w ->
  stopsAt neg items rest = true ->
  m r2 (i + length w) rest (set_cap (n - 1) (Some w) c) k = Some x ->
  m (RSeq (RGroup n (RSeq (RSet neg items) (RStar true (RSet neg items)))) r2)
    i (w ++ rest) c k = Some x.
Proof.
  intros Hne Hw Hstop Hk.
  change (m (RGroup n (RSeq (RSet neg items) (RStar true (RSet neg items))))
            i (w ++ rest) c (fun i' s' c' => m r2 i' s' c' k) = Some x).
  now apply m_group_plus.
Qed.

End MatcherComplete.

Lemma lacks_class (x : ascii) (w : jsstr) :
  lacks x w = true -> Forall (fun ch => set_mem true [CChar x] ch = true) w.
Proof.
  unfold lacks. induction w as [|ch w IH]; simpl; [constructor|].
  intros H. apply negb_true_iff, orb_false_iff in H as [H1 H2].
  constructor.
  - unfold set_mem; simpl. rewrite Ascii.eqb_sym, H1. reflexivity.
  - apply IH. now rewrite H2.
Qed.

Lemma spaces_class (w : jsstr) :
  spaces w = true -> Forall (fun ch => set_mem false [CSpace] ch = true) w.
Proof.
  unfold spaces. induction w as [|ch w IH]; simpl; [constructor|].
  intros H. apply andb_true_iff in H as [H1 H2].
  constructor; [|now apply IH].
  unfold set_mem; simpl. now rewrite H1.
Qed.

Lemma nonempty_neq (w : jsstr) : nonempty w = true -> w <> [].
Proof. destruct w; [discriminate | discriminate]. Qed.

Lemma compatible_startsWith p : forall s t,
  compatible p s = false -> startsWith p (s ++ t) = false.
Proof.
  induction p as [|x p IH]; intros [|y s] t; simpl; try discriminate.
  intros H. apply andb_false_iff in H as [H|H]; [now rewrite H|].
  rewrite (IH _ _ H). apply andb_false_r.
Qed.

Lemma search_eq re i s :
  search re i s
  = match m (re_body re) i s (repeat None (re_ngroups re))
            (fun e _ c => Some (mkMatch i e c)) with
    | Some r => Some r
    | None => match s with [] => None | _ :: s' => search re (S i) s' end
    end.
Proof. destruct s; reflexivity. Qed.

(** ** Texts made of declarations

    A pattern that finds every declaration, and that cannot match where
    [begins] is false, reads a text made of declarations back, one match
    for each, in order; and [replace] replaces each of them. *)

Section Documents.

Variables (re : compiled) (begins : jsstr -> bool).
Variables (D : Type) (render : D -> jsstr) (capsOf : D -> caps) (ok : D -> bool).

Hypothesis silent : forall s t i c (k : cont match_result),
  begins s = false -> m (re_body re) i (s ++ t) c k = None.

Hypothesis nothing : forall i c (k : cont match_result),
  m (re_body re) i [] c k = None.

Hypothesis finds : forall d, ok d = true ->
  forall i post (k : cont match_result) x,
    k (i + length (render d)) post (capsOf d) = Some x ->
    m (re_body re) i (render d ++ post) (repeat None (re_ngroups re)) k = Some x.

Hypothesis rendered : forall d, ok d = true -> render d <> [].

Lemma search_skip sep : avoids begins sep = true ->
  forall i s, search re i (sep ++ s) = search re (i + length sep) s.
Proof.
  induction sep as [|ch sep IH]; intros H i s.
  - now rewrite Nat.add_0_r.
  - cbn [avoids] in H. apply andb_true_iff in H as [H1 H2].
    apply negb_true_iff in H1.
    rewrite search_eq, silent by assumption.
    cbn [app]. rewrite IH by assumption. f_equal. cbn [length]; lia.
Qed.

Lemma search_none tail : avoids begins tail = true ->
  forall i, search re i tail = None.
Proof.
  intros H i. rewrite <- (app_nil_r tail), search_skip by assumption.
  cbn [search]. now rewrite nothing.
Qed.

Lemma search_here d : ok d = true ->
  forall i post,
    search re i (render d ++ post)
    = Some (mkMatch i (i + length (render d)) (capsOf d)).
Proof.
  intros H i post. rewrite search_eq.
  now rewrite (@finds d H i post _ (mkMatch i (i + length (render d)) (capsOf d))).
Qed.

Lemma document_length items tail :
  forallb (fun it => avoids begins (fst it) && ok (snd it)) items = true ->
  length items <= length (document render items tail).
Proof.
  induction items as [|[b d] items IH]; cbn [forallb document length fst snd];
    [lia|].
  intros H. apply andb_true_iff in H as [H1 H2].
  apply andb_true_iff in H1 as [_ H1].
  apply rendered in H1. apply IH in H2. rewrite !length_app.
  destruct (render d); [congruence|]. cbn [length]. lia.
Qed.

Lemma matchList_document tail : avoids begins tail = true ->
  forall items,
    forallb (fun it => avoids begins (fst it) && ok (snd it)) items = true ->
    forall pre fuel, length items < fuel ->
      matchList re (pre ++ document render items tail) fuel (length pre)
      = Some (documentMatches render capsOf (length pre) items).
Proof.
  intros Htail. induction items as [|[b d] items IH]; intros Hok pre fuel Hfuel;
    (destruct fuel as [|fuel]; [cbn [length] in Hfuel; lia|]);
    cbn [matchList document documentMatches]; unfold exec.
  - replace (length (pre ++ tail) <? length pre) with false
      by (symmetry; apply Nat.ltb_ge; rewrite length_app; lia).
    rewrite skipn_length_app by reflexivity.
    now rewrite search_none.
  - cbn [forallb fst snd] in Hok. apply andb_true_iff in Hok as [H1 Hok].
    apply andb_true_iff in H1 as [Hb Hd].
    replace (length (pre ++ b ++ render d ++ document render items tail)
             <? length pre) with false
      by (symmetry; apply Nat.ltb_ge; rewrite length_app; lia).
    rewrite skipn_length_app by reflexivity.
    rewrite search_skip, search_here by assumption.
    cbn [m_end m_index].
    replace (length pre + length b + length (render d) =? length pre + length b)
      with false
      by (symmetry; apply Nat.eqb_neq; pose proof (rendered Hd);
          destruct (render d); [congruence | cbn [length]; lia]).
    replace (pre ++ b ++ render d ++ document render items tail)
      with ((pre ++ b ++ render d) ++ document render items tail)
      by now rewrite <- !app_assoc.
    replace (length pre + length b + length (render d))
      with (length (pre ++ b ++ render d))
      by (rewrite !length_app; lia).
    rewrite IH; [reflexivity | assumption | cbn [length] in Hfuel; lia].
Qed.

Lemma matchList_of_document items tail :
  placed begins ok items tail = true ->
  matchList re (document render items tail)
            (S (length (document render items tail))) 0
  = Some (documentMatches render capsOf 0 items).
Proof.
  unfold placed. intros H. apply andb_true_iff in H as [Hok Htail].
  apply (@matchList_document tail Htail items Hok []).
  pose proof (@document_length items tail Hok).
  cbn [length]. lia.
Qed.

(** [replace], when the template expands to [out d] at the match of the
    declaration [d]. *)
Lemma replace_from_document str template (out : D -> jsstr) tail :
  (forall d i e, ok d = true ->
     expand str (mkMatch i e (capsOf d)) template = out d) ->
  avoids begins tail = true ->
  forall items,
    forallb (fun it => avoids begins (fst it) && ok (snd it)) items = true ->
    forall fuel i, length items < fuel ->
      replace_from re str template fuel i (document render items tail)
      = document out items tail.
Proof.
  intros Ht Htail. induction items as [|[b d] items IH]; intros Hok fuel i Hfuel;
    (destruct fuel as [|fuel]; [cbn [length] in Hfuel; lia|]);
    cbn [replace_from document].
  - now rewrite search_none.
  - cbn [forallb fst snd] in Hok. apply andb_true_iff in Hok as [H1 Hok].
    apply andb_true_iff in H1 as [Hb Hd].
    rewrite search_skip, search_here by assumption.
    cbn [m_end m_index].
    replace (i + length b + length (render d) =? i + length b) with false
      by (symmetry; apply Nat.eqb_neq; pose proof (rendered Hd);
          destruct (render d); [congruence | cbn [length]; lia]).
    rewrite Ht by assumption.
    rewrite firstn_length_app by lia.
    rewrite (app_assoc b (render d)).
    rewrite skipn_length_app by (rewrite length_app; lia).
    rewrite IH by (assumption || (cbn [length] in Hfuel; lia)).
    now rewrite <- app_assoc.
Qed.

Lemma replace_document_expand template (out : D -> jsstr) items tail :
  (forall str d i e, ok d = true ->
     expand str (mkMatch i e (capsOf d)) template = out d) ->
  placed begins ok items tail = true ->
  replace re (document render items tail) template
  = document out items tail.
Proof.
  unfold placed, replace. intros Ht H. apply andb_true_iff in H as [Hok Htail].
  apply replace_from_document; try assumption; [apply Ht|].
  pose proof (@document_length items tail Hok). lia.
Qed.

(** [replace] with a template that has no [$] in it. *)
Lemma replace_document template items tail :
  ~ In "$"%char template ->
  placed begins ok items tail = true ->
  replace re (document render items tail) template
  = document (fun _ => template) items tail.
Proof.
  intros Ht. apply replace_document_expand.
  intros; now apply expand_plain.
Qed.

End Documents.

(** ** The two patterns of [parseTikZCode] on declarations *)

Lemma m_seq_lit_step (R : Type) ch r2 i s c (k : cont R) :
  m (RSeq (RSet false [CChar ch]) r2) i s c k
  = match s with
    | ch' :: s' => if Ascii.eqb ch' ch then m r2 (S i) s' c k else None
    | [] => None
    end.
Proof.
  destruct s as [|ch' s]; [reflexivity|].
  cbn [m]. unfold set_mem; simpl. now rewrite orb_false_r.
Qed.

Ltac miss_marker s H :=
  repeat (rewrite m_seq_lit_step;
          destruct s as [|?ch s]; [reflexivity|];
          let E := fresh "E" in
          destruct (Ascii.eqb ch _) eqn:E;
          [apply Ascii.eqb_eq in E; subst ch | reflexivity]);
  vm_compute in H; discriminate H.

Lemma nodeRegex_marker i s c (k : cont match_result) :
  startsWith nodeMarker s = false -> m (re_body nodeRegex) i s c k = None.
Proof.
  intros H. unfold nodeRegex; cbn [re_body]. miss_marker s H.
Qed.

Lemma arrowRegex_marker i s c (k : cont match_result) :
  startsWith arrowMarker s = false -> m (re_body arrowRegex) i s c k = None.
Proof.
  intros H. unfold arrowRegex; cbn [re_body]. miss_marker s H.
Qed.

Ltac split_ands H :=
  repeat match type of H with
         | _ && _ = true =>
             let H' := fresh "Hok" in
             apply andb_true_iff in H as [H H']
         end.

Ltac class_goal :=
  solve [ reflexivity
        | apply lacks_class; assumption
        | apply spaces_class; assumption
        | apply nonempty_neq; assumption ].

Ltac read_part :=
  first [ rewrite m_seq_lit
        | apply m_seq_group_star; [class_goal | class_goal |]
        | apply m_seq_group_plus; [class_goal | class_goal | class_goal |]
        | apply m_seq_star; [class_goal | class_goal |] ].

Lemma nodeRegex_finds d : wellFormed d = true ->
  forall i post (k : cont match_result) x,
    k (i + length (declText d)) post (declCaps d) = Some x ->
    m (re_body nodeRegex) i (declText d ++ post)
      (repeat None (re_ngroups nodeRegex)) k = Some x.
Proof.
  destruct d as [style nm coords label ws1 ws2 ws3 ws4].
  unfold wellFormed, declText, declCaps, nodeDeclaration.
  cbn [d_style d_name d_coords d_label d_ws1 d_ws2 d_ws3 d_ws4].
  intros H i post k x Hk. split_ands H.
  rewrite <- !app_assoc.
  unfold nodeRegex; cbn [re_body re_ngroups repeat js list_ascii_of_string app].
  repeat read_part. rewrite m_lit_here.
  match goal with
  | |- k ?e _ _ = _ =>
      replace e with
        (i + length (js "\node[" ++ style ++ js "]" ++ ws1 ++ js "(" ++ nm
                     ++ js ")" ++ ws2 ++ js "at" ++ ws3 ++ js "(" ++ coords
                     ++ js ")" ++ ws4 ++ js "{" ++ label ++ js "}"))
        by (rewrite !length_app; cbn [length js list_ascii_of_string]; lia)
  end.
  exact Hk.
Qed.

Lemma arrowRegex_finds a : wellFormedArrow a = true ->
  forall i post (k : cont match_result) x,
    k (i + length (arrowText a)) post (arrowCaps a) = Some x ->
    m (re_body arrowRegex) i (arrowText a ++ post)
      (repeat None (re_ngroups arrowRegex)) k = Some x.
Proof.
  destruct a as [style fromName toName ws1 ws2 ws3].
  unfold wellFormedArrow, arrowText, arrowCaps, arrowDeclaration.
  cbn [a_style a_from a_to a_ws1 a_ws2 a_ws3].
  intros H i post k x Hk. split_ands H.
  rewrite <- !app_assoc.
  unfold arrowRegex; cbn [re_body re_ngroups repeat js list_ascii_of_string app].
  repeat read_part. rewrite m_lit_here.
  match goal with
  | |- k ?e _ _ = _ =>
      replace e with
        (i + length (js "\draw[" ++ style ++ js "]" ++ ws1 ++ js "(" ++ fromName
                     ++ js ")" ++ ws2 ++ js "--" ++ ws3 ++ js "(" ++ toName
                     ++ js ")"))
        by (rewrite !length_app; cbn [length js list_ascii_of_string]; lia)
  end.
  exact Hk.
Qed.

Lemma declText_nonempty d : wellFormed d = true -> declText d <> [].
Proof. intros _. destruct d; discriminate. Qed.

Lemma arrowText_nonempty a : wellFormedArrow a = true -> arrowText a <> [].
Proof. intros _. destruct a; discriminate. Qed.

Lemma nodeMatches_document items tail :
  placed (compatible nodeMarker) wellFormed items tail = true ->
  nodeMatches (document declText items tail)
  = Some (documentMatches declText declCaps 0 items).
Proof.
  intros H. unfold nodeMatches.
  apply (@matchList_of_document nodeRegex (compatible nodeMarker) declaration
           declText declCaps wellFormed);
    [ intros; now apply nodeRegex_marker, compatible_startsWith
    | intros; now apply nodeRegex_marker
    | intros; now apply nodeRegex_finds
    | apply declText_nonempty
    | assumption ].
Qed.

Lemma arrowMatches_document items tail :
  placed (compatible arrowMarker) wellFormedArrow items tail = true ->
  arrowMatches (document arrowText items tail)
  = Some (documentMatches arrowText arrowCaps 0 items).
Proof.
  intros H. unfold arrowMatches.
  apply (@matchList_of_document arrowRegex (compatible arrowMarker) arrow
           arrowText arrowCaps wellFormedArrow);
    [ intros; now apply arrowRegex_marker, compatible_startsWith
    | intros; now apply arrowRegex_marker
    | intros; now apply arrowRegex_finds
    | apply arrowText_nonempty
    | assumption ].
Qed.

Lemma nodes_of_matches items : forall i,
  flat_map (nodeBody []) (documentMatches declText declCaps i items)
  = flat_map (fun it => nodeOfDeclaration (snd it)) items.
Proof.
  induction items as [|[b d] items IH]; intros i; [reflexivity|].
  cbn [documentMatches flat_map snd]. now rewrite IH.
Qed.

Lemma arrowBody_app nodes acc mt :
  arrowBody nodes acc mt = acc ++ arrowBody nodes [] mt.
Proof.
  unfold arrowBody.
  destruct (findNode nodes (capture mt 2)), (findNode nodes (capture mt 3));
    cbn [app]; now rewrite ?app_nil_r.
Qed.

Lemma fold_arrowBody nodes al : forall acc,
  fold_left (arrowBody nodes) al acc = acc ++ flat_map (arrowBody nodes []) al.
Proof.
  induction al as [|mt al IH]; intros acc; simpl; [now rewrite app_nil_r|].
  now rewrite IH, arrowBody_app, <- app_assoc.
Qed.

Lemma connections_of_matches nodes items : forall i,
  flat_map (arrowBody nodes []) (documentMatches arrowText arrowCaps i items)
  = flat_map (fun it => connectionOfArrow nodes (snd it)) items.
Proof.
  induction items as [|[b a] items IH]; intros i; [reflexivity|].
  cbn [documentMatches flat_map snd]. now rewrite IH.
Qed.

(** X10: a text made of well-formed node declarations, with between and
    after them text in which no [\node[] begins, is read completely:
    [parseTikZCode] gives, for each declaration in order, what the body
    of its first loop makes of the four parts of that declaration, and
    nothing else. *)
Theorem declarations_all_read items tail :
  placed (compatible nodeMarker) wellFormed items tail = true ->
  exists cs,
    parseTikZCode (document declText items tail)
    = Some (flat_map (fun it => nodeOfDeclaration (snd it)) items, cs).
Proof.
  intros H.
  destruct (parseTikZCode_nodes (document declText items tail))
    as (ml & cs & Hml & Hp).
  rewrite (nodeMatches_document items tail H) in Hml. injection Hml as <-.
  exists cs. now rewrite Hp, nodes_of_matches.
Qed.

Lemma declarations_all_read_witness :
  placed (compatible nodeMarker) wellFormed scenarioItems scenarioTail = true
  /\ exists cs,
       parseTikZCode scenarioText
       = Some (flat_map (fun it => nodeOfDeclaration (snd it)) scenarioItems, cs).
Proof.
  split; [vm_compute; reflexivity|].
  exact (@declarations_all_read scenarioItems scenarioTail eq_refl).
Defined.

(** X11: a text made of well-formed connection declarations, with between
    and after them text in which no [\draw[] begins, gives one
    connection for each declaration whose two ends are names of parsed
    nodes, in order, and nothing else. *)
Theorem connections_all_read items tail :
  placed (compatible arrowMarker) wellFormedArrow items tail = true ->
  exists nodes,
    parseTikZCode (document arrowText items tail)
    = Some (nodes, flat_map (fun it => connectionOfArrow nodes (snd it)) items).
Proof.
  intros H.
  destruct (parseTikZCode_total (document arrowText items tail))
    as (ml & al & _ & Hal & Hp).
  rewrite (arrowMatches_document items tail H) in Hal. injection Hal as <-.
  eexists. rewrite Hp, fold_arrowBody, connections_of_matches. reflexivity.
Qed.

Lemma connections_all_read_witness :
  placed (compatible arrowMarker) wellFormedArrow scenarioArrows (js ";") = true
  /\ exists nodes,
       parseTikZCode scenarioText
       = Some (nodes,
               flat_map (fun it => connectionOfArrow nodes (snd it)) scenarioArrows).
Proof.
  split; [vm_compute; reflexivity|].
  exact (@connections_all_read scenarioArrows (js ";") eq_refl).
Defined.

(** ** The pattern of [updateCodeFromNodes] on clauses *)

Lemma strip_app_clash p : forall s t, strip p s = Clash -> strip p (s ++ t) = Clash.
Proof.
  induction p as [|x p IH]; intros [|y s] t; cbn [strip app]; try discriminate.
  destruct (Ascii.eqb x y); [apply IH | reflexivity].
Qed.

Lemma strip_app_after p : forall s t s1,
  strip p s = After s1 -> strip p (s ++ t) = After (s1 ++ t).
Proof.
  induction p as [|x p IH]; intros [|y s] t s1; cbn [strip app];
    try discriminate.
  - intros H; injection H as <-. now destruct t.
  - intros H; injection H as <-. reflexivity.
  - destruct (Ascii.eqb x y); [apply IH | discriminate].
Qed.

Lemma strip_self p : forall rest, strip p (p ++ rest) = After rest.
Proof.
  induction p as [|x p IH]; intros rest; cbn [strip app].
  - now destruct rest.
  - now rewrite Ascii.eqb_refl.
Qed.

(** A pattern that starts with the letters of [p]. *)
Lemma m_lits_strip (R : Type) (rs : list regex) (Hrs : rs <> []) p :
  forall i s c (k : cont R),
    m (mk_seq (map lit p ++ rs)) i s c k
    = match strip p s with
      | After s1 => m (mk_seq rs) (i + length p) s1 c k
      | _ => None
      end.
Proof.
  induction p as [|x p IH]; intros i s c k.
  - cbn [map app length]. rewrite Nat.add_0_r. now destruct s.
  - cbn [map app]. rewrite mk_seq_cons
      by (intros E; apply app_eq_nil in E as [_ E]; congruence).
    unfold lit at 1. rewrite m_seq_lit_step.
    destruct s as [|y s]; [reflexivity|]. cbn [strip].
    rewrite (Ascii.eqb_sym x y). destruct (Ascii.eqb y x); [|reflexivity].
    rewrite IH. cbn [length]. now rewrite Nat.add_succ_r.
Qed.

(** A greedy repetition of a class before a pattern that cannot start
    with a character of the class: the repetition takes the whole run. *)
Lemma star_class_exact (R : Type) neg items rest (k : cont R) :
  stopsAt neg items rest = true ->
  (forall i ch s c, set_mem neg items ch = true -> k i (ch :: s) c = None) ->
  forall w fuel i c,
    Forall (fun ch => set_mem neg items ch = true) w ->
    length w < fuel ->
    star_loop (fun i s c k => m (RSet neg items) i s (clear (groups (RSet neg items)) c) k)
              true fuel i (w ++ rest) c k
    = k (i + length w) rest c.
Proof.
  intros Hstop Hk. induction w as [|ch w IH]; intros fuel i c Hw Hfuel;
    (destruct fuel as [|fuel]; [simpl in Hfuel; lia|]); cbn [star_loop app].
  - cbn [m groups clear fold_left length]. rewrite Nat.add_0_r.
    destruct rest as [|ch rest]; [reflexivity|].
    simpl in Hstop. apply negb_true_iff in Hstop. now rewrite Hstop.
  - inversion Hw as [|? ? Hch Hw']; subst.
    cbn [m groups clear fold_left]. rewrite Hch.
    replace (S i =? i) with false by (symmetry; apply Nat.eqb_neq; lia).
    rewrite IH by (assumption || (simpl in Hfuel; lia)).
    replace (S i + length w) with (i + length (ch :: w)) by (cbn [length]; lia).
    destruct (k (i + length (ch :: w)) rest c); [reflexivity|].
    now apply Hk.
Qed.

Lemma m_seq_star_exact (R : Type) neg items r2 w rest i c (k : cont R) :
  Forall (fun ch => set_mem neg items ch = true) w ->
  stopsAt neg items rest = true ->
  (forall i ch s c, set_mem neg items ch = true -> m r2 i (ch :: s) c k = None) ->
  m (RSeq (RStar true (RSet neg items)) r2) i (w ++ rest) c k
  = m r2 (i + length w) rest c k.
Proof.
  intros Hw Hstop Hk. cbn [m].
  apply (@star_class_exact R neg items rest (fun i' s' c' => m r2 i' s' c' k));
    auto.
  rewrite length_app; lia.
Qed.

Lemma m_seq_plus (R : Type) neg items r2 w rest i c (k : cont R) x :
  w <> [] ->
  Forall (fun ch => set_mem neg items ch = true) w ->
  stopsAt neg items rest = true ->
  m r2 (i + length w) rest c k = Some x ->
  m (RSeq (RSeq (RSet neg items) (RStar true (RSet neg items))) r2)
    i (w ++ rest) c k = Some x.
Proof.
  intros Hne Hw Hstop Hk. destruct w as [|ch w]; [congruence|].
  inversion Hw as [|? ? Hch Hw']; subst.
  cbn [m app]. rewrite Hch.
  change (m (RStar true (RSet neg items)) (S i) (w ++ rest) c
            (fun i' s' c' => m r2 i' s' c' k) = Some x).
  apply m_star_class; auto.
  now replace (S i + length w) with (i + length (ch :: w)) by (cbn [length]; lia).
Qed.

(** The leading white space of a text, and what [trimStart] leaves. *)
Lemma trimStart_split (s : jsstr) :
  exists w, s = w ++ trimStart s
            /\ Forall (fun ch => set_mem false [CSpace] ch = true) w
            /\ stopsAt false [CSpace] (trimStart s) = true.
Proof.
  induction s as [|ch s (w & Hs & Hw & Hstop)].
  - exists []. repeat split; constructor.
  - cbn [trimStart]. destruct (isWhiteSpace ch) eqn:E.
    + exists (ch :: w). cbn [app]. rewrite <- Hs. repeat split; [|assumption].
      constructor; [|assumption]. unfold set_mem; simpl. now rewrite E.
    + exists []. repeat split; [constructor|].
      unfold stopsAt, set_mem; simpl. now rewrite E.
Qed.

Lemma clauseBody_lits (nodeName : jsstr) :
  clauseBody nodeName
  = mk_seq (map lit (js "(" ++ nodeName ++ js ")") ++ tl clauseTail).
Proof.
  unfold clauseBody. f_equal. cbn [js list_ascii_of_string app map].
  rewrite map_app. cbn [map]. rewrite <- app_assoc. reflexivity.
Qed.

Lemma space_is_not (ch x : ascii) :
  set_mem false [CSpace] ch = true -> isWhiteSpace x = false ->
  Ascii.eqb ch x = false.
Proof.
  unfold set_mem; simpl. rewrite orb_false_r. intros H Hx.
  destruct (Ascii.eqb ch x) eqn:E; [|reflexivity].
  apply Ascii.eqb_eq in E; subst. congruence.
Qed.

Lemma clause_silent (nodeName s t : jsstr) i c (k : cont match_result) :
  mayBegin nodeName s = false -> m (clauseBody nodeName) i (s ++ t) c k = None.
Proof.
  unfold mayBegin. intros H. rewrite clauseBody_lits, m_lits_strip by discriminate.
  destruct (strip (js "(" ++ nodeName ++ js ")") s) as [| |s1] eqn:E1;
    [now rewrite (strip_app_clash _ _ t E1) | discriminate |].
  rewrite (strip_app_after _ _ t E1). clear E1.
  unfold clauseTail; cbn [tl mk_seq].
  destruct (trimStart_split s1) as (w1 & Hs1 & Hw1 & Hstop1).
  destruct (trimStart s1) as [|ch1 r1]; [discriminate|]. subst s1.
  rewrite <- app_assoc.
  rewrite m_seq_star_exact;
    [ | assumption | assumption
      | intros; unfold lit; rewrite m_seq_lit_step;
        now rewrite space_is_not ].
  match goal with
  | |- m (RSeq (lit "a") (RSeq (lit "t") ?r)) ?j ?u ?c ?k = None =>
      change (m (mk_seq (map lit (js "at") ++ [r])) j u c k = None)
  end.
  rewrite m_lits_strip by discriminate.
  destruct (strip (js "at") (ch1 :: r1)) as [| |s2] eqn:E2;
    [now rewrite (strip_app_clash _ _ t E2) | discriminate |].
  rewrite (strip_app_after _ _ t E2). clear E2.
  cbn [mk_seq].
  destruct (trimStart_split s2) as (w2 & Hs2 & Hw2 & Hstop2).
  destruct (trimStart s2) as [|c0 s3]; [discriminate|]. subst s2.
  rewrite <- app_assoc.
  rewrite m_seq_star_exact;
    [ | assumption | assumption
      | intros; unfold lit; rewrite m_seq_lit_step;
        now rewrite space_is_not ].
  unfold lit at 1. rewrite m_seq_lit_step. cbn [app].
  destruct (Ascii.eqb c0 "(") eqn:E0; [|reflexivity].
  destruct s3 as [|c1 s3]; [discriminate|].
  cbn [andb] in H. apply negb_false_iff, Ascii.eqb_eq in H. subst c1.
  reflexivity.
Qed.

Lemma clause_nothing (nodeName : jsstr) i c (k : cont match_result) :
  m (clauseBody nodeName) i [] c k = None.
Proof. now rewrite clauseBody_lits, m_lits_strip by discriminate. Qed.

Ltac read_clause_part :=
  first [ rewrite m_seq_lit
        | apply m_seq_plus; [class_goal | class_goal | class_goal |]
        | apply m_seq_star; [class_goal | class_goal |] ].

Lemma clause_finds (nodeName : jsstr) cl : wellFormedClause cl = true ->
  forall i post (k : cont match_result) x,
    k (i + length (clauseText nodeName cl)) post [] = Some x ->
    m (clauseBody nodeName) i (clauseText nodeName cl ++ post) [] k = Some x.
Proof.
  destruct cl as [ws1 ws2 coords].
  unfold wellFormedClause, clauseText. cbn [c_ws1 c_ws2 c_coords].
  intros H i post k x Hk. split_ands H.
  rewrite clauseBody_lits, m_lits_strip by discriminate.
  replace ((js "(" ++ nodeName ++ js ")" ++ ws1 ++ js "at" ++ ws2 ++ js "("
            ++ coords ++ js ")") ++ post)
    with ((js "(" ++ nodeName ++ js ")") ++ ws1 ++ js "at" ++ ws2 ++ js "("
          ++ coords ++ js ")" ++ post)
    by (rewrite <- !app_assoc; reflexivity).
  rewrite strip_self.
  unfold clauseTail, lit; cbn [tl mk_seq].
  change (js "at") with ["a"%char; "t"%char].
  change (js "(") with ["("%char]. change (js ")") with [")"%char].
  cbn [app].
  repeat read_clause_part. rewrite m_lit_here.
  match goal with
  | |- k ?e _ _ = _ =>
      replace e with
        (i + length (js "(" ++ nodeName ++ js ")" ++ ws1 ++ js "at" ++ ws2
                     ++ js "(" ++ coords ++ js ")"))
        by (do 8 (cbn [js list_ascii_of_string app length];
                  rewrite ?length_app); lia)
  end.
  exact Hk.
Qed.

Lemma clauseText_nonempty (nodeName : jsstr) cl :
  wellFormedClause cl = true -> clauseText nodeName cl <> [].
Proof. intros _. destruct cl; discriminate. Qed.

(** [replace] with the pattern of a plain name and a template without
    [$], on a text given by its clauses. *)
Lemma replace_clause_document (nodeName template : jsstr) items tail :
  ~ In "$"%char template ->
  placed (mayBegin nodeName) wellFormedClause items tail = true ->
  replace (mkRe (clauseBody nodeName) 0)
          (document (clauseText nodeName) items tail) template
  = document (fun _ => template) items tail.
Proof.
  intros Ht H.
  apply (@replace_document (mkRe (clauseBody nodeName) 0) (mayBegin nodeName)
           clause (clauseText nodeName) (fun _ => []) wellFormedClause);
    [ intros; now apply clause_silent
    | intros; apply clause_nothing
    | intros; now apply clause_finds
    | apply clauseText_nonempty
    | assumption
    | assumption ].
Qed.

(** X12: one turn of the [forEach] of [updateCodeFromNodes], for a node
    with a plain name, on a text given by its clauses of that name (each
    well formed, with between and after them text in which no clause of
    the name can begin): every one of the clauses is replaced by
    [(name) at (X.XXcm,Y.YYcm)], and the text between and after them is
    kept as it is. *)
Theorem clauses_all_rewritten (n : node) items tail :
  plainName (name n) = true ->
  placed (mayBegin (name n)) wellFormedClause items tail = true ->
  rewriteNode (document (clauseText (name n)) items tail) n
  = inl (document (fun _ => clauseTemplate n) items tail).
Proof.
  intros Hplain H. unfold rewriteNode. rewrite compile_clause by assumption.
  f_equal. apply replace_clause_document; [|assumption].
  now apply clauseTemplate_plain.
Qed.

Lemma clauses_all_rewritten_witness :
  plainName (js "a") = true
  /\ placed (mayBegin (js "a")) wellFormedClause scenarioClauses
            scenarioAfterClause = true
  /\ rewriteNode scenarioText
       (mkNode (js "a") (ofZ 150) (ofZ 150) (js "AWS") ellipse)
     = inl (js "\node[cloud] (a) at (-5.00cm,3.00cm)" ++ scenarioAfterClause).
Proof.
  split; [vm_compute; reflexivity|]. split; [vm_compute; reflexivity|].
  exact (@clauses_all_rewritten
           (mkNode (js "a") (ofZ 150) (ofZ 150) (js "AWS") ellipse)
           scenarioClauses scenarioAfterClause eq_refl eq_refl).
Defined.

(** ** Positions that the rewriter has written *)

Lemma numericChar_plain (c : ascii) :
  numericChar c = true ->
  isWhiteSpace c = false /\ Ascii.eqb c "," = false /\ Ascii.eqb "c" c = false.
Proof.
  destruct c as [[] [] [] [] [] [] [] []]; intros H;
    try discriminate H; repeat split.
Qed.

Lemma numeric_avoids_cm (s : jsstr) :
  forallb numericChar s = true -> avoids (compatible (js "cm")) s = true.
Proof.
  induction s as [|c s IH]; [reflexivity|]. cbn [forallb avoids].
  intros H. apply andb_true_iff in H as [Hc Hs].
  apply numericChar_plain in Hc as (_ & _ & Hc).
  rewrite IH by assumption.
  change (compatible (js "cm") (c :: s))
    with (Ascii.eqb "c" c && compatible (js "m") s).
  now rewrite Hc.
Qed.

Lemma trimStart_no_space (s : jsstr) :
  forallb (fun c => negb (isWhiteSpace c)) s = true -> trimStart s = s.
Proof.
  destruct s as [|c s]; [reflexivity|]. cbn [forallb trimStart].
  intros H. apply andb_true_iff in H as [Hc _].
  apply negb_true_iff in Hc. now rewrite Hc.
Qed.

Lemma trim_no_space (s : jsstr) :
  forallb (fun c => negb (isWhiteSpace c)) s = true -> trim s = s.
Proof.
  intros H. unfold trim, trimEnd. rewrite (trimStart_no_space s H).
  rewrite trimStart_no_space; [apply rev_involutive|].
  rewrite forallb_forall in *. intros c Hc. apply H. now apply in_rev.
Qed.

Lemma numeric_no_space (s : jsstr) :
  forallb numericChar s = true ->
  forallb (fun c => negb (isWhiteSpace c)) s = true.
Proof.
  rewrite !forallb_forall. intros H c Hc.
  apply H, numericChar_plain in Hc as (-> & _). reflexivity.
Qed.

Lemma split_one (sep : ascii) (s : jsstr) :
  forallb (fun c => negb (Ascii.eqb c sep)) s = true -> split sep s = [s].
Proof.
  induction s as [|c s IH]; [reflexivity|]. cbn [forallb split].
  intros H. apply andb_true_iff in H as [Hc Hs].
  apply negb_true_iff in Hc. now rewrite Hc, IH.
Qed.

Lemma split_first (sep : ascii) (s rest : jsstr) :
  forallb (fun c => negb (Ascii.eqb c sep)) s = true ->
  split sep (s ++ sep :: rest) = s :: split sep rest.
Proof.
  induction s as [|c s IH]; cbn [forallb split app].
  - now rewrite Ascii.eqb_refl.
  - intros H. apply andb_true_iff in H as [Hc Hs].
    apply negb_true_iff in Hc. now rewrite Hc, IH.
Qed.

Lemma numeric_no_comma (s : jsstr) :
  forallb numericChar s = true ->
  forallb (fun c => negb (Ascii.eqb c ",")) s = true.
Proof.
  rewrite !forallb_forall. intros H c Hc.
  apply H, numericChar_plain in Hc as (_ & -> & _). reflexivity.
Qed.

Lemma cmRegex_silent s t i c (k : cont match_result) :
  compatible (js "cm") s = false -> m (re_body cmRegex) i (s ++ t) c k = None.
Proof.
  intros H. apply (compatible_startsWith _ _ t) in H.
  unfold cmRegex; cbn [re_body]. rewrite m_seq_lit_step.
  destruct (s ++ t) as [|c1 [|c2 u]]; [reflexivity | |].
  - destruct (Ascii.eqb c1 "c"); reflexivity.
  - destruct (Ascii.eqb c1 "c") eqn:E1; [|reflexivity].
    cbn [m]. unfold set_mem; cbn [existsb citem_mem xorb orb].
    destruct (Ascii.eqb c2 "m") eqn:E2; [|reflexivity].
    apply Ascii.eqb_eq in E1, E2; subst. discriminate H.
Qed.

(** [match[3].replace(/cm/g, '').trim().split(',')] on what the rewriter
    writes between the parentheses. *)
Lemma coordsOf_written (mt : match_result) (tx ty : jsstr) :
  numeric tx = true -> numeric ty = true ->
  capture mt 3 = tx ++ js "cm," ++ ty ++ js "cm" ->
  coordsOf mt = [tx; ty].
Proof.
  unfold numeric. intros Hx Hy Hc.
  apply andb_true_iff in Hx as [_ Hx]. apply andb_true_iff in Hy as [_ Hy].
  unfold coordsOf. rewrite Hc.
  change (tx ++ js "cm," ++ ty ++ js "cm")
    with (document (fun _ : unit => js "cm")
                   [(tx, tt); (","%char :: ty, tt)] []).
  rewrite (@replace_document cmRegex (compatible (js "cm")) unit
             (fun _ => js "cm") (fun _ => []) (fun _ => true));
    [ | intros; now apply cmRegex_silent
      | intros; reflexivity
      | intros d _ i post k x Hk; unfold cmRegex; cbn [re_body js list_ascii_of_string app];
        rewrite m_seq_lit, m_lit_here;
        replace (S (S i)) with (i + length (js "cm")) by (simpl; lia); exact Hk
      | discriminate
      | intros []
      | unfold placed; cbn [forallb fst snd avoids];
        rewrite !numeric_avoids_cm by assumption; reflexivity ].
  cbn [document app].
  assert (Hs : forallb (fun c => negb (isWhiteSpace c)) (tx ++ ","%char :: ty) = true).
  { rewrite forallb_app. cbn [forallb].
    now rewrite !numeric_no_space by assumption. }
  rewrite app_nil_r, trim_no_space by assumption.
  rewrite split_first, split_one by now apply numeric_no_comma.
  reflexivity.
Qed.

Lemma In_upto (p : Z) : forall n lo,
  (lo <= p < lo + Z.of_nat n)%Z -> In p (upto n lo).
Proof.
  induction n as [|n IH]; intros lo H; [lia|]. cbn [upto].
  destruct (Z.eq_dec lo p) as [->|Hne]; [now left|].
  right. apply IH. lia.
Qed.

Lemma stableX_canvas (p : Z) : (0 <= p <= 2000)%Z -> stableX p = true.
Proof.
  intros H.
  assert (Hall : forallb stableX (upto (Z.to_nat 2001) 0) = true)
    by (vm_compute; reflexivity).
  rewrite forallb_forall in Hall. apply Hall, In_upto. lia.
Qed.

Lemma stableY_canvas (p : Z) : (0 <= p <= 2000)%Z -> stableY p = true.
Proof.
  intros H.
  assert (Hall : forallb stableY (upto (Z.to_nat 2001) 0) = true)
    by (vm_compute; reflexivity).
  rewrite forallb_forall in Hall. apply Hall, In_upto. lia.
Qed.

(** X13: what the rewriter writes for a node at whole pixels of a canvas
    of 2000 by 2000 is read back as it was written: a match whose
    coordinate text is [X.XXcm,Y.YYcm] for that node gives one node, and
    the rewriter writes the same [X.XX] and [Y.YY] for it again. *)
Theorem written_position_read_back (n : node) (mt : match_result) (px py : Z) :
  x n = ofZ px -> y n = ofZ py ->
  (0 <= px <= 2000)%Z -> (0 <= py <= 2000)%Z ->
  capture mt 3 = tikzX n ++ js "cm," ++ tikzY n ++ js "cm" ->
  exists n',
    nodeBody [] mt = [n']
    /\ name n' = capture mt 2
    /\ tikzX n' = tikzX n /\ tikzY n' = tikzY n.
Proof.
  intros Hx Hy Hpx Hpy Hc.
  pose proof (stableX_canvas Hpx) as Sx. pose proof (stableY_canvas Hpy) as Sy.
  unfold stableX in Sx. unfold stableY in Sy.
  assert (Ex : tikzX (nodeAt (ofZ px) (ofZ 0)) = tikzX n)
    by (unfold tikzX, nodeAt; cbn [x]; now rewrite Hx).
  assert (Ey : tikzY (nodeAt (ofZ 0) (ofZ py)) = tikzY n)
    by (unfold tikzY, nodeAt; cbn [y]; now rewrite Hy).
  rewrite Ex in Sx. rewrite Ey in Sy.
  apply andb_true_iff in Sx as [Nx Sx]. apply andb_true_iff in Sy as [Ny Sy].
  apply eqb_eq in Sx, Sy.
  pose proof (@coordsOf_written mt _ _ Nx Ny Hc) as Hcoords.
  unfold nodeBody. rewrite Hcoords. cbn [length Nat.eqb nth app].
  eexists. split; [reflexivity|]. split; [reflexivity|].
  split; [exact Sx | exact Sy].
Qed.

Lemma written_position_read_back_witness :
  exists n',
    nodeBody [] (mkMatch 0 0 [Some (js "cloud"); Some (js "a");
                              Some (js "-5.00cm,3.00cm"); Some (js "AWS")])
    = [n']
    /\ name n' = js "a" /\ tikzX n' = js "-5.00" /\ tikzY n' = js "3.00".
Proof.
  assert (Hc : capture (mkMatch 0 0 [Some (js "cloud"); Some (js "a");
                                     Some (js "-5.00cm,3.00cm"); Some (js "AWS")]) 3
               = tikzX (mkNode (js "a") (ofZ 150) (ofZ 150) (js "AWS") ellipse)
                 ++ js "cm,"
                 ++ tikzY (mkNode (js "a") (ofZ 150) (ofZ 150) (js "AWS") ellipse)
                 ++ js "cm")
    by (vm_compute; reflexivity).
  destruct (@written_position_read_back
              (mkNode (js "a") (ofZ 150) (ofZ 150) (js "AWS") ellipse)
              _ 150%Z 150%Z eq_refl eq_refl
              ltac:(lia) ltac:(lia) Hc) as (n' & H1 & H2 & H3 & H4).
  exists n'. split; [exact H1|]. split; [exact H2|].
  split; [rewrite H3 | rewrite H4]; vm_compute; reflexivity.
Defined.

(** ** Several nodes of one name *)

Section Written.

Variable bad : ascii.
Hypothesis not_written : forall c, In c numberAlphabet -> c <> bad.

Ltac written_char :=
  apply not_written; unfold numberAlphabet; cbn [js list_ascii_of_string In];
  repeat (first [left; reflexivity | right]).

Lemma js_written (s : string) :
  forallb (fun c => existsb (Ascii.eqb c) numberAlphabet) (js s) = true ->
  Forall (fun c => c <> bad) (js s).
Proof.
  rewrite forallb_forall, Forall_forall. intros H c Hin.
  apply H, existsb_exists in Hin as (c' & Hin & E).
  apply Ascii.eqb_eq in E; subst c'. now apply not_written.
Qed.

Lemma digit_char_written (n : Z) : digit_char (n mod 10) <> bad.
Proof.
  unfold digit_char.
  assert (H : (0 <= n mod 10 < 10)%Z) by (apply Z.mod_pos_bound; lia).
  assert (Hk : Z.to_nat (n mod 10) < 10) by lia.
  revert Hk; generalize (Z.to_nat (n mod 10)) as k; intros k Hk.
  do 10 (destruct k as [|k]; [written_char|]). lia.
Qed.

Lemma digits_fuel_written fuel : forall n acc,
  Forall (fun c => c <> bad) acc ->
  Forall (fun c => c <> bad) (digits_fuel fuel n acc).
Proof.
  induction fuel as [|fuel IH]; intros n acc Hacc; simpl; [assumption|].
  assert (Forall (fun c => c <> bad) (digit_char (n mod 10) :: acc))
    by (constructor; [apply digit_char_written | assumption]).
  destruct (n <? 10)%Z; [assumption | now apply IH].
Qed.

Lemma digits_written n : Forall (fun c => c <> bad) (digits n).
Proof. apply digits_fuel_written; constructor. Qed.

Lemma toString_large_written x X :
  Forall (fun c => c <> bad) (toString_large x X).
Proof.
  unfold toString_large.
  destruct (shortest _ _ _ _ _) as [s k].
  assert (He : forall e, Forall (fun c => c <> bad) (js "e+" ++ digits e))
    by (intros e; apply Forall_app; split;
        [now apply js_written | apply digits_written]).
  assert (Hds : forall ds e, Forall (fun c => c <> bad) ds ->
            Forall (fun c => c <> bad)
                   match ds with
                   | [] => []
                   | [d] => d :: js "e+" ++ digits e
                   | d :: (_ :: _) as ds' =>
                       d :: "."%char :: ds' ++ js "e+" ++ digits e
                   end).
  { intros ds e H. destruct ds as [|d [|d' ds']]; [constructor | |].
    - inversion H; subst. constructor; [assumption | apply He].
    - inversion H; subst. constructor; [assumption|].
      constructor; [written_char|].
      apply Forall_app; split; [assumption | apply He]. }
  destruct (s =? 10 ^ k)%Z.
  - apply (Hds ["1"%char]). constructor; [written_char | constructor].
  - apply Hds, digits_written.
Qed.

Lemma fixed2_written n : Forall (fun c => c <> bad) (fixed2 n).
Proof.
  unfold fixed2.
  assert (H : Forall (fun c => c <> bad)
                     (repeat "0"%char (3 - length (digits n)) ++ digits n)).
  { apply Forall_app; split; [|apply digits_written].
    apply Forall_forall; intros c Hin. apply repeat_spec in Hin. subst.
    written_char. }
  rewrite <- (firstn_skipn (length (repeat "0"%char (3 - length (digits n))
                                    ++ digits n) - 2)) in H.
  apply Forall_app in H as [H1 H2].
  apply Forall_app; split; [assumption|].
  constructor; [written_char | assumption].
Qed.

Lemma toFixed2_written x : Forall (fun c => c <> bad) (toFixed2 x).
Proof.
  assert (Hsign : forall s : bool,
            Forall (fun c => c <> bad) (if s then js "-" else []))
    by (intros []; [now apply js_written | constructor]).
  destruct x as [s|s| |s mx e]; unfold toFixed2.
  - now apply js_written.
  - apply Forall_app; split; [apply Hsign | now apply js_written].
  - now apply js_written.
  - match goal with
    | |- Forall _ (if ?b then _ else _) => destruct b
    end;
      (apply Forall_app; split; [apply Hsign|]);
      [apply toString_large_written | apply fixed2_written].
Qed.

End Written.

Lemma lacks_Forall (x : ascii) (w : jsstr) :
  Forall (fun c => c <> x) w -> lacks x w = true.
Proof.
  unfold lacks. induction 1 as [|c w Hc _ IH]; [reflexivity|].
  cbn [existsb]. apply negb_true_iff in IH. rewrite IH, orb_false_r.
  apply negb_true_iff, Ascii.eqb_neq. congruence.
Qed.

Lemma clauseText_canonical (n : node) :
  clauseText (name n) (canonicalClause n) = clauseTemplate n.
Proof.
  unfold clauseText, clauseTemplate, canonicalClause.
  cbn [c_ws1 c_ws2 c_coords js list_ascii_of_string].
  repeat (progress (cbn [app]; rewrite <- ?app_assoc)). reflexivity.
Qed.

Lemma canonicalClause_wellFormed (n : node) :
  wellFormedClause (canonicalClause n) = true.
Proof.
  unfold wellFormedClause, canonicalClause. cbn [c_ws1 c_ws2 c_coords].
  assert (Hw : forall c, In c numberAlphabet -> c <> ")"%char)
    by (intros c Hin ->; vm_compute in Hin; intuition discriminate).
  assert (Hl : lacks ")" (tikzX n ++ js "cm," ++ tikzY n ++ js "cm") = true).
  { apply lacks_Forall. repeat (apply Forall_app; split);
      try apply (toFixed2_written Hw);
      repeat constructor; discriminate. }
  rewrite Hl. now destruct (tikzX n).
Qed.

Lemma document_canonical (n : node) (items : list (jsstr * clause)) tail :
  document (clauseText (name n))
           (map (fun it => (fst it, canonicalClause n)) items) tail
  = document (fun _ => clauseTemplate n) items tail.
Proof.
  induction items as [|[b cl] items IH]; [reflexivity|].
  cbn [map document fst]. now rewrite IH, clauseText_canonical.
Qed.

Lemma document_constant {D E : Type} (f : D -> E) (t : jsstr) items tail :
  document (fun _ => t) (map (fun it => (fst it, f (snd it))) items) tail
  = document (fun _ => t) items tail.
Proof.
  induction items as [|[b d] items IH]; [reflexivity|].
  cbn [map document fst]. now rewrite IH.
Qed.

Lemma placed_canonical (n : node) (items : list (jsstr * clause)) tail :
  placed (mayBegin (name n)) wellFormedClause items tail = true ->
  placed (mayBegin (name n)) wellFormedClause
         (map (fun it => (fst it, canonicalClause n)) items) tail = true.
Proof.
  unfold placed. intros H. apply andb_true_iff in H as [H ->].
  rewrite andb_true_r. rewrite forallb_forall in *.
  intros it Hin. apply in_map_iff in Hin as (it0 & <- & Hin).
  apply H, andb_true_iff in Hin as [Hb _]. cbn [fst snd].
  now rewrite Hb, canonicalClause_wellFormed.
Qed.

Lemma updateCodeFromNodes_same_name (nodeName : jsstr) (n : node) tail :
  plainName nodeName = true -> name n = nodeName ->
  forall ns items,
    Forall (fun n' => name n' = nodeName) ns ->
    placed (mayBegin nodeName) wellFormedClause items tail = true ->
    updateCodeFromNodes (document (clauseText nodeName) items tail) (ns ++ [n])
    = inl (document (fun _ => clauseTemplate n) items tail).
Proof.
  intros Hplain Hn.
  assert (Hturn : forall n' items',
            name n' = nodeName ->
            placed (mayBegin nodeName) wellFormedClause items' tail = true ->
            rewriteNode (document (clauseText nodeName) items' tail) n'
            = inl (document (fun _ => clauseTemplate n') items' tail)).
  { intros n' items' Hn' Hp'. unfold rewriteNode.
    rewrite Hn', compile_clause by assumption.
    f_equal. apply replace_clause_document; [|assumption].
    apply clauseTemplate_plain. now rewrite Hn'. }
  induction ns as [|n1 ns IH]; intros items Hns Hp;
    cbn [app updateCodeFromNodes].
  - now rewrite Hturn.
  - inversion Hns as [|? ? H1 Hns']; subst.
    rewrite <- H1 in *.
    rewrite Hturn by (assumption || reflexivity).
    rewrite <- document_canonical.
    rewrite IH by (assumption || now apply placed_canonical).
    now rewrite (document_constant (fun _ => canonicalClause n1)).
Qed.

(** X14: of several nodes with one plain name, the last decides: on a
    text given by its clauses of that name, [updateCodeFromNodes] with
    these nodes writes the position of the last of them into every one
    of the clauses; so two nodes that were declared under one name at
    two places are, after any drag, declared at one place. *)
Theorem same_name_last_wins (ns : list node) (n : node) items tail :
  plainName (name n) = true ->
  Forall (fun n' => name n' = name n) ns ->
  placed (mayBegin (name n)) wellFormedClause items tail = true ->
  updateCodeFromNodes (document (clauseText (name n)) items tail) (ns ++ [n])
  = inl (document (fun _ => clauseTemplate n) items tail).
Proof.
  intros Hplain Hns Hp.
  now apply (@updateCodeFromNodes_same_name (name n) n tail Hplain eq_refl).
Qed.

Lemma same_name_last_wins_witness :
  parseTikZCode duplicateText = Some (duplicateNodes, [])
  /\ updateCodeFromNodes duplicateText duplicateNodes
     = inl (js "\node[s] (n) at (5.00cm,5.00cm) {first};" ++ newline
            ++ js "\node[s] (n) at (5.00cm,5.00cm) {second};").
Proof.
  split; [vm_compute; reflexivity|].
  assert (Hns : Forall (fun n' => name n' = js "n")
                       [mkNode (js "n") (ofZ 400) (ofZ 300) (js "first") rectangle])
    by (repeat constructor).
  exact (@same_name_last_wins
           [mkNode (js "n") (ofZ 400) (ofZ 300) (js "first") rectangle]
           (mkNode (js "n") (ofZ 650) (ofZ 50) (js "second") rectangle)
           duplicateClauses (js " {second};") eq_refl Hns eq_refl).
Defined.

(** ** Labels *)

Lemma two_lits_silent (a b : ascii) s t i c (k : cont match_result) :
  compatible [a; b] s = false ->
  m (RSeq (RSet false [CChar a]) (RSet false [CChar b])) i (s ++ t) c k = None.
Proof.
  intros H. apply (compatible_startsWith _ _ t) in H.
  rewrite m_seq_lit_step.
  destruct (s ++ t) as [|c1 [|c2 u]]; [reflexivity | |].
  - destruct (Ascii.eqb c1 a); reflexivity.
  - destruct (Ascii.eqb c1 a) eqn:E1; [|reflexivity].
    cbn [m]. unfold set_mem; cbn [existsb citem_mem xorb orb].
    destruct (Ascii.eqb c2 b) eqn:E2; [|reflexivity].
    apply Ascii.eqb_eq in E1, E2; subst.
    cbn [startsWith] in H. rewrite !Ascii.eqb_refl in H. discriminate H.
Qed.

Lemma double_backslashes_break (breaks : list (jsstr * unit)) tail :
  placed (compatible breakMarker) (fun _ => true) breaks tail = true ->
  replace backslashesRegex (document (fun _ => breakMarker) breaks tail) newline
  = document (fun _ => newline) breaks tail.
Proof.
  intros H.
  apply (@replace_document backslashesRegex (compatible breakMarker) unit
           (fun _ => breakMarker) (fun _ => []) (fun _ => true));
    [ intros; now apply two_lits_silent
    | intros; reflexivity
    | intros d _ i post k x Hk; unfold backslashesRegex, breakMarker;
      cbn [re_body js list_ascii_of_string app];
      rewrite m_seq_lit, m_lit_here;
      replace (S (S i)) with (i + length breakMarker) by (simpl; lia); exact Hk
    | discriminate
    | intros [H1|[]]; discriminate H1
    | assumption ].
Qed.

(** A match of the pattern that drops bold wrappers ends in a closing
    brace. *)
Lemma textbfRegex_sem i w rest c c' :
  sem (re_body textbfRegex) i w rest c c' -> In "}"%char w.
Proof.
  unfold textbfRegex; cbn [re_body]; intros H.
  sem_peel. rewrite !in_app_iff. cbn [In]. tauto.
Qed.

(** In a text without closing brace there is no bold wrapper to drop. *)
Lemma replace_textbf_none (label : jsstr) :
  ~ In "}"%char label -> replace textbfRegex label (js "$1") = label.
Proof.
  intros Hno. unfold replace. cbn [replace_from].
  destruct (search textbfRegex 0 label) as [mt|] eqn:E; [|reflexivity].
  apply search_sound in E as (pre & w & rest & Hs & _ & _ & Hsem).
  apply textbfRegex_sem in Hsem. exfalso; apply Hno.
  rewrite Hs, !in_app_iff. tauto.
Qed.

Lemma nodeBody_text mt n :
  nodeBody [] mt = [n] ->
  name n = capture mt 2
  /\ text n = replace backslashesRegex
                      (replace textbfRegex (capture mt 4) (js "$1")) newline.
Proof.
  unfold nodeBody. destruct (length (coordsOf mt) =? 2); [|discriminate].
  cbn [app]. intros H.
  split; [apply (f_equal (fun l => name (hd n l))) in H
         | apply (f_equal (fun l => text (hd n l))) in H];
    cbn [hd name text] in H; now rewrite <- H.
Qed.

(** X15: the label of a parsed node is the text between the opening brace
    of its declaration and the first closing brace after it.  It holds
    no closing brace, so the removal of [\textbf{...}] wrappers finds
    nothing to remove, and the text of the node is the label with a line
    break for every double backslash.  Of the first declaration of
    [loadExample], whose label is written [\textbf{AWS}\\small EC2 GPU],
    the text is [\textbf{AWS]. *)
Theorem label_shown :
  (forall code, exists ns cs,
      parseTikZCode code = Some (ns, cs)
      /\ forall n, In n ns ->
           exists pre w post style coords label,
             code = pre ++ w ++ post
             /\ isNodeDeclaration w style (name n) coords label
             /\ text n = replace backslashesRegex label newline
             /\ forall (breaks : list (jsstr * unit)) tail,
                  label = document (fun _ => breakMarker) breaks tail ->
                  placed (compatible breakMarker) (fun _ => true) breaks tail
                  = true ->
                  text n = document (fun _ => newline) breaks tail)
  /\ (exists n, parseTikZCode awsLine = Some ([n], [])
                /\ name n = js "aws" /\ text n = js "\textbf{AWS").
Proof.
  split; [|eexists; repeat match goal with |- _ /\ _ => split end;
            vm_compute; reflexivity].
  intros code. destruct (parseTikZCode_nodes code) as (ml & cs & Hml & Hp).
  do 2 eexists; split; [exact Hp|].
  intros n Hin. apply in_flat_map in Hin as (mt & Hmt & Hn).
  destruct (nodeBody_one mt) as [[_ E]|(_ & n' & E & _)];
    rewrite E in Hn; [destruct Hn | destruct Hn as [<-|[]]].
  apply nodeBody_text in E as [Hname Htext].
  destruct (@nodeMatches_strict code ml mt Hml Hmt)
    as (pre & w & post & Hcode & Hdecl).
  assert (Hbrace : ~ In "}"%char (capture mt 4))
    by (destruct Hdecl as (? & ? & ? & ? & H); tauto).
  rewrite replace_textbf_none in Htext by assumption.
  exists pre, w, post, (capture mt 1), (capture mt 3), (capture mt 4).
  rewrite Hname. repeat split; try assumption.
  intros breaks tail Hl Hb. rewrite Htext, Hl.
  now apply double_backslashes_break.
Qed.

(** ** A drag that moves nothing *)

Lemma identical_eq (a b : number) : identical a b = true -> a = b.
Proof.
  destruct a as [s|s| |s m e], b as [s'|s'| |s' m' e']; simpl;
    try discriminate; intros H.
  - apply Bool.eqb_prop in H. now subst.
  - apply Bool.eqb_prop in H. now subst.
  - reflexivity.
  - apply andb_true_iff in H as [H He]. apply andb_true_iff in H as [Hs Hm].
    apply Bool.eqb_prop in Hs. apply Pos.eqb_eq in Hm. apply Z.eqb_eq in He.
    now subst.
Qed.

Lemma offsetsUndo_canvas (p : Z) : (0 <= p <= 2000)%Z -> offsetsUndo p = true.
Proof.
  intros H.
  assert (Hall : forallb offsetsUndo (upto (Z.to_nat 2001) 0) = true)
    by (vm_compute; reflexivity).
  rewrite forallb_forall in Hall. apply Hall, In_upto. lia.
Qed.

(** X16: the position that the component gives to the [Draggable] of a
    node at whole pixels of a canvas of 2000 by 2000, reported back by a
    drag, leaves the nodes as they are, when no other node has the same
    name. *)
Theorem drag_to_own_position (n : node) (ns : list node) (px py : Z) :
  x n = ofZ px -> y n = ofZ py ->
  (0 <= px <= 2000)%Z -> (0 <= py <= 2000)%Z ->
  (forall n', In n' ns -> name n' = name n -> n' = n) ->
  dragNodes (name n) (position n) ns = ns.
Proof.
  intros Hx Hy Hpx Hpy Huniq.
  pose proof (offsetsUndo_canvas Hpx) as Ux.
  pose proof (offsetsUndo_canvas Hpy) as Uy.
  apply andb_true_iff in Ux as [Ux _]. apply andb_true_iff in Uy as [_ Uy].
  apply identical_eq in Ux, Uy.
  unfold dragNodes. rewrite <- (map_id ns) at 2. apply map_ext_in.
  intros n' Hin. destruct (eqb (name n') (name n)) eqn:E; [|reflexivity].
  apply eqb_eq in E. rewrite (Huniq n' Hin E).
  unfold position; cbn [data_x data_y]. rewrite Hx, Hy, Ux, Uy.
  destruct n; cbn in *; now subst.
Qed.

Lemma drag_to_own_position_witness :
  dragNodes (js "a")
            (position (mkNode (js "a") (ofZ 100) (ofZ 150) (js "AWS") ellipse))
            scenarioNodes
  = scenarioNodes.
Proof.
  apply (@drag_to_own_position
           (mkNode (js "a") (ofZ 100) (ofZ 150) (js "AWS") ellipse)
           scenarioNodes 100%Z 150%Z eq_refl eq_refl);
    [lia | lia |].
  intros n' [<-|[<-|[]]]; [reflexivity | discriminate].
Defined.

(* ================================================================== *)
(** * The round trip *)

(** ** What the rewriter replaces, exactly *)

Lemma run_unique (P : ascii -> Prop) : forall a b x y r r',
  Forall P a -> Forall P b -> ~ P x -> ~ P y ->
  a ++ x :: r = b ++ y :: r' -> a = b /\ x :: r = y :: r'.
Proof.
  induction a as [|c a IH]; intros [|d b] x y r r' Ha Hb Hx Hy E;
    cbn [app] in E.
  - auto.
  - injection E as -> _. inversion Hb; subst. contradiction.
  - injection E as <- _. inversion Ha; subst. contradiction.
  - injection E as -> E. inversion Ha; inversion Hb; subst.
    destruct (IH b x y r r') as [-> HE]; auto.
Qed.

Lemma not_in_Forall (x : ascii) (w : jsstr) :
  ~ In x w -> Forall (fun c => c <> x) w.
Proof.
  intros H. apply Forall_forall. intros c Hin ->. now apply H.
Qed.

(** A clause that starts a text is the only one that starts it. *)
Lemma isClause_unique nodeName w w0 rest rest0 :
  isClause nodeName w -> isClause nodeName w0 ->
  w ++ rest = w0 ++ rest0 -> w = w0 /\ rest = rest0.
Proof.
  intros (ws1 & ws2 & coords & -> & Hs1 & Hs2 & _ & Hc)
         (ws1' & ws2' & coords' & -> & Hs1' & Hs2' & _ & Hc') E.
  rewrite <- !app_assoc in E. cbn [js list_ascii_of_string app] in E.
  injection E as E. apply app_inv_head in E. injection E as E.
  apply (@run_unique (fun c => isWhiteSpace c = true)) in E as [<- E];
    [|assumption | assumption | discriminate | discriminate].
  injection E as E.
  apply (@run_unique (fun c => isWhiteSpace c = true)) in E as [<- E];
    [|assumption | assumption | discriminate | discriminate].
  injection E as E.
  apply (@run_unique (fun c => c <> ")"%char)) in E as [<- E];
    [|now apply not_in_Forall | now apply not_in_Forall | tauto | tauto].
  injection E as <-. auto.
Qed.

Lemma isClause_wellFormed nodeName w :
  isClause nodeName w ->
  exists cl, w = clauseText nodeName cl /\ wellFormedClause cl = true.
Proof.
  intros (ws1 & ws2 & coords & -> & Hs1 & Hs2 & Hne & Hc).
  exists (mkClause ws1 ws2 coords). split; [reflexivity|].
  unfold wellFormedClause, spaces; cbn [c_ws1 c_ws2 c_coords].
  unfold allSpace in *. rewrite Forall_forall in Hs1, Hs2.
  rewrite (proj2 (forallb_forall _ _) Hs1), (proj2 (forallb_forall _ _) Hs2).
  rewrite (@lacks_Forall _ _ (@not_in_Forall _ _ Hc)).
  now destruct coords.
Qed.

(** The pattern of a name finds every clause of the name. *)
Lemma clause_matches nodeName w :
  isClause nodeName w ->
  forall i rest,
    m (clauseBody nodeName) i (w ++ rest) []
      (fun e _ c => Some (mkMatch i e c))
    = Some (mkMatch i (i + length w) []).
Proof.
  intros H i rest. apply isClause_wellFormed in H as (cl & -> & Hcl).
  now apply clause_finds.
Qed.

Lemma search_clause_none nodeName : forall s i,
  search (mkRe (clauseBody nodeName) 0) i s = None ->
  forall pre w rest, s = pre ++ w ++ rest -> ~ isClause nodeName w.
Proof.
  induction s as [|ch s IH]; intros i H pre w rest Hs Hcl;
    rewrite search_eq in H; cbn [re_body re_ngroups repeat] in H.
  - destruct pre; [|discriminate]. cbn [app] in Hs. rewrite Hs in H.
    now rewrite (clause_matches Hcl) in H.
  - destruct pre as [|ch' pre]; cbn [app] in Hs.
    + rewrite Hs in H. now rewrite (clause_matches Hcl) in H.
    + injection Hs as -> Hs.
      destruct (m _ _ _ _ _); [discriminate|].
      exact (IH _ H _ _ _ Hs Hcl).
Qed.

Lemma search_clause_leftmost nodeName : forall s i mt,
  search (mkRe (clauseBody nodeName) 0) i s = Some mt ->
  forall pre w rest, s = pre ++ w ++ rest -> isClause nodeName w ->
    m_index mt <= i + length pre.
Proof.
  induction s as [|ch s IH]; intros i mt H pre w rest Hs Hcl;
    rewrite search_eq in H; cbn [re_body re_ngroups repeat] in H;
    destruct (m _ _ _ _ _) as [r|] eqn:E.
  - injection H as ->.
    apply m_sound in E as (? & ? & ? & _ & _ & Hk). injection Hk as <-.
    cbn [m_index]. lia.
  - discriminate.
  - injection H as ->.
    apply m_sound in E as (? & ? & ? & _ & _ & Hk). injection Hk as <-.
    cbn [m_index]. lia.
  - destruct pre as [|ch' pre]; cbn [app] in Hs.
    + rewrite Hs in E. now rewrite (clause_matches Hcl) in E.
    + injection Hs as -> Hs. pose proof (IH _ _ H _ _ _ Hs Hcl).
      cbn [length]. lia.
Qed.

(** [replace] with the pattern of a name and a template without [$]. *)
Lemma replace_from_clause_all nodeName str template :
  ~ In "$"%char template ->
  forall fuel i s,
    length s < fuel ->
    clauseRewriteAll nodeName template s
      (replace_from (mkRe (clauseBody nodeName) 0) str template fuel i s).
Proof.
  intros Ht. induction fuel as [|fuel IH]; intros i s Hfuel; [lia|].
  cbn [replace_from].
  destruct (search _ i s) as [mt|] eqn:E;
    [|apply cra_none; exact (@search_clause_none nodeName s i E)].
  pose proof (@search_clause_leftmost nodeName s i mt E) as Hleft.
  apply search_sound in E as (pre & w & rest & -> & Hi & He & Hsem).
  cbn [re_body] in Hsem. apply clauseBody_sem in Hsem as [Hcl _].
  pose proof (isClause_nonempty Hcl) as Hne.
  assert (length w <> 0) by (destruct w; simpl; congruence).
  destruct (m_end mt =? m_index mt) eqn:E; [apply Nat.eqb_eq in E; lia|].
  rewrite expand_plain by assumption.
  assert (Hrest : skipn (m_end mt - i) (pre ++ w ++ rest) = rest).
  { rewrite app_assoc. apply skipn_length_app. rewrite length_app; lia. }
  assert (Hpre : firstn (m_index mt - i) (pre ++ w ++ rest) = pre)
    by (apply firstn_length_app; lia).
  rewrite Hrest, Hpre, <- app_assoc. apply cra_first; [assumption | |].
  - intros pre1 w1 rest1 Hs1 Hcl1.
    pose proof (Hleft _ _ _ Hs1 Hcl1). lia.
  - apply IH. rewrite !length_app in Hfuel. lia.
Qed.

Lemma rewriteNode_plain_all code n :
  plainName (name n) = true ->
  exists out, rewriteNode code n = inl out
              /\ clauseRewriteAll (name n) (clauseTemplate n) code out.
Proof.
  intros Hplain. unfold rewriteNode. rewrite compile_clause by assumption.
  eexists; split; [reflexivity|].
  apply replace_from_clause_all; [now apply clauseTemplate_plain | lia].
Qed.

Lemma updateCodeFromNodes_plain_all ns : forall code,
  forallb (fun n => plainName (name n)) ns = true ->
  exists out, updateCodeFromNodes code ns = inl out /\ rewritesAll ns code out.
Proof.
  induction ns as [|n ns IH]; intros code Hplain; simpl.
  - exists code; split; [reflexivity | constructor].
  - simpl in Hplain; apply andb_true_iff in Hplain as [Hn Hns].
    destruct (rewriteNode_plain_all code n Hn) as (out1 & -> & H1).
    destruct (IH out1 Hns) as (out & -> & H2).
    exists out; split; [reflexivity | econstructor; eauto].
Qed.

Lemma app_same_length {A : Type} : forall (a b c d : list A),
  length a = length b -> a ++ c = b ++ d -> a = b /\ c = d.
Proof.
  induction a as [|x a IH]; intros [|y b] c d Hlen E; try discriminate;
    cbn [app] in E; [auto|].
  injection E as -> E. injection Hlen as Hlen.
  destruct (IH b c d Hlen E) as [-> ->]. auto.
Qed.

(** The clauses and their replacement determine the text that is left. *)
Lemma clauseRewriteAll_functional nodeName repl s s1 :
  clauseRewriteAll nodeName repl s s1 ->
  forall s2, clauseRewriteAll nodeName repl s s2 -> s2 = s1.
Proof.
  induction 1 as [s Hnone|pre w rest rest' Hcl Hleft _ IH]; intros s2 H2.
  - inversion H2 as [|pre0 w0 rest0 rest0' Hcl0 _ _ Hs]; subst;
      [reflexivity|].
    exfalso. exact (Hnone _ _ _ eq_refl Hcl0).
  - inversion H2 as [s0 Hnone Hs|pre0 w0 rest0 rest0' Hcl0 Hleft0 Hrw0 Hs];
      subst.
    + exfalso. exact (Hnone _ _ _ eq_refl Hcl).
    + assert (Hlen : length pre0 = length pre).
      { pose proof (Hleft _ _ _ (eq_sym Hs) Hcl0).
        pose proof (Hleft0 _ _ _ Hs Hcl). lia. }
      assert (Hp : pre0 = pre /\ w0 ++ rest0 = w ++ rest)
        by (apply app_same_length; [assumption | exact Hs]).
      destruct Hp as [-> Hw].
      destruct (@isClause_unique nodeName w0 w rest0 rest Hcl0 Hcl Hw) as [-> ->].
      now rewrite (IH _ Hrw0).
Qed.

Lemma rewritesAll_functional ns : forall s s1,
  rewritesAll ns s s1 -> forall s2, rewritesAll ns s s2 -> s2 = s1.
Proof.
  induction ns as [|n ns IH]; intros s s1 H1 s2 H2;
    inversion H1; inversion H2; subst; [reflexivity|].
  match goal with
  | Ha : clauseRewriteAll _ _ s ?a, Hb : clauseRewriteAll _ _ s ?b |- _ =>
      pose proof (clauseRewriteAll_functional Ha Hb); subst
  end.
  eapply IH; eassumption.
Qed.

(** ** C1: round trip on unmodified input *)

(** C1, as stated, fails: the text [awsText] declares one node, which is
    parsed, and rewriting it against its own parse gives [awsCanonical],
    where the coordinates read [(-6.00cm,3.00cm)] instead of [(-6,3)]. *)
Lemma C1_roundtrip_counterexample :
  exists ns cs,
    parseTikZCode awsText = Some (ns, cs)
    /\ length ns = 1
    /\ updateCodeFromNodes awsText ns = inl awsCanonical
    /\ awsCanonical <> awsText.
Proof.
  do 2 eexists. split; [vm_compute; reflexivity|].
  split; [reflexivity|]. split; [vm_compute; reflexivity|].
  discriminate.
Qed.

(** C1, amended: every text is parsed.  When the names of the parsed
    nodes are plain, rewriting the text against them returns one text,
    and it is this one: node by node, in the order of the list, every
    clause [(name) at (...)] of the node's name (white space allowed
    around [at], the coordinate text running to the next closing
    parenthesis), from left to right, is replaced by
    [(name) at (X.XXcm,Y.YYcm)], where [X.XX] and [Y.YY] are the unit
    coordinates of the parsed node with two decimals, and the text
    before, between and after the clauses is kept.  So the text comes
    back unchanged whenever every clause that the rewriter locates for a
    parsed node already reads as its replacement. *)
Theorem C1_roundtrip_canonical (text : jsstr) :
  exists ns cs,
    parseTikZCode text = Some (ns, cs)
    /\ (forallb (fun n => plainName (name n)) ns = true ->
        exists out,
          updateCodeFromNodes text ns = inl out
          /\ rewritesAll ns text out
          /\ forall out', rewritesAll ns text out' -> out' = out)
    /\ (forallb (canonicalAt text) ns = true ->
        updateCodeFromNodes text ns = inl text).
Proof.
  destruct (parseTikZCode_nodes text) as (ml & cs & _ & Hp).
  do 2 eexists; split; [exact Hp|]. split.
  - intros Hplain.
    destruct (updateCodeFromNodes_plain_all _ text Hplain) as (out & Ho & Hr).
    exists out. repeat split; [assumption | assumption |].
    now apply rewritesAll_functional.
  - apply updateCodeFromNodes_canonical.
Qed.

(** The text [awsCanonical] reads as it is rewritten, and is its own
    rewriting; [awsText] does not, and is rewritten to [awsCanonical]. *)
Lemma C1_roundtrip_canonical_witness :
  (exists ns cs,
      parseTikZCode awsCanonical = Some (ns, cs)
      /\ forallb (canonicalAt awsCanonical) ns = true
      /\ updateCodeFromNodes awsCanonical ns = inl awsCanonical)
  /\ (exists ns cs,
        parseTikZCode awsText = Some (ns, cs)
        /\ forallb (fun n => plainName (name n)) ns = true
        /\ rewritesAll ns awsText awsCanonical).
Proof.
  split.
  - destruct (C1_roundtrip_canonical awsCanonical) as (ns & cs & Hp & _ & H).
    assert (Hc : forallb (canonicalAt awsCanonical) ns = true).
    { vm_compute in Hp. injection Hp as <- <-. vm_compute. reflexivity. }
    exists ns, cs. split; [exact Hp|]. split; [exact Hc | exact (H Hc)].
  - destruct (C1_roundtrip_canonical awsText) as (ns & cs & Hp & H & _).
    assert (Hc : forallb (fun n => plainName (name n)) ns = true).
    { vm_compute in Hp. injection Hp as <- <-. vm_compute. reflexivity. }
    destruct (H Hc) as (out & Ho & Hr & _).
    assert (Hout : out = awsCanonical).
    { vm_compute in Hp. injection Hp as <- <-.
      vm_compute in Ho. injection Ho as <-. reflexivity. }
    rewrite Hout in Hr. exists ns, cs. auto.
Defined.
